(** * nest-chat-app: presence, delivery receipts and the unread index

    A shallow embedding of the chat gateway ([chat.gateway.ts]), the chat
    service ([chat.service.ts]) and the chat controller
    ([chat.controller.ts]) of the NestJS chat backend, together with the
    properties of the presence index, the receipt state machine and the
    Redis side index that the specification states about them.

    Modelling conventions.
    - Redis is a finite map from key strings to value strings; keys are the
      very strings the gateway builds with template literals.
    - [KEYS p*] is modelled as a prefix scan.  Redis matches glob patterns;
      for a prefix free of glob metacharacters followed by a star the two
      coincide, and identities that connect are required to be free of
      them ([identity_ok]).
    - A MongoDB ObjectId is identified with its canonical string (24
      lower-case hexadecimal digits); Mongoose's cast of a string to an
      ObjectId is [castObjectId], which raises [CastError] on anything that
      is not 24 hexadecimal digits.
    - Socket attributes ([client['userId']], [client['roomId']],
      [client['user']]) live in the socket table of the server, so that a
      handler and [server.sockets.sockets.get] see the same object.
    - Handlers run one at a time; [emit] calls only produce output and are
      not tracked. *)

From Stdlib Require Import Ascii.
From stdpp Require Import base strings list gmap sets sorting.

Open Scope string_scope.
Open Scope list_scope.
Open Scope stdpp_scope.

(** ** Strings as JavaScript uses them *)

Module Js.

(** [s.split(sep)] for a one-character separator. *)
Fixpoint split (sep : ascii) (s : string) : list string :=
  match s with
  | EmptyString => [EmptyString]
  | String c s' =>
      if Ascii.eqb c sep then EmptyString :: split sep s'
      else match split sep s' with
           | [] => [String c EmptyString]
           | seg :: segs => String c seg :: segs
           end
  end.

(** Truthiness of a possibly missing string: [undefined], [null] and the
    empty string are falsy. *)
Definition truthy (o : option string) : bool :=
  match o with
  | Some (String _ _) => true
  | _ => false
  end.

(** A missing value inside a template literal prints as [undefined]. *)
Definition str (o : option string) : string := default "undefined" o.

(** [arr.pop()] on the result of a split: the last element. *)
Definition pop (l : list string) : option string := last l.

(** What a property of a plain object that is used as a table of counts
    can hold: a number, or the string that [+ 1] makes of anything that
    is no number. *)
Inductive Value :=
  | Number (n : nat)
  | Text (s : string).

(** The properties that every plain object inherits from
    [Object.prototype], each with the string its value turns into when [+]
    concatenates it: the source text of a built-in function as V8 prints
    it and, for the accessor [__proto__], the text of the prototype
    object. *)
Definition object_prototype : list (string * string) :=
  [ ("constructor", "function Object() { [native code] }");
    ("__defineGetter__", "function __defineGetter__() { [native code] }");
    ("__defineSetter__", "function __defineSetter__() { [native code] }");
    ("hasOwnProperty", "function hasOwnProperty() { [native code] }");
    ("__lookupGetter__", "function __lookupGetter__() { [native code] }");
    ("__lookupSetter__", "function __lookupSetter__() { [native code] }");
    ("isPrototypeOf", "function isPrototypeOf() { [native code] }");
    ("propertyIsEnumerable", "function propertyIsEnumerable() { [native code] }");
    ("toString", "function toString() { [native code] }");
    ("valueOf", "function valueOf() { [native code] }");
    ("__proto__", "[object Object]");
    ("toLocaleString", "function toLocaleString() { [native code] }") ].

Definition inherited (key : string) : option string :=
  snd <$> List.find (λ p, String.eqb p.1 key) object_prototype.

(** [(obj[key] || 0) + 1] for an object [obj] created as [{}], given by its
    own properties: a number is incremented, a missing property counts as
    0, and an inherited one, being a function or an object, is
    concatenated with ["1"]. *)
Definition incr (obj : gmap string Value) (key : string) : Value :=
  match obj !! key with
  | Some (Number n) => Number (S n)
  | Some (Text s) => if truthy (Some s) then Text (s +:+ "1") else Number 1
  | None =>
      match inherited key with
      | Some printed => Text (printed +:+ "1")
      | None => Number 1
      end
  end.

(** [obj[key] = v] for a number or a string [v]: the setter of [__proto__]
    ignores a value that is neither an object nor null; any other key
    becomes an own property. *)
Definition assign (obj : gmap string Value) (key : string) (v : Value)
    : gmap string Value :=
  if String.eqb key "__proto__" then obj else <[key := v]> obj.

End Js.

(** No character of [s] is [c]. *)
Fixpoint lacks (c : ascii) (s : string) : bool :=
  match s with
  | EmptyString => true
  | String a s' => negb (Ascii.eqb a c) && lacks c s'
  end.

Definition no_colon (s : string) : bool := lacks ":"%char s.

(** Characters that Redis glob patterns treat specially. *)
Definition glob_free (s : string) : bool :=
  lacks "*"%char s && lacks "?"%char s && lacks "["%char s &&
  lacks "]"%char s && lacks "\"%char s.

(** An identity as the token verifier hands it out (a Cognito [sub]):
    non-empty, without the key separator and without glob metacharacters. *)
Definition identity_ok (s : string) : bool :=
  Js.truthy (Some s) && no_colon s && glob_free s.

(** ** Redis keys built by the gateway *)

Definition presenceKey (userId : string) : string := "user:" +:+ userId.

Definition statusKey (userId roomId messageId : string) : string :=
  "messageStatus:" +:+ userId +:+ ":" +:+ roomId +:+ ":" +:+ messageId.

(** The key passed to [del] by join-room and leave-room. *)
Definition statusWildcard (userId roomId : string) : string :=
  "messageStatus:" +:+ userId +:+ ":" +:+ roomId +:+ ":*".

(** The literal part of [messageStatus:<userId>:*], the pattern given to
    [keys]. *)
Definition statusPrefix (userId : string) : string :=
  "messageStatus:" +:+ userId +:+ ":".

(** ** ObjectIds *)

Definition is_lower_hex (c : ascii) : bool :=
  let n := Ascii.nat_of_ascii c in
  ((48 <=? n)%nat && (n <=? 57)%nat) || ((97 <=? n)%nat && (n <=? 102)%nat).

Definition is_hex (c : ascii) : bool :=
  is_lower_hex c ||
  (let n := Ascii.nat_of_ascii c in (65 <=? n)%nat && (n <=? 70)%nat).

Definition lower_hex (c : ascii) : ascii :=
  let n := Ascii.nat_of_ascii c in
  if (65 <=? n)%nat && (n <=? 70)%nat then Ascii.ascii_of_nat (n + 32) else c.

Fixpoint string_forall (f : ascii → bool) (s : string) : bool :=
  match s with
  | EmptyString => true
  | String c s' => f c && string_forall f s'
  end.

Fixpoint string_map (f : ascii → ascii) (s : string) : string :=
  match s with
  | EmptyString => EmptyString
  | String c s' => String (f c) (string_map f s')
  end.

(** The canonical string of an ObjectId, as [_id.toString()] prints it. *)
Definition is_oid (s : string) : bool :=
  (String.length s =? 24)%nat && string_forall is_lower_hex s.

(** Mongoose's cast of a query value to an ObjectId. *)
Definition castObjectId (s : string) : option string :=
  if (String.length s =? 24)%nat && string_forall is_hex s
  then Some (string_map lower_hex s) else None.

(** A string that denotes an ObjectId, in either case of the digits. *)
Definition is_object_id (s : string) : bool :=
  match castObjectId s with
  | Some _ => true
  | None => false
  end.

(** ** Data model *)

(** [enums/message-status.enum.ts]; the values are the ones the message
    schema lists. *)
Inductive MessageStatus := SENT | DELIVERED | SEEN.

Inductive RoomType := SINGLE | GROUP.

Inductive ParticipantStatus := ACCEPT | REJECT | BLOCKED | REQUEST.

#[global] Instance MessageStatus_eq_dec : EqDecision MessageStatus.
Proof. solve_decision. Defined.

#[global] Instance RoomType_eq_dec : EqDecision RoomType.
Proof. solve_decision. Defined.

(** The string a status is stored as in Redis. *)
Definition status_value (s : MessageStatus) : string :=
  match s with
  | SENT => "SENT"
  | DELIVERED => "DELIVERED"
  | SEEN => "SEEN"
  end.

(** The order SENT < DELIVERED < SEEN. *)
Definition status_rank (s : MessageStatus) : nat :=
  match s with
  | SENT => 0
  | DELIVERED => 1
  | SEEN => 2
  end.

Record Participant := mkParticipant {
  p_userId : string;
  p_status : ParticipantStatus;
  p_is_deleted : bool;
}.

Record Receiver := mkReceiver {
  rcv_userId : string;
  rcv_status : MessageStatus;
  rcv_is_deleted : bool;
}.

(** [schemas/chat-room.schema.ts] *)
Record ChatRoom := mkChatRoom {
  room__id : string;
  room_name : option string;
  room_type : RoomType;
  room_status : bool;
  room_image : option string;
  room_participants : list Participant;
  room_admins : list string;
  room_created_by : string;
  room_updated_by : string;
  room_is_deleted : bool;
}.

(** [schemas/message.schema.ts] *)
Record Message := mkMessage {
  msg__id : string;
  msg_room_id : string;
  msg_message : string;
  msg_sender_id : string;
  msg_receivers : list Receiver;
  msg_status : bool;
  msg_createdAt : N;
  msg_created_by : string;
  msg_updated_by : string;
  msg_is_deleted : bool;
}.

(** A socket.io client with the attributes the gateway stashes on it.
    [handshake] is what verifying the token of the handshake headers
    yields: the [sub] of the payload, or nothing when the token is missing
    or invalid. *)
Record Socket := mkSocket {
  handshake : option string;
  sock_user : option string;
  sock_userId : option string;
  sock_roomId : option string;
}.

(** The server: Redis, the socket.io tables and the two collections.
    [writes] is a trace of the receipt updates sent to the message
    collection, oldest first; no handler reads it. *)
Record State := mkState {
  redisClient : gmap string string;
  sockets : gmap string Socket;
  rooms : gmap string (gset string);
  chatRoomModel : list ChatRoom;
  messageModel : list Message;
  writes : list (string * string * MessageStatus);
}.

Definition initial : State := mkState ∅ ∅ ∅ [] [] [].

Definition with_redis (f : gmap string string → gmap string string) (st : State) : State :=
  mkState (f (redisClient st)) (sockets st) (rooms st) (chatRoomModel st)
          (messageModel st) (writes st).

Definition with_sockets (f : gmap string Socket → gmap string Socket) (st : State) : State :=
  mkState (redisClient st) (f (sockets st)) (rooms st) (chatRoomModel st)
          (messageModel st) (writes st).

Definition with_rooms (f : gmap string (gset string) → gmap string (gset string))
    (st : State) : State :=
  mkState (redisClient st) (sockets st) (f (rooms st)) (chatRoomModel st)
          (messageModel st) (writes st).

Definition with_chatRooms (f : list ChatRoom → list ChatRoom) (st : State) : State :=
  mkState (redisClient st) (sockets st) (rooms st) (f (chatRoomModel st))
          (messageModel st) (writes st).

Definition with_messages (f : list Message → list Message) (st : State) : State :=
  mkState (redisClient st) (sockets st) (rooms st) (chatRoomModel st)
          (f (messageModel st)) (writes st).

Definition with_writes (f : list (string * string * MessageStatus) →
                            list (string * string * MessageStatus)) (st : State) : State :=
  mkState (redisClient st) (sockets st) (rooms st) (chatRoomModel st)
          (messageModel st) (f (writes st)).

(** ** Handlers as state transformers that may throw *)

Inductive Exn :=
  | WsException (message : string)
  | NotFoundException (message : string)
  | UnauthorizedException (message : string)
  | ConflictException (message : string)
  | BadRequestException (message : string)
  | ValidationError (message : string)
  | CastError
  | TypeError.

(** A computation keeps the state it reached when it throws: what was
    written before the exception stays written. *)
Definition M (A : Type) : Type := State → State * (Exn + A).

#[global] Instance M_ret : MRet M := λ A a st, (st, inr a).

#[global] Instance M_bind : MBind M := λ A B f m st,
  match m st with
  | (st', inl e) => (st', inl e)
  | (st', inr a) => f a st'
  end.

Definition throw {A} (e : Exn) : M A := λ st, (st, inl e).

Definition try_catch {A} (m : M A) (handler : Exn → M A) : M A := λ st,
  match m st with
  | (st', inl e) => handler e st'
  | (st', inr a) => (st', inr a)
  end.

Definition gets {A} (f : State → A) : M A := λ st, (st, inr (f st)).

Definition modify (f : State → State) : M unit := λ st, (f st, inr tt).

(** [for (const x of l) { await body(x) }] *)
Fixpoint forM_ {A} (body : A → M unit) (l : list A) : M unit :=
  match l with
  | [] => mret tt
  | x :: l' => body x ≫= λ _, forM_ body l'
  end.

(** The same loop when it updates local variables [acc]. *)
Fixpoint foldM {A B} (body : B → A → M B) (acc : B) (l : list A) : M B :=
  match l with
  | [] => mret acc
  | x :: l' => body acc x ≫= λ acc', foldM body acc' l'
  end.

(** ** Redis commands *)

Definition redis_get (key : string) : M (option string) :=
  gets (λ st, redisClient st !! key).

Definition redis_set (key value : string) : M unit :=
  modify (with_redis <[key := value]>).

(** [del] takes a key, not a pattern. *)
Definition redis_del (key : string) : M unit :=
  modify (with_redis (delete key)).

Definition scan (prefix : string) (db : gmap string string) : list string :=
  filter (λ k, String.prefix prefix k = true) (map_to_list db).*1.

(** [keys(prefix + '*')] *)
Definition redis_keys (prefix : string) : M (list string) :=
  gets (λ st, scan prefix (redisClient st)).

(** ** The socket.io tables *)

Definition getClient (cid : string) : M Socket := λ st,
  match sockets st !! cid with
  | Some s => (st, inr s)
  | None => (st, inl TypeError)
  end.

Definition setClient (cid : string) (f : Socket → Socket) : M unit :=
  modify (with_sockets (alter f cid)).

(** [client.join(roomId)] *)
Definition client_join (cid roomId : string) : M unit :=
  modify (with_rooms (λ rs, <[roomId := {[cid]} ∪ default ∅ (rs !! roomId)]> rs)).

(** [client.leave(roomId)]; socket.io drops a room that becomes empty. *)
Definition client_leave (cid : string) (roomId : string) : M unit :=
  modify (with_rooms (λ rs,
    match rs !! roomId with
    | Some members =>
        let members' := members ∖ {[cid]} in
        if decide (members' = ∅) then delete roomId rs else <[roomId := members']> rs
    | None => rs
    end)).

(** What socket.io does to its tables when a socket goes away. *)
Definition forget_socket (cid : string) : M unit :=
  modify (λ st,
    with_rooms (λ rs, filter (λ kv, kv.2 ≠ ∅) ((λ members, members ∖ {[cid]}) <$> rs))
      (with_sockets (delete cid) st)).

(** ** ChatService *)

Module ChatService.

Definition cast (id : string) : M string :=
  match castObjectId id with
  | Some oid => mret oid
  | None => throw CastError
  end.

Definition has_participant (userId : string) (room : ChatRoom) : bool :=
  bool_decide (userId ∈ p_userId <$> room_participants room).

(** [chatRoomModel.findById(roomId)] *)
Definition findById (roomId : option string) : M (option ChatRoom) :=
  match roomId with
  | None => mret None
  | Some id =>
      oid ← cast id;
      gets (λ st, List.find (λ room, bool_decide (room__id room = oid)) (chatRoomModel st))
  end.

Definition getRoom (roomId : option string) : M ChatRoom :=
  room ← findById roomId;
  match room with
  | None => throw (NotFoundException ("Chat room with ID " +:+ Js.str roomId +:+ " not found"))
  | Some room => mret room
  end.

(** [findOne({ _id: roomId, 'participants.userId': userId })] *)
Definition isUserInRoom (roomId : option string) (userId : string) : M bool :=
  match roomId with
  | None => mret false
  | Some id =>
      oid ← cast id;
      gets (λ st,
        match List.find (λ room, bool_decide (room__id room = oid) && has_participant userId room)
                        (chatRoomModel st) with
        | Some _ => true
        | None => false
        end)
  end.

(** [newId] and [now] are the [_id] and the [createdAt] timestamp that
    saving the document assigns. *)
Definition saveMessage (roomId senderId message : string) (receiverIds : list string)
    (newId : string) (now : N) : M Message :=
  let receivers := (λ userId, mkReceiver userId SENT false) <$> receiverIds in
  let newMessage :=
    mkMessage newId roomId message senderId receivers true now senderId senderId false in
  if Js.truthy (Some roomId) && Js.truthy (Some message) && Js.truthy (Some senderId)
  then modify (with_messages (λ ms, ms ++ [newMessage])) ;; mret newMessage
  else throw (ValidationError "Message validation failed").

Definition has_receiver (userId : string) (m : Message) : bool :=
  bool_decide (userId ∈ rcv_userId <$> msg_receivers m).

(** ['receivers.$.status']: the first receiver that matches. *)
Fixpoint set_first_status (userId : string) (status : MessageStatus)
    (rs : list Receiver) : list Receiver :=
  match rs with
  | [] => []
  | r :: rs' =>
      if decide (rcv_userId r = userId)
      then mkReceiver (rcv_userId r) status (rcv_is_deleted r) :: rs'
      else r :: set_first_status userId status rs'
  end.

Definition set_receivers (rs : list Receiver) (m : Message) : Message :=
  mkMessage (msg__id m) (msg_room_id m) (msg_message m) (msg_sender_id m) rs
            (msg_status m) (msg_createdAt m) (msg_created_by m) (msg_updated_by m)
            (msg_is_deleted m).

(** [updateOne]: the first document that matches the filter. *)
Fixpoint updateOne (oid userId : string) (status : MessageStatus)
    (ms : list Message) : list Message :=
  match ms with
  | [] => []
  | m :: ms' =>
      if bool_decide (msg__id m = oid) && has_receiver userId m
      then set_receivers (set_first_status userId status (msg_receivers m)) m :: ms'
      else m :: updateOne oid userId status ms'
  end.

Definition updateMessageStatus (messageId userId : option string)
    (status : MessageStatus) : M unit :=
  match messageId with
  | None => mret tt
  | Some id =>
      oid ← cast id;
      match userId with
      | None => mret tt
      | Some userId =>
          modify (λ st, with_writes (λ w, w ++ [(oid, userId, status)])
                          (with_messages (updateOne oid userId status) st))
      end
  end.

Definition createdAt_le (a b : Message) : Prop := (msg_createdAt a ≤ msg_createdAt b)%N.

#[global] Instance createdAt_le_dec a b : Decision (createdAt_le a b).
Proof. unfold createdAt_le. apply _. Defined.

(** [find({ room_id: roomId }).sort({ createdAt: 1 })] *)
Definition getMessagesForRoom (roomId : string) : M (list Message) :=
  gets (λ st, merge_sort createdAt_le
                (filter (λ m, msg_room_id m = roomId) (messageModel st))).

(** [dto/create-room.dto.ts], after the controller has filled in
    [participants]. *)
Record CreateRoomDto := mkCreateRoomDto {
  dto_name : option string;
  dto_type : RoomType;
  dto_image : option string;
  dto_status : bool;
  dto_participantIds : list string;
  dto_participants : list Participant;
}.

Record AddParticipantDto := mkAddParticipantDto {
  add_roomId : string;
  add_userIds : list string;
}.

(** The body of [response(httpCode, message, data)]. *)
Record HttpResponse := mkHttpResponse {
  http_status : nat;
  http_message : string;
  http_data : option ChatRoom;
}.

(** The [pre('validate')] hook of the room schema. *)
Definition pre_validate (room : ChatRoom) : M unit :=
  match room_type room with
  | GROUP =>
      if Js.truthy (room_name room) then mret tt
      else throw (ValidationError "Name must be provided for GROUP room type")
  | SINGLE =>
      if Js.truthy (room_name room)
      then throw (ValidationError "Name should not be provided for SINGLE room type")
      else mret tt
  end.

(** The [pre('save')] hook of the room schema. *)
Definition pre_save (room : ChatRoom) : ChatRoom :=
  let image :=
    match room_type room with
    | SINGLE => None
    | GROUP => if Js.truthy (room_image room) then room_image room else Some ""
    end in
  mkChatRoom (room__id room) (room_name room) (room_type room) (room_status room) image
             (room_participants room) (room_admins room) (room_created_by room)
             (room_updated_by room) (room_is_deleted room).

Definition save_room (room : ChatRoom) : M ChatRoom :=
  pre_validate room ;;
  let room' := pre_save room in
  modify (with_chatRooms (λ rs, rs ++ [room'])) ;;
  mret room'.

Definition createRoom (createRoomDto : CreateRoomDto) (userId : string)
    (newId : string) : M HttpResponse :=
  let participants := dto_participants createRoomDto in
  try_catch
    (match dto_type createRoomDto with
     | SINGLE =>
         match participants with
         | [] => throw TypeError
         | p :: _ =>
             let participantUserId := p_userId p in
             existingRoom ← gets (λ st,
               List.find (λ room, bool_decide (room_type room = SINGLE)
                                  && has_participant userId room
                                  && has_participant participantUserId room)
                         (chatRoomModel st));
             match existingRoom with
             | Some _ => throw (ConflictException "A single room with this user already exists")
             | None =>
                 if decide (length participants = 1) then mret tt
                 else throw (ConflictException
                        "You can't provide more than one participant for a single room")
             end
         end
     | GROUP => mret tt
     end ;;
     let participants := participants ++ [mkParticipant userId ACCEPT false] in
     room ← save_room (mkChatRoom newId (dto_name createRoomDto) (dto_type createRoomDto)
                         true (dto_image createRoomDto) participants [userId]
                         userId userId false);
     mret (mkHttpResponse 201 "CREATE_USER_SUCCESSFULLY" (Some room)))
    (λ err,
       match err with
       | ConflictException msg => throw (ConflictException msg)
       | _ => throw (BadRequestException "Not able to process request")
       end).

(** [findOneAndUpdate] with [$addToSet]: Mongoose casts every new element to
    a subdocument with an [_id] of its own, so each one is added. *)
Definition addToSet_participants (oid : string) (new : list Participant)
    (rs : list ChatRoom) : list ChatRoom * option ChatRoom :=
  (fix go (rs : list ChatRoom) :=
     match rs with
     | [] => ([], None)
     | room :: rs' =>
         if bool_decide (room__id room = oid) && bool_decide (room_type room = GROUP)
         then
           let room' :=
             mkChatRoom (room__id room) (room_name room) (room_type room) (room_status room)
                        (room_image room) (room_participants room ++ new) (room_admins room)
                        (room_created_by room) (room_updated_by room) (room_is_deleted room) in
           (room' :: rs', Some room')
         else let '(rs'', found) := go rs' in (room :: rs'', found)
     end) rs.

Definition findOneAndUpdate_addToSet (oid : string) (new : list Participant)
    : M (option ChatRoom) := λ st,
  let '(rs, found) := addToSet_participants oid new (chatRoomModel st) in
  (with_chatRooms (λ _, rs) st, inr found).

Definition addParticipantToRoom (addParticipantDto : AddParticipantDto)
    (currentUserId : string) : M HttpResponse :=
  let roomId := add_roomId addParticipantDto in
  let userIds := add_userIds addParticipantDto in
  try_catch
    (room ← getRoom (Some roomId);
     if negb (bool_decide (currentUserId ∈ room_admins room))
     then throw (UnauthorizedException "Only admins can add participants to the room")
     else if negb (bool_decide (room_type room = GROUP))
     then throw (UnauthorizedException "Cannot add participants to a private room")
     else if bool_decide (currentUserId ∈ userIds)
     then throw (ConflictException
                   "You can't include your own user ID in the participants array")
     else
       let existingParticipants := p_userId <$> room_participants room in
       let duplicateUserIds := filter (λ userId, userId ∈ existingParticipants) userIds in
       if decide (0 < length duplicateUserIds)
       then throw (ConflictException "User(s) already in room")
       else
         let newParticipants := (λ userId, mkParticipant userId REQUEST false) <$> userIds in
         oid ← cast roomId;
         result ← findOneAndUpdate_addToSet oid newParticipants;
         mret (mkHttpResponse 200 "Participant added successfully." result))
    (λ err,
       match err with
       | NotFoundException _ | UnauthorizedException _ | ConflictException _ => throw err
       | _ => throw (BadRequestException "NOT_ABLE_TO_PROCESS_REQUEST")
       end).

End ChatService.

(** ** ChatController *)

Module ChatController.

Import ChatService.

(** [POST chat/create-room], for a request that passed the guard and the
    validation pipe; [userId] is [req.user.sub]. *)
Definition createRoom (createRoomDto : CreateRoomDto) (userId : string)
    (newId : string) : M HttpResponse :=
  if bool_decide (userId ∈ dto_participantIds createRoomDto)
  then throw (ConflictException
                "You can't include your own user ID in the participants array")
  else
    let participants :=
      (λ userId, mkParticipant userId REQUEST false) <$> dto_participantIds createRoomDto in
    let updatedCreateRoomDto :=
      mkCreateRoomDto (dto_name createRoomDto) (dto_type createRoomDto)
                      (dto_image createRoomDto) (dto_status createRoomDto)
                      (dto_participantIds createRoomDto) participants in
    ChatService.createRoom updatedCreateRoomDto userId newId.

Definition handleAddParticipant (addParticipantDto : AddParticipantDto)
    (userId : string) : M HttpResponse :=
  ChatService.addParticipantToRoom addParticipantDto userId.

End ChatController.

(** ** ChatAuthGuard *)

Module ChatAuthGuard.

Definition verifyToken (cid : string) : M string :=
  client ← getClient cid;
  match handshake client with
  | None => throw (WsException "Unauthorized: Invalid JWT token")
  | Some sub => mret sub
  end.

Definition set_user (user : string) (s : Socket) : Socket :=
  mkSocket (handshake s) (Some user) (sock_userId s) (sock_roomId s).

Definition canActivate (cid : string) : M bool :=
  try_catch
    (user ← verifyToken cid;
     setClient cid (set_user user) ;;
     mret true)
    (λ _, throw (WsException "Unauthorized: Invalid JWT token")).

End ChatAuthGuard.

(** ** ChatGateway *)

Module ChatGateway.

Import ChatService.

(** What a handler returns to the caller. *)
Inductive Response :=
  | Joined (message : string) (roomId : string)
  | Success (message : string)
  | Failure (message : string)
  | Sent
  | Messages (messages : list Message)
  | Unread (totalUnreadCount : nat) (roomUnreadCounts : gmap string Js.Value).

Definition set_userId (userId : string) (s : Socket) : Socket :=
  mkSocket (handshake s) (sock_user s) (Some userId) (sock_roomId s).

Definition set_roomId (roomId : string) (s : Socket) : Socket :=
  mkSocket (handshake s) (sock_user s) (sock_userId s) (Some roomId).

(** [client['user'].sub] *)
Definition user_sub (client : Socket) : M string :=
  match sock_user client with
  | Some sub => mret sub
  | None => throw TypeError
  end.

Definition is_pending (messageStatus : option string) : bool :=
  bool_decide (messageStatus = Some (status_value SENT)
               ∨ messageStatus = Some (status_value DELIVERED)).

(** One round of the loop over [unreadKeys]; [acc] is
    [(totalUnreadCount, roomUnreadCounts)]. *)
Definition countUnread (userId : option string) (acc : nat * gmap string Js.Value)
    (key : string) : M (nat * gmap string Js.Value) :=
  messageStatus ← redis_get key;
  if is_pending messageStatus then
    let roomId := Js.split ":" key !! 2 in
    let totalUnreadCount := S acc.1 in
    let roomUnreadCounts :=
      if Js.truthy roomId
      then Js.assign acc.2 (Js.str roomId) (Js.incr acc.2 (Js.str roomId))
      else acc.2 in
    redis_set key (status_value DELIVERED) ;;
    let messageId := Js.pop (Js.split ":" key) in
    updateMessageStatus messageId userId DELIVERED ;;
    mret (totalUnreadCount, roomUnreadCounts)
  else mret acc.

Definition handleUnreadMessages (cid : string) : M Response :=
  try_catch
    (client ← getClient cid;
     let userId := sock_userId client in
     unreadKeys ← redis_keys (statusPrefix (Js.str userId));
     counts ← foldM (countUnread userId) (0, ∅) unreadKeys;
     mret (Unread counts.1 counts.2))
    (λ _, mret (Failure "Failed to fetch unread message counts")).

(** The filter of load-messages: the first receiver entry of the user
    exists and is not SEEN. *)
Definition is_unread (userId : option string) (message : Message) : bool :=
  match userId with
  | None => false
  | Some u =>
      match List.find (λ r, bool_decide (rcv_userId r = u)) (msg_receivers message) with
      | Some receiver => negb (bool_decide (rcv_status receiver = SEEN))
      | None => false
      end
  end.

Definition handleLoadMessages (cid : string) : M Response :=
  try_catch
    (client ← getClient cid;
     let userId := sock_userId client in
     let roomId := sock_roomId client in
     if negb (Js.truthy roomId) then mret (Failure "You are not in a room")
     else
       messages ← getMessagesForRoom (Js.str roomId);
       let unreadMessages := List.filter (is_unread userId) messages in
       match unreadMessages with
       | [] => mret (Messages messages)
       | _ =>
           forM_ (λ message,
                    updateMessageStatus (Some (msg__id message)) userId SEEN ;;
                    redis_del (statusKey (Js.str userId) (Js.str roomId) (msg__id message)))
                 unreadMessages ;;
           mret (Messages messages)
       end)
    (λ _, mret (Failure "An error occurred while loading messages")).

Definition handleConnection_body (cid : string) : M unit :=
  user ← ChatAuthGuard.verifyToken cid;
  setClient cid (λ s, ChatAuthGuard.set_user user (set_userId user s)) ;;
  redis_set (presenceKey user) cid ;;
  handleUnreadMessages cid ;;
  mret tt.

Definition handleDisconnect (client : Socket) : M unit :=
  if Js.truthy (sock_userId client)
  then redis_del (presenceKey (Js.str (sock_userId client)))
  else mret tt.

(** The transport closes a socket: socket.io forgets it and the gateway's
    disconnect hook runs on the client object. *)
Definition disconnect (cid : string) : M unit :=
  client ← getClient cid;
  forget_socket cid ;;
  handleDisconnect client.

Definition handleConnection (cid : string) : M unit :=
  try_catch (handleConnection_body cid) (λ _, disconnect cid).

Definition handleJoinRoom (roomId : string) (cid : string) : M Response :=
  try_catch
    (client ← getClient cid;
     userId ← user_sub client;
     setClient cid (λ s, set_userId userId (set_roomId roomId s)) ;;
     room ← getRoom (Some roomId);
     isAuthorized ← isUserInRoom (Some roomId) userId;
     if negb isAuthorized
     then throw (WsException "You are not authorized to join this room")
     else
       client_join cid roomId ;;
       redis_del (statusWildcard userId roomId) ;;
       handleLoadMessages cid ;;
       mret (Joined "Room joined successfully." roomId))
    (λ error,
       match error with
       | WsException message => mret (Failure message)
       | _ => mret (Failure "An error occurred while joining the room")
       end).

Definition handleLeaveRoom (cid : string) : M Response :=
  client ← getClient cid;
  userId ← user_sub client;
  let roomId := sock_roomId client in
  try_catch
    (room ← getRoom roomId;
     isAuthorized ← isUserInRoom roomId userId;
     if negb isAuthorized
     then mret (Failure "You are not authorized to leave this room")
     else
       client_leave cid (Js.str roomId) ;;
       redis_del (statusWildcard userId (Js.str roomId)) ;;
       handleUnreadMessages cid ;;
       mret (Success "Room left successfully."))
    (λ _, mret (Failure "An error occurred while leaving the room")).

(** The body of the loop over the recipients of a message. *)
Definition deliver (roomId savedId : string) (roomClients : option (gset string))
    (participantId : string) : M unit :=
  let key := statusKey participantId roomId savedId in
  clientId ← redis_get (presenceKey participantId);
  if Js.truthy clientId then
    socket ← gets (λ st, sockets st !! Js.str clientId);
    match socket with
    | Some _ =>
        if bool_decide (Js.str clientId ∈ default ∅ roomClients) then
          redis_set key (status_value SEEN) ;;
          updateMessageStatus (Some savedId) (Some participantId) SEEN
        else
          redis_set key (status_value DELIVERED) ;;
          updateMessageStatus (Some savedId) (Some participantId) DELIVERED ;;
          handleUnreadMessages (Js.str clientId) ;;
          mret tt
    | None => mret tt
    end
  else redis_set key (status_value SENT).

Definition handleSendMessage (message : string) (cid : string)
    (newId : string) (now : N) : M Response :=
  try_catch
    (client ← getClient cid;
     let roomId := sock_roomId client in
     if negb (Js.truthy roomId) then mret (Failure "You are not in a room")
     else
       senderId ← user_sub client;
       room ← getRoom roomId;
       isAuthorized ← isUserInRoom roomId senderId;
       if negb isAuthorized then mret (Failure "You are not a participant of this room")
       else
         let participants :=
           filter (λ userId, userId ≠ senderId) (p_userId <$> room_participants room) in
         savedMessage ← saveMessage (Js.str roomId) senderId message participants newId now;
         roomClients ← gets (λ st, rooms st !! Js.str roomId);
         forM_ (deliver (Js.str roomId) (msg__id savedMessage) roomClients) participants ;;
         mret Sent)
    (λ _, mret (Failure "An error occurred while sending the message")).

(** *** Events as the framework dispatches them: guard, pipe, handler *)

Definition guarded {A} (cid : string) (handler : M A) : M A :=
  ChatAuthGuard.canActivate cid ;; handler.

(** [JoinRoomSchema] *)
Definition on_joinRoom (roomId : string) (cid : string) : M Response :=
  guarded cid
    (if Js.truthy (Some roomId) then handleJoinRoom roomId cid
     else throw (BadRequestException "Room ID is required.")).

Definition on_leaveRoom (cid : string) : M Response :=
  guarded cid (handleLeaveRoom cid).

(** [SendMessageSchema] *)
Definition on_message (message : string) (cid : string) (newId : string) (now : N)
    : M Response :=
  guarded cid
    (if Js.truthy (Some message) then handleSendMessage message cid newId now
     else throw (BadRequestException "Must be at least 1 character.")).

Definition on_loadMessages (cid : string) : M Response :=
  guarded cid (handleLoadMessages cid).

Definition on_unreadMessages (cid : string) : M Response :=
  guarded cid (handleUnreadMessages cid).

(** A transport-level connect: socket.io creates the socket, puts it in the
    room named after its id and calls the connection hook. *)
Definition on_connect (cid : string) (token : option string) : M unit :=
  modify (λ st,
    with_rooms (λ rs, <[cid := {[cid]} ∪ default ∅ (rs !! cid)]> rs)
      (with_sockets <[cid := mkSocket token None None None]> st)) ;;
  handleConnection cid.

End ChatGateway.

(** ** The system: what can happen to the server, one request at a time *)

Module System.

Import ChatService.

Inductive Op :=
  | Connect (cid : string) (token : option string)
  | Disconnect (cid : string)
  | JoinRoom (cid : string) (roomId : string)
  | LeaveRoom (cid : string)
  | SendMessage (cid : string) (message : string) (newId : string) (now : N)
  | LoadMessages (cid : string)
  | UnreadMessages (cid : string)
  | CreateRoom (userId : string) (dto : CreateRoomDto) (newId : string)
  | AddParticipant (userId : string) (dto : AddParticipantDto).

(** The state a request leaves behind, whatever it answers. *)
Definition exec (op : Op) (st : State) : State :=
  match op with
  | Connect cid token => (ChatGateway.on_connect cid token st).1
  | Disconnect cid => (ChatGateway.disconnect cid st).1
  | JoinRoom cid roomId => (ChatGateway.on_joinRoom roomId cid st).1
  | LeaveRoom cid => (ChatGateway.on_leaveRoom cid st).1
  | SendMessage cid message newId now => (ChatGateway.on_message message cid newId now st).1
  | LoadMessages cid => (ChatGateway.on_loadMessages cid st).1
  | UnreadMessages cid => (ChatGateway.on_unreadMessages cid st).1
  | CreateRoom userId dto newId => (ChatController.createRoom dto userId newId st).1
  | AddParticipant userId dto => (ChatController.handleAddParticipant dto userId st).1
  end.

Definition connected (cid : string) (st : State) : bool :=
  bool_decide (is_Some (sockets st !! cid)).

(** What the environment guarantees about a request: socket ids are fresh
    and non-empty, verified tokens carry a proper identity, events come
    from connected sockets, and the database hands out fresh ObjectIds. *)
Definition admissible (st : State) (op : Op) : bool :=
  match op with
  | Connect cid token =>
      negb (connected cid st) && Js.truthy (Some cid)
      && match token with Some sub => identity_ok sub | None => true end
  | Disconnect cid | JoinRoom cid _ | LeaveRoom cid | LoadMessages cid
  | UnreadMessages cid => connected cid st
  | SendMessage cid _ newId _ =>
      connected cid st && is_oid newId
      && bool_decide (newId ∉ msg__id <$> messageModel st)
  | CreateRoom userId _ newId =>
      identity_ok userId && is_oid newId
      && bool_decide (newId ∉ room__id <$> chatRoomModel st)
  | AddParticipant userId _ => identity_ok userId
  end.

Inductive reachable : State → Prop :=
  | reachable_initial : reachable initial
  | reachable_step st op :
      reachable st → admissible st op = true → reachable (exec op st).

(** Running a list of requests, oldest first. *)
Definition run (ops : list Op) (st : State) : State :=
  foldl (λ st op, exec op st) st ops.

(** Every request of the list is admissible when its turn comes. *)
Fixpoint admissible_run (st : State) (ops : list Op) : bool :=
  match ops with
  | [] => true
  | op :: ops' => admissible st op && admissible_run (exec op st) ops'
  end.

End System.

(** ** Notions the properties are stated with *)

(** Presence lookup. *)
Definition lookup_presence (identity : string) (st : State) : option string :=
  redisClient st !! presenceKey identity.

(** The receipt of a user on a message, as [updateOne] and [find] address
    it: the first receiver entry of that user. *)
Definition receipt (messageId userId : string) (ms : list Message) : option MessageStatus :=
  m ← List.find (λ m, bool_decide (msg__id m = messageId)
                      && ChatService.has_receiver userId m) ms;
  r ← List.find (λ r, bool_decide (rcv_userId r = userId)) (msg_receivers m);
  Some (rcv_status r).

(** The receipt of a user inside one message document. *)
Definition receipt_in (userId : string) (m : Message) : option MessageStatus :=
  rcv_status <$> List.find (λ r, bool_decide (rcv_userId r = userId)) (msg_receivers m).

(** The third segment of a key, where the unread summary reads the room. *)
Definition key_room (key : string) : option string := Js.split ":" key !! 2.

(** The keys an unread summary of [userId] counts: those its scan returns
    whose value is SENT or DELIVERED. *)
Definition pending (userId : string) (db : gmap string string) : list string :=
  filter (λ k, ChatGateway.is_pending (db !! k) = true) (scan (statusPrefix userId) db).

(** The count a value of [roomUnreadCounts] stands for: a string is no
    count. *)
Definition count_of (v : Js.Value) : nat :=
  match v with
  | Js.Number n => n
  | Js.Text _ => 0
  end.

(** The sum of the counts held by [roomUnreadCounts]. *)
Definition sum_counts (counts : gmap string Js.Value) : nat :=
  map_fold (λ _ v acc, count_of v + acc) 0 counts.

(** How one receiver entry may differ after some updates: same user, and
    a status that either stayed or became one that [P] allows. *)
Definition rcv_upd (P : string → MessageStatus → Prop) (r r' : Receiver) : Prop :=
  rcv_userId r' = rcv_userId r ∧ rcv_is_deleted r' = rcv_is_deleted r
  ∧ (rcv_status r' = rcv_status r ∨ P (rcv_userId r) (rcv_status r')).

Definition msg_upd (P : string → MessageStatus → Prop) (m m' : Message) : Prop :=
  m' = ChatService.set_receivers (msg_receivers m') m
  ∧ Forall2 (rcv_upd P) (msg_receivers m) (msg_receivers m').

Definition msgs_upd (P : string → MessageStatus → Prop) (ms ms' : list Message) : Prop :=
  Forall2 (msg_upd P) ms ms'.

(** The server state once the unread summary of [userId] has counted
    [key]: the entry and the receipt are DELIVERED. *)
Definition promote (userId key : string) (st : State) : State :=
  let st1 := with_redis <[key := status_value DELIVERED]> st in
  match Js.pop (Js.split ":" key) ≫= castObjectId with
  | Some oid =>
      with_writes (λ w, w ++ [(oid, userId, DELIVERED)])
        (with_messages (ChatService.updateOne oid userId DELIVERED) st1)
  | None => st1
  end.

(** [roomUnreadCounts] once [key] has been counted. *)
Definition count_room (counts : gmap string Js.Value) (key : string)
    : gmap string Js.Value :=
  if Js.truthy (key_room key)
  then Js.assign counts (Js.str (key_room key)) (Js.incr counts (Js.str (key_room key)))
  else counts.

(** The message id at the end of a key is one Mongoose can cast. *)
Definition castable (key : string) : Prop :=
  is_Some (Js.pop (Js.split ":" key) ≫= castObjectId).

(** What an unread summary run for [userId] over the keys [K] may have
    changed, whether or not it ran to completion. *)
Definition unread_rel (userId : option string) (K : string → Prop) (st st' : State) : Prop :=
  sockets st' = sockets st ∧ rooms st' = rooms st
  ∧ chatRoomModel st' = chatRoomModel st
  ∧ (∀ k, redisClient st' !! k = redisClient st !! k
          ∨ (K k ∧ ChatGateway.is_pending (redisClient st !! k) = true
             ∧ redisClient st' !! k = Some (status_value DELIVERED)))
  ∧ msgs_upd (λ x s, userId = Some x ∧ s = DELIVERED) (messageModel st) (messageModel st')
  ∧ ∃ ext, writes st' = writes st ++ ext
           ∧ Forall (λ w, userId = Some w.1.2 ∧ w.2 = DELIVERED) ext.

(** ** Concrete runs used as examples *)

Module Scenario.

Import System ChatService.

Definition team : string := "aaaaaaaaaaaaaaaaaaaaaaaa".
Definition other_room : string := "cccccccccccccccccccccccc".
Definition hi : string := "bbbbbbbbbbbbbbbbbbbbbbbb".
Definition hello : string := "dddddddddddddddddddddddd".

Definition team_dto (participantIds : list string) : CreateRoomDto :=
  mkCreateRoomDto (Some "Team") GROUP None true participantIds [].

(** bob creates a group with alice, joins it and sends two messages while
    alice is offline. *)
Definition offline_ops : list Op :=
  [ CreateRoom "bob" (team_dto ["alice"]) team;
    Connect "c_b" (Some "bob");
    JoinRoom "c_b" team;
    SendMessage "c_b" "hi" hi 1;
    SendMessage "c_b" "hello" hello 2 ].

Definition offline : State := run offline_ops initial.

(** alice then connects. *)
Definition alice_back : State := exec (Connect "c_a" (Some "alice")) offline.

(** bob creates a group with alice; both connect and join it. *)
Definition together_ops : list Op :=
  [ CreateRoom "bob" (team_dto ["alice"]) team;
    Connect "c_a" (Some "alice");
    Connect "c_b" (Some "bob");
    JoinRoom "c_a" team;
    JoinRoom "c_b" team ].

Definition together : State := run together_ops initial.

(** bob has created the group and joined it; alice has not connected. *)
Definition alone_ops : list Op :=
  [ CreateRoom "bob" (team_dto ["alice"]) team;
    Connect "c_b" (Some "bob");
    JoinRoom "c_b" team ].

Definition alone : State := run alone_ops initial.

(** eve, who is in no room, connects after bob has sent a message. *)
Definition eve_ops : list Op :=
  [ CreateRoom "bob" (team_dto ["alice"]) team;
    Connect "c_b" (Some "bob");
    JoinRoom "c_b" team;
    SendMessage "c_b" "hi" hi 1;
    Connect "c_e" (Some "eve") ].

Definition eve_connected : State := run eve_ops initial.

(** eve asks to join bob's group and is turned away. *)
Definition eve_rejected : State := exec (JoinRoom "c_e" team) eve_connected.

(** bob creates a group with alice and with an id that extends hers;
    alice and bob join, and bob sends a message. *)
Definition shadow_ops : list Op :=
  [ CreateRoom "bob" (team_dto ["alice"; "alice:x"]) team;
    Connect "c_a" (Some "alice");
    Connect "c_b" (Some "bob");
    JoinRoom "c_a" team;
    JoinRoom "c_b" team;
    SendMessage "c_b" "hi" hi 1 ].

Definition shadow : State := run shadow_ops initial.

End Scenario.

(** A computation keeps a relation between the state it starts in and the
    state it ends in, whether it returns or throws. *)
Definition preserves {A} (R : State → State → Prop) (m : M A) : Prop :=
  ∀ st, R st (m st).1.

(** What the message handlers do to the parts of the state that the
    invariants of the server talk about: sockets and rooms of the database
    stay, presence entries stay, Redis gains at most keys in [N], and
    receipts change only to DELIVERED or SEEN. *)
Definition quiet (N : string → Prop) (st st' : State) : Prop :=
  sockets st' = sockets st
  ∧ chatRoomModel st' = chatRoomModel st
  ∧ (∀ x, redisClient st' !! presenceKey x = redisClient st !! presenceKey x)
  ∧ (∀ k, is_Some (redisClient st' !! k) → is_Some (redisClient st !! k) ∨ N k)
  ∧ msgs_upd (λ _ s, s ≠ SENT) (messageModel st) (messageModel st').

(** The keys a send creates for the message it saves. *)
Definition keys_of_message (messageId : string) (k : string) : Prop :=
  ∃ p r, k = statusKey p r messageId.

(** The receipts of a collection after some requests: the old documents,
    with statuses that stayed or moved to DELIVERED or SEEN, followed by
    new documents. *)
Definition msgs_grow (ms ms' : list Message) : Prop :=
  ∃ ms1 new, msgs_upd (λ _ s, s ≠ SENT) ms ms1 ∧ ms' = ms1 ++ new.

(** ** Invariants of the server *)

(** The attributes stashed on a socket all come from its verified token. *)
Definition socket_ok (s : Socket) : Prop :=
  (∀ u, handshake s = Some u → identity_ok u = true)
  ∧ (∀ u, sock_user s = Some u → handshake s = Some u)
  ∧ (∀ u, sock_userId s = Some u → handshake s = Some u).

Definition sockets_ok (st : State) : Prop :=
  ∀ c s, sockets st !! c = Some s → Js.truthy (Some c) = true ∧ socket_ok s.

(** A presence entry points to a connected socket of that identity. *)
Definition presence_ok (st : State) : Prop :=
  ∀ u c, redisClient st !! presenceKey u = Some c →
         ∃ s, sockets st !! c = Some s ∧ sock_userId s = Some u.

(** Message ids are ObjectIds and no two documents share one. *)
Definition messages_ok (st : State) : Prop :=
  NoDup (msg__id <$> messageModel st)
  ∧ Forall (λ id, is_oid id = true) (msg__id <$> messageModel st).

(** Every status key ends in a message id. *)
Definition keys_ok (st : State) : Prop :=
  ∀ k, is_Some (redisClient st !! k) → String.prefix "messageStatus:" k = true → castable k.

Record invariant (st : State) : Prop := mkInvariant {
  inv_sockets : sockets_ok st;
  inv_presence : presence_ok st;
  inv_messages : messages_ok st;
  inv_keys : keys_ok st;
}.

(** A triple for handlers: from a state in [P], the computation ends in [Q]
    when it returns and in [I] when it throws. *)
Definition hoare {A} (I P : State → Prop) (m : M A) (Q : A → State → Prop) : Prop :=
  ∀ st, P st → match m st with
               | (st', inl _) => I st'
               | (st', inr a) => Q a st'
               end.

(** Only the room collection may differ. *)
Definition rooms_only (st st' : State) : Prop :=
  redisClient st' = redisClient st ∧ sockets st' = sockets st
  ∧ messageModel st' = messageModel st.

(** A step that takes states satisfying the invariants to such states. *)
Definition keeps (st st' : State) : Prop := invariant st → invariant st'.

(** ** Notions for the delivery loop of a send *)

(** A presence entry that points to a connected socket points to a socket
    of that identity. *)
Definition presence_weak (st : State) : Prop :=
  ∀ u c s, redisClient st !! presenceKey u = Some c → sockets st !! c = Some s →
           sock_userId s = Some u.

(** What delivering to the other recipients may do, seen from recipient
    [p] whose entry is [key]: presence and sockets stay, the entry is left
    alone or promoted from SENT or DELIVERED to DELIVERED, and neither the
    receipts of [p] nor the trace get a write for [p]. *)
Definition bystander (p key : string) (st st' : State) : Prop :=
  sockets st' = sockets st ∧ rooms st' = rooms st
  ∧ (∀ y, redisClient st' !! presenceKey y = redisClient st !! presenceKey y)
  ∧ (redisClient st' !! key = redisClient st !! key
     ∨ (ChatGateway.is_pending (redisClient st !! key) = true
        ∧ redisClient st' !! key = Some (status_value DELIVERED)))
  ∧ msgs_upd (λ y _, y ≠ p) (messageModel st) (messageModel st')
  ∧ ∃ ext, writes st' = writes st ++ ext ∧ Forall (λ w, w.1.2 ≠ p) ext.

(** What a whole delivery loop may do when the only status it writes for
    [p] is [S]. *)
Definition delivery_rel (p : string) (S : MessageStatus) (st st' : State) : Prop :=
  sockets st' = sockets st ∧ rooms st' = rooms st
  ∧ (∀ y, redisClient st' !! presenceKey y = redisClient st !! presenceKey y)
  ∧ msgs_upd (λ y s, y ≠ p ∨ s = S) (messageModel st) (messageModel st')
  ∧ ∃ ext, writes st' = writes st ++ ext ∧ Forall (λ w, w.1.2 ≠ p ∨ w.2 = S) ext.

(** The room a room id denotes. *)
Definition room_of (roomId : string) (st : State) : option ChatRoom :=
  oid ← castObjectId roomId;
  List.find (λ room, bool_decide (room__id room = oid)) (chatRoomModel st).

(** The connection of [p] is subscribed to room [r]: its presence entry
    names a connected socket that is in the room. *)
Definition subscribed (p r : string) (st : State) : Prop :=
  ∃ c s, redisClient st !! presenceKey p = Some c ∧ sockets st !! c = Some s
         ∧ c ∈ default ∅ (rooms st !! r).

(** What a sender needs for the send to go through: a current room that
    exists and lists the sender, and a non-empty body. *)
Definition can_send (cid sender r message : string) (room : ChatRoom) (st : State) : Prop :=
  (∃ client, sockets st !! cid = Some client ∧ sock_roomId client = Some r
             ∧ sock_user client = Some sender)
  ∧ room_of r st = Some room
  ∧ sender ∈ p_userId <$> room_participants room
  ∧ Js.truthy (Some message) = true.

(** The message collection only grows, and statuses never become SENT. *)
Definition grows (st st' : State) : Prop :=
  msgs_grow (messageModel st) (messageModel st').

(** The server state once load-messages has marked [m] as seen by
    [userId] in room [roomId]. *)
Definition mark_seen (userId roomId : string) (m : Message) (st : State) : State :=
  with_redis (delete (statusKey userId roomId (msg__id m)))
    (with_writes (λ w, w ++ [(msg__id m, userId, SEEN)])
       (with_messages (ChatService.updateOne (msg__id m) userId SEEN) st)).

(** The kinds of failure the specification distinguishes. *)
Inductive ErrorKind := NotFound | Unauthorized | Conflict | InvalidArgument | Unexpected.

Definition error_kind (e : Exn) : ErrorKind :=
  match e with
  | NotFoundException _ => NotFound
  | UnauthorizedException _ | WsException _ => Unauthorized
  | ConflictException _ => Conflict
  | BadRequestException _ | ValidationError _ => InvalidArgument
  | CastError | TypeError => Unexpected
  end.

(** The socket table is left as it was. *)
Definition same_sockets (st st' : State) : Prop := sockets st' = sockets st.

(** ** Request validation *)

(** The Zod schemas of [shared/schemas/chat.schema.ts], as tests on the
    parsed body.  A string is a sequence of code units, so that
    [String.length] is the [length] Zod compares.  The fields a body may
    carry but no handler reads ([created_by], [updated_by], and
    [participants], which the controller overwrites) are left out. *)
Module Schemas.

Import ChatService.

(** [z.string().min(1)] *)
Definition MessageSchema (s : string) : bool := (1 <=? String.length s)%nat.

(** [z.string().min(2).max(16)] *)
Definition RoomNameSchema (s : string) : bool :=
  (2 <=? String.length s)%nat && (String.length s <=? 16)%nat.

(** [CreateRoomSchema]: the object schema, then the three checks of
    [superRefine].  [url] is the test behind [z.string().url()]. *)
Definition CreateRoomSchema (url : string → bool) (data : CreateRoomDto) : bool :=
  from_option RoomNameSchema true (dto_name data)
  && from_option url true (dto_image data)
  && negb (bool_decide (dto_participantIds data = []))
  && negb (bool_decide (dto_type data = GROUP) && negb (Js.truthy (dto_name data)))
  && negb (bool_decide (dto_type data = SINGLE) && Js.truthy (dto_name data))
  && negb (bool_decide (dto_type data = SINGLE) && Js.truthy (dto_image data)).

Definition JoinRoomSchema (roomId : string) : bool := (1 <=? String.length roomId)%nat.

Definition AddParticipantSchema (data : AddParticipantDto) : bool :=
  (1 <=? String.length (add_roomId data))%nat
  && forallb (λ userId, (1 <=? String.length userId)%nat) (add_userIds data)
  && negb (bool_decide (add_userIds data = [])).

Definition SendMessageSchema (message : string) : bool := MessageSchema message.

End Schemas.

(** ** The HTTP routes: validation pipe, then controller *)

(** A request that passed [CognitoAuthGuard]; [userId] is the [sub] the
    guard put on the request. *)
Module Routes.

Import ChatService.

(** [POST chat/create-room] *)
Definition create_room (url : string → bool) (body : CreateRoomDto) (userId newId : string)
    : M HttpResponse :=
  if Schemas.CreateRoomSchema url body then ChatController.createRoom body userId newId
  else throw (BadRequestException "Validation failed").

(** [POST chat/add-participant] *)
Definition add_participant (body : AddParticipantDto) (userId : string) : M HttpResponse :=
  if Schemas.AddParticipantSchema body then ChatController.handleAddParticipant body userId
  else throw (BadRequestException "Validation failed").

End Routes.

(** ** Notions for the room collection *)

(** The document create-room saves for a body that passes its checks. *)
Definition created_room (dto : ChatService.CreateRoomDto) (userId newId : string) : ChatRoom :=
  ChatService.pre_save
    (mkChatRoom newId (ChatService.dto_name dto) (ChatService.dto_type dto) true
       (ChatService.dto_image dto)
       (((λ userId, mkParticipant userId REQUEST false) <$> ChatService.dto_participantIds dto)
          ++ [mkParticipant userId ACCEPT false])
       [userId] userId userId false).

Definition set_participants (ps : list Participant) (room : ChatRoom) : ChatRoom :=
  mkChatRoom (room__id room) (room_name room) (room_type room) (room_status room)
             (room_image room) ps (room_admins room) (room_created_by room)
             (room_updated_by room) (room_is_deleted room).

(** A SINGLE room that lists both users. *)
Definition single_between (a b : string) (room : ChatRoom) : bool :=
  bool_decide (room_type room = SINGLE)
  && ChatService.has_participant a room && ChatService.has_participant b room.

(** How a room document may differ after some requests: participants were
    appended, to a GROUP room only, each with status REQUEST. *)
Definition room_ext (room room' : ChatRoom) : Prop :=
  ∃ extra, room' = set_participants (room_participants room ++ extra) room
           ∧ (extra = [] ∨ room_type room = GROUP)
           ∧ Forall (λ p, p_status p = REQUEST) extra.

(** The room collection after some requests: the old documents, extended,
    followed by new ones. *)
Definition rooms_grow (rs rs' : list ChatRoom) : Prop :=
  ∃ rs1 new, Forall2 room_ext rs rs1 ∧ rs' = rs1 ++ new.

Definition rooms_grows (st st' : State) : Prop :=
  rooms_grow (chatRoomModel st) (chatRoomModel st').

(** The room collection is left as it was. *)
Definition same_chatRooms (st st' : State) : Prop := chatRoomModel st' = chatRoomModel st.

(** What every room document of the server looks like: the creator is its
    one admin and its one participant with status ACCEPT, everybody else
    is a participant with status REQUEST, and a SINGLE room has the creator
    and one other user. *)
Record room_wf (room : ChatRoom) : Prop := mkRoomWf {
  wf_admins : room_admins room = [room_created_by room];
  wf_creator : mkParticipant (room_created_by room) ACCEPT false ∈ room_participants room;
  wf_others : Forall (λ p, p = mkParticipant (room_created_by room) ACCEPT false
                           ∨ (p_status p = REQUEST ∧ p_userId p ≠ room_created_by room))
                (room_participants room);
  wf_single : room_type room = SINGLE →
              ∃ other, other ≠ room_created_by room
                       ∧ p_userId <$> room_participants room = [other; room_created_by room];
}.

(** Room ids are ObjectIds, no two documents share one, every document is
    well formed, and no two SINGLE rooms list the same two users. *)
Record rooms_ok (st : State) : Prop := mkRoomsOk {
  ok_ids : NoDup (room__id <$> chatRoomModel st);
  ok_oids : Forall (λ id, is_oid id = true) (room__id <$> chatRoomModel st);
  ok_wf : Forall room_wf (chatRoomModel st);
  ok_single : ∀ i j room1 room2 a b,
      chatRoomModel st !! i = Some room1 → chatRoomModel st !! j = Some room2 →
      a ≠ b → single_between a b room1 = true → single_between a b room2 = true → i = j;
}.

(** [messageModel.findById(messageId)] of [ChatService.getMessageById]:
    the document or nothing, never an exception for an id that is
    missing. *)
Definition getMessageById (messageId : string) : M (option Message) :=
  oid ← ChatService.cast messageId;
  gets (λ st, List.find (λ m, bool_decide (msg__id m = oid)) (messageModel st)).


(** ** More concrete runs *)

Module Examples.

Import System ChatService.

(** bob creates a group with alice and joins it; alice is connected but
    has joined no room. *)
Definition apart_ops : list Op :=
  [ CreateRoom "bob" (Scenario.team_dto ["alice"]) Scenario.team;
    Connect "c_a" (Some "alice");
    Connect "c_b" (Some "bob");
    JoinRoom "c_b" Scenario.team ].

Definition apart : State := run apart_ops initial.

End Examples.

(** ** Runs on which the claims are checked *)

Module Runs.

Import System ChatService.

(** bob creates a group with alice and with the id [alice:__proto__];
    alice is connected, bob joins the room and sends a message. *)
Definition proto_ops : list Op :=
  [ CreateRoom "bob" (Scenario.team_dto ["alice"; "alice:__proto__"]) Scenario.team;
    Connect "c_a" (Some "alice");
    Connect "c_b" (Some "bob");
    JoinRoom "c_b" Scenario.team;
    SendMessage "c_b" "hi" Scenario.hi 1 ].

Definition proto : State := run proto_ops initial.

(** The run of [Scenario.shadow] up to its send: bob creates a group with
    alice and with the id [alice:x]; alice and bob connect and join. *)
Definition shadow_joined_ops : list Op :=
  [ CreateRoom "bob" (Scenario.team_dto ["alice"; "alice:x"]) Scenario.team;
    Connect "c_a" (Some "alice");
    Connect "c_b" (Some "bob");
    JoinRoom "c_a" Scenario.team;
    JoinRoom "c_b" Scenario.team ].

Definition shadow_joined : State := run shadow_joined_ops initial.

(** alice and bob were both in the group; alice left the room, and bob
    then sent a message. *)
Definition left_ops : list Op :=
  Scenario.together_ops ++ [LeaveRoom "c_a"; SendMessage "c_b" "hi" Scenario.hi 1].

Definition left : State := run left_ops initial.

(** bob creates a group and lists alice twice; he joins and sends a
    message, and alice then connects. *)
Definition twice_ops : list Op :=
  [ CreateRoom "bob" (Scenario.team_dto ["alice"; "alice"]) Scenario.team;
    Connect "c_b" (Some "bob");
    JoinRoom "c_b" Scenario.team;
    SendMessage "c_b" "hi" Scenario.hi 1;
    Connect "c_a" (Some "alice") ].

Definition twice : State := run twice_ops initial.

End Runs.

(** * Properties *)

(** ** Lemmas about strings and keys *)

Section strings.

Lemma app_cons c s t : String c s +:+ t = String c (s +:+ t).
Proof. reflexivity. Qed.

Lemma app_nil_l t : "" +:+ t = t.
Proof. reflexivity. Qed.

Lemma app_assoc' (a b c : string) : (a +:+ b) +:+ c = a +:+ (b +:+ c).
Proof.
  induction a as [|x a IH]; [reflexivity|].
  by rewrite !app_cons, IH.
Qed.

Lemma app_inj_r (a b c : string) :
  String.length a = String.length b → a +:+ c = b +:+ c → a = b.
Proof.
  revert b. induction a as [|x a IH]; intros [|y b] Hl He; simpl in Hl; try done.
  rewrite !app_cons in He. injection He as -> He. f_equal. apply IH; [lia|done].
Qed.

Lemma length_app (a b : string) :
  String.length (a +:+ b) = String.length a + String.length b.
Proof. induction a as [|x a IH]; [done|]. rewrite app_cons. simpl. by rewrite IH. Qed.

Lemma prefix_app (p s : string) : String.prefix p (p +:+ s) = true.
Proof.
  induction p as [|c p IH]; [by destruct s|].
  rewrite app_cons. simpl. by destruct (Ascii.ascii_dec c c).
Qed.

Lemma prefix_inv (p s : string) :
  String.prefix p s = true → ∃ t, s = p +:+ t.
Proof.
  revert s. induction p as [|c p IH]; intros s H.
  - by exists s.
  - destruct s as [|d s]; [done|]. simpl in H.
    destruct (Ascii.ascii_dec c d) as [->|]; [|done].
    destruct (IH _ H) as [t ->]. by exists t.
Qed.

Lemma split_nonempty sep s : Js.split sep s ≠ [].
Proof.
  destruct s as [|c s]; [done|]. simpl.
  destruct (Ascii.eqb c sep); [done|]. by destruct (Js.split sep s).
Qed.

Lemma split_lacks sep s : lacks sep s = true → Js.split sep s = [s].
Proof.
  induction s as [|c s IH]; [done|]. simpl. intros H.
  apply andb_prop in H as [Hc Hs]. apply negb_true_iff in Hc. rewrite Hc.
  by rewrite (IH Hs).
Qed.

(** Splitting distributes over a separator in the middle. *)
Lemma split_app sep (s1 s2 : string) :
  Js.split sep (s1 +:+ String sep s2) = (Js.split sep s1 ++ Js.split sep s2)%list.
Proof.
  induction s1 as [|c s1 IH].
  - rewrite app_nil_l. simpl. by rewrite Ascii.eqb_refl.
  - rewrite app_cons. simpl. rewrite IH.
    destruct (Ascii.eqb c sep); [done|].
    pose proof (split_nonempty sep s1).
    by destruct (Js.split sep s1).
Qed.

Lemma lacks_app c (a b : string) :
  lacks c (a +:+ b) = lacks c a && lacks c b.
Proof.
  induction a as [|x a IH]; [done|].
  rewrite app_cons. simpl. rewrite IH. by rewrite andb_assoc.
Qed.

Lemma last_app_singleton {A} (l : list A) (x : A) : last (l ++ [x])%list = Some x.
Proof. by rewrite last_snoc. Qed.

Lemma split_last sep (s : string) :
  ∃ seg, last (Js.split sep s) = Some seg ∧ lacks sep seg = true.
Proof.
  induction s as [|c s (seg & Hl & Hs)]; [by exists ""|].
  simpl. destruct (Ascii.eqb c sep) eqn:Hc.
  - exists seg. split; [|done].
    pose proof (split_nonempty sep s). by destruct (Js.split sep s).
  - destruct (Js.split sep s) as [|x [|y l]] eqn:E; [done| |].
    + simpl in Hl. injection Hl as ->. exists (String c seg).
      split; [done|]. simpl. by rewrite Hc, Hs.
    + exists seg. split; [|done]. exact Hl.
Qed.

Lemma last_app_ne {A} (l1 l2 : list A) : l2 ≠ [] → last (l1 ++ l2)%list = last l2.
Proof.
  intros H. destruct l2 as [|x l2 _] using rev_ind; [done|].
  by rewrite app_assoc, !last_snoc.
Qed.

(** The last segment of a key is what follows its last separator. *)
Lemma split_pop_app sep (s m : string) :
  lacks sep m = true →
  Js.pop (Js.split sep (s +:+ String sep m)) = Some m.
Proof.
  intros Hm. unfold Js.pop. rewrite split_app, (split_lacks _ _ Hm).
  apply last_snoc.
Qed.

End strings.

Section keys.

Lemma statusKey_prefix u r m :
  statusKey u r m = statusPrefix u +:+ (r +:+ ":" +:+ m).
Proof. unfold statusKey, statusPrefix. by rewrite !app_assoc'. Qed.

Lemma statusKey_alt u r m :
  statusKey u r m = ("messageStatus:" +:+ u +:+ ":" +:+ r) +:+ String ":" m.
Proof. unfold statusKey. by rewrite !app_assoc'. Qed.

Lemma statusKey_scanned u r m :
  String.prefix (statusPrefix u) (statusKey u r m) = true.
Proof. rewrite statusKey_prefix. apply prefix_app. Qed.

Lemma statusKey_pop u r m :
  no_colon m = true → Js.pop (Js.split ":"%char (statusKey u r m)) = Some m.
Proof. intros H. rewrite statusKey_alt. by apply split_pop_app. Qed.

Lemma statusKey_split u r m :
  no_colon u = true → no_colon r = true → no_colon m = true →
  Js.split ":"%char (statusKey u r m) = ["messageStatus"; u; r; m].
Proof.
  intros Hu Hr Hm. unfold statusKey.
  change ("messageStatus:" +:+ u +:+ ":" +:+ r +:+ ":" +:+ m)
    with ("messageStatus" +:+ String ":" (u +:+ String ":" (r +:+ String ":" m))).
  rewrite !split_app.
  rewrite (split_lacks _ u Hu), (split_lacks _ r Hr), (split_lacks _ m Hm).
  reflexivity.
Qed.

(** Same room and message, equal keys: same user. *)
Lemma statusKey_inj_user u u' r m :
  statusKey u r m = statusKey u' r m → u = u'.
Proof.
  unfold statusKey. intros H. apply String.app_inj in H.
  assert (Hlen := f_equal String.length H).
  rewrite !length_app in Hlen.
  eapply app_inj_r; [|exact H]. lia.
Qed.

Lemma statusKey_inj_message u r m m' :
  statusKey u r m = statusKey u r m' → m = m'.
Proof.
  unfold statusKey. intros H. by repeat apply String.app_inj in H.
Qed.

Lemma statusKey_not_presence u r m x : statusKey u r m ≠ presenceKey x.
Proof. done. Qed.

Lemma statusPrefix_not_presence u x :
  String.prefix (statusPrefix u) (presenceKey x) = false.
Proof. done. Qed.

(** A scan for [u] only meets keys of users that [u] is a colon-free
    prefix of; among colon-free users, only its own. *)
Lemma statusKey_scanned_inv x u r m :
  no_colon x = true → no_colon u = true →
  String.prefix (statusPrefix x) (statusKey u r m) = true → x = u.
Proof.
  intros Hx Hu H. apply prefix_inv in H as [t H].
  unfold statusKey, statusPrefix in H. rewrite !app_assoc' in H.
  apply String.app_inj in H.
  apply (f_equal (Js.split ":"%char)) in H.
  change (u +:+ ":" +:+ r +:+ ":" +:+ m) with (u +:+ String ":" (r +:+ ":" +:+ m)) in H.
  change (x +:+ ":" +:+ t) with (x +:+ String ":" t) in H.
  rewrite !split_app, (split_lacks _ u Hu), (split_lacks _ x Hx) in H.
  simpl in H. by injection H.
Qed.

End keys.


(** ** Running handlers *)

Ltac unfold_M :=
  unfold mbind, M_bind, mret, M_ret, throw, try_catch, gets, modify,
    redis_get, redis_set, redis_del, redis_keys, getClient, setClient,
    client_join, client_leave, forget_socket in *.

Section monad.

Lemma bind_run {A B} (m : M A) (f : A → M B) st :
  (m ≫= f) st = match m st with
                | (st', inl e) => (st', inl e)
                | (st', inr a) => f a st'
                end.
Proof. reflexivity. Qed.

Lemma ret_run {A} (a : A) st : (mret a : M A) st = (st, inr a).
Proof. reflexivity. Qed.

Lemma try_catch_run {A} (m : M A) h st :
  try_catch m h st = match m st with
                     | (st', inl e) => h e st'
                     | (st', inr a) => (st', inr a)
                     end.
Proof. reflexivity. Qed.

Lemma try_catch_bind {A B} (m : M A) (f : A → M B) h st :
  try_catch (m ≫= f) h st
  = match m st with
    | (st', inl e) => h e st'
    | (st', inr a) => try_catch (f a) h st'
    end.
Proof. rewrite try_catch_run, bind_run. by destruct (m st) as [st' [e|a]]. Qed.

Lemma throw_run {A} e st : (throw e : M A) st = (st, inl e).
Proof. reflexivity. Qed.

Lemma gets_run {A} (f : State → A) st : gets f st = (st, inr (f st)).
Proof. reflexivity. Qed.

Lemma modify_run f st : modify f st = (f st, inr tt).
Proof. reflexivity. Qed.

Lemma foldM_cons {A B} (body : B → A → M B) acc x l :
  foldM body acc (x :: l) = body acc x ≫= λ acc', foldM body acc' l.
Proof. reflexivity. Qed.

Lemma forM_cons {A} (body : A → M unit) x l :
  forM_ body (x :: l) = body x ≫= λ _, forM_ body l.
Proof. reflexivity. Qed.

Lemma filter_ext_in {A} (P Q : A → Prop) `{!∀ x, Decision (P x)} `{!∀ x, Decision (Q x)}
    (l : list A) :
  (∀ x, x ∈ l → P x ↔ Q x) → filter P l = filter Q l.
Proof.
  induction l as [|x l IH]; intros Hl; [done|].
  rewrite !filter_cons. rewrite IH by (intros; apply Hl; by right).
  destruct (decide (P x)) as [p|p], (decide (Q x)) as [q|q]; try done.
  - by apply (Hl x) in p; [|left].
  - by apply (Hl x) in q; [|left].
Qed.

Lemma filter_all {A} (P : A → Prop) `{!∀ x, Decision (P x)} (l : list A) :
  Forall P l → filter P l = l.
Proof.
  induction 1 as [|x l Hx _ IH]; [done|]. by rewrite filter_cons_True, IH.
Qed.

Lemma presenceKey_inj u v : presenceKey u = presenceKey v → u = v.
Proof. unfold presenceKey. apply String.app_inj. Qed.

End monad.

(** Runs the next steps of a handler applied to a state. *)
Ltac mstep :=
  repeat (first [ rewrite bind_run | rewrite ret_run | rewrite gets_run
                | rewrite throw_run | rewrite modify_run | rewrite try_catch_run ];
          cbn beta iota).

(** ** C1: unregistering on disconnect *)

Section presence.

Import System.

(** C1, as stated, fails: alice connects as [c1], reconnects as [c2], and
    the disconnect of [c1] removes the entry although it stores [c2];
    presence lookup for alice then finds nothing. *)
Lemma C1_stale_disconnect_clobbers :
  let ops := [Connect "c1" (Some "alice"); Connect "c2" (Some "alice")] in
  let st := run ops initial in
  admissible_run initial (ops ++ [Disconnect "c1"]) = true
  ∧ lookup_presence "alice" st = Some "c2"
  ∧ lookup_presence "alice" (exec (Disconnect "c1") st) = None.
Proof. vm_compute. done. Qed.

(** C1, amended: the disconnect of a connection that carries an identity
    removes that identity's presence entry whatever handle the entry
    stores, so that lookup finds nothing afterwards; the entries of all
    other identities are untouched, and a connection without an identity
    leaves the index as it is. *)
Theorem C1_disconnect_unregisters st cid client :
  sockets st !! cid = Some client →
  let st' := (ChatGateway.disconnect cid st).1 in
  (∀ u, sock_userId client = Some u → Js.truthy (Some u) = true →
     lookup_presence u st' = None
     ∧ ∀ v, v ≠ u → lookup_presence v st' = lookup_presence v st)
  ∧ (Js.truthy (sock_userId client) = false → redisClient st' = redisClient st).
Proof.
  intros Hc. unfold ChatGateway.disconnect, ChatGateway.handleDisconnect, lookup_presence.
  unfold_M. rewrite Hc. cbn beta iota. split.
  - intros u Hu Ht. rewrite Hu, Ht. cbn. split.
    + apply lookup_delete_eq.
    + intros v Hv. apply lookup_delete_ne. intros E. by apply presenceKey_inj in E.
  - intros Hf. by rewrite Hf.
Qed.

Lemma C1_disconnect_unregisters_witness :
  let st := run [Connect "c1" (Some "alice"); Connect "c2" (Some "alice")] initial in
  lookup_presence "alice" (ChatGateway.disconnect "c1" st).1 = None.
Proof.
  intros st.
  assert (Hc : sockets st !! "c1" = Some (mkSocket (Some "alice") (Some "alice") (Some "alice") None))
    by (vm_compute; reflexivity).
  exact (proj1 (proj1 (C1_disconnect_unregisters st "c1" _ Hc) "alice" eq_refl eq_refl)).
Defined.

End presence.

(** ** The key that join-room and leave-room delete *)

Section cleanup.

Import ChatService ChatGateway System.

Lemma statusWildcard_alt u r : statusWildcard u r = statusKey u r "*".
Proof. reflexivity. Qed.

(** The key the cleanup deletes is the key of no message of that user and
    room. *)
Lemma statusKey_not_wildcard u r m : m ≠ "*" → statusKey u r m ≠ statusWildcard u r.
Proof.
  intros Hm E. rewrite statusWildcard_alt in E. by apply statusKey_inj_message in E.
Qed.

(** No key of a state with [keys_ok] is the key the cleanup deletes: its
    last segment is [*], which is no message id. *)
Lemma wildcard_absent st u r : keys_ok st → redisClient st !! statusWildcard u r = None.
Proof.
  intros Hk. destruct (redisClient st !! statusWildcard u r) as [v|] eqn:E; [|done].
  destruct (Hk (statusWildcard u r)) as [oid Hoid]; [by eexists|apply prefix_app|].
  rewrite statusWildcard_alt, statusKey_pop in Hoid by done. done.
Qed.

Lemma redis_del_absent k st : redisClient st !! k = None → (redis_del k st).1 = st.
Proof.
  intros H. unfold redis_del. rewrite modify_run. cbn [fst].
  destruct st as [db ? ? ? ? ?]. unfold with_redis. cbn in *. f_equal. by apply delete_id.
Qed.

End cleanup.

(** ** C8: creating a room that lists its creator *)

Section create_room.

Import ChatService.

(** C8, as stated, fails: a creator who lists their own id gets a Conflict,
    not an InvalidArgument. *)
Lemma C8_self_add_is_conflict :
  let dto := mkCreateRoomDto (Some "Team") GROUP None true ["alice"; "bob"] [] in
  ∃ e, (ChatController.createRoom dto "alice" "aaaaaaaaaaaaaaaaaaaaaaaa" initial).2 = inl e
       ∧ error_kind e = Conflict ∧ error_kind e ≠ InvalidArgument.
Proof. eexists. vm_compute. done. Qed.

(** C8, amended: a create-room request whose [participantIds] contain the
    creator's own id fails with a Conflict error, and no room is created:
    the server state is left as it was. *)
Theorem C8_self_add_rejected dto userId newId st :
  userId ∈ dto_participantIds dto →
  ∃ e, ChatController.createRoom dto userId newId st = (st, inl e)
       ∧ error_kind e = Conflict.
Proof.
  intros Hin. unfold ChatController.createRoom.
  rewrite bool_decide_eq_true_2 by done. by eexists.
Qed.

Lemma C8_self_add_rejected_witness :
  let dto := mkCreateRoomDto None SINGLE None true ["alice"] [] in
  ∃ e, ChatController.createRoom dto "alice" "aaaaaaaaaaaaaaaaaaaaaaaa" initial
       = (initial, inl e) ∧ error_kind e = Conflict.
Proof.
  intros dto.
  apply (C8_self_add_rejected dto "alice" "aaaaaaaaaaaaaaaaaaaaaaaa" initial).
  vm_compute. apply list_elem_of_here.
Defined.

End create_room.

(** ** Receipt updates *)

Section receipts.

Import ChatService.

Lemma rcv_upd_refl P r : rcv_upd P r r.
Proof. unfold rcv_upd. auto. Qed.

Lemma msg_upd_refl P m : msg_upd P m m.
Proof.
  split; [by destruct m|]. apply Forall2_same_length_lookup_2; [done|].
  intros i x y Hx Hy. rewrite Hx in Hy. injection Hy as <-. apply rcv_upd_refl.
Qed.

Lemma msgs_upd_refl P ms : msgs_upd P ms ms.
Proof. induction ms; constructor; auto using msg_upd_refl. Qed.

Lemma rcv_upd_trans P r1 r2 r3 : rcv_upd P r1 r2 → rcv_upd P r2 r3 → rcv_upd P r1 r3.
Proof.
  intros (Hu & Hd & Hs) (Hu' & Hd' & Hs'). repeat split; try congruence.
  destruct Hs' as [Hs'|Hs']; [rewrite Hs'; exact Hs|]. right. by rewrite <- Hu.
Qed.

Lemma msg_upd_trans P m1 m2 m3 : msg_upd P m1 m2 → msg_upd P m2 m3 → msg_upd P m1 m3.
Proof.
  intros [E1 F1] [E2 F2]. split.
  - rewrite E2, E1. by destruct m1.
  - clear E1 E2. revert F2. generalize (msg_receivers m3).
    induction F1; intros l3 F2; inversion F2; subst; constructor;
      eauto using rcv_upd_trans.
Qed.

Lemma msgs_upd_trans P ms1 ms2 ms3 :
  msgs_upd P ms1 ms2 → msgs_upd P ms2 ms3 → msgs_upd P ms1 ms3.
Proof.
  unfold msgs_upd. intros F1. revert ms3.
  induction F1; intros l3 F2; inversion F2; subst; constructor;
    eauto using msg_upd_trans.
Qed.

Lemma rcv_upd_mono (P Q : string → MessageStatus → Prop) r r' :
  (∀ u s, P u s → Q u s) → rcv_upd P r r' → rcv_upd Q r r'.
Proof. intros H (?&?&[?|?]); repeat split; auto. Qed.

Lemma msgs_upd_mono (P Q : string → MessageStatus → Prop) ms ms' :
  (∀ u s, P u s → Q u s) → msgs_upd P ms ms' → msgs_upd Q ms ms'.
Proof.
  intros H F. eapply Forall2_impl; [exact F|].
  intros m m' [E Fr]. split; [done|].
  eapply Forall2_impl; [exact Fr|]. intros. by eapply rcv_upd_mono.
Qed.

Lemma set_first_status_upd u s rs :
  Forall2 (rcv_upd (λ x t, x = u ∧ t = s)) rs (set_first_status u s rs).
Proof.
  induction rs as [|r rs IH]; [constructor|]. simpl.
  destruct (decide (rcv_userId r = u)) as [E|E]; constructor.
  - repeat split; auto.
  - clear. induction rs; constructor; auto using rcv_upd_refl.
  - apply rcv_upd_refl.
  - exact IH.
Qed.

Lemma updateOne_upd oid u s ms :
  msgs_upd (λ x t, x = u ∧ t = s) ms (updateOne oid u s ms).
Proof.
  induction ms as [|m ms IH]; [constructor|]. simpl.
  destruct (bool_decide (msg__id m = oid) && has_receiver u m); constructor.
  - split; [done|]. apply set_first_status_upd.
  - apply msgs_upd_refl.
  - apply msg_upd_refl.
  - exact IH.
Qed.

Lemma msg_upd_id P m m' : msg_upd P m m' → msg__id m' = msg__id m.
Proof. intros [E _]. by rewrite E. Qed.

Lemma msg_upd_room P m m' : msg_upd P m m' → msg_room_id m' = msg_room_id m.
Proof. intros [E _]. by rewrite E. Qed.

Lemma msgs_upd_ids P ms ms' :
  msgs_upd P ms ms' → msg__id <$> ms' = msg__id <$> ms.
Proof.
  induction 1 as [|m m' ms ms' Hm _ IH]; [done|].
  simpl. f_equal; [by eapply msg_upd_id|done].
Qed.

Lemma rcvs_upd_users P rs rs' :
  Forall2 (rcv_upd P) rs rs' → rcv_userId <$> rs' = rcv_userId <$> rs.
Proof.
  induction 1 as [|r r' rs rs' (Hu & _) _ IH]; [done|]. simpl. by f_equal.
Qed.

Lemma msg_upd_has_receiver P u m m' :
  msg_upd P m m' → has_receiver u m' = has_receiver u m.
Proof. intros [_ F]. unfold has_receiver. by rewrite (rcvs_upd_users _ _ _ F). Qed.

(** The first entry of a user before and after. *)
Lemma rcvs_upd_find P u rs rs' :
  Forall2 (rcv_upd P) rs rs' →
  option_Forall2 (rcv_upd P)
    (List.find (λ r, bool_decide (rcv_userId r = u)) rs)
    (List.find (λ r, bool_decide (rcv_userId r = u)) rs').
Proof.
  induction 1 as [|r r' rs rs' Hr _ IH]; [constructor|]. simpl.
  destruct Hr as (Hu & Hr). rewrite Hu.
  destruct (bool_decide (rcv_userId r = u)); [|done].
  constructor. by split.
Qed.

Lemma msgs_upd_find P oid u ms ms' :
  msgs_upd P ms ms' →
  option_Forall2 (msg_upd P)
    (List.find (λ m, bool_decide (msg__id m = oid) && has_receiver u m) ms)
    (List.find (λ m, bool_decide (msg__id m = oid) && has_receiver u m) ms').
Proof.
  induction 1 as [|m m' ms ms' Hm _ IH]; [constructor|]. simpl.
  rewrite (msg_upd_id _ _ _ Hm), (msg_upd_has_receiver _ u _ _ Hm).
  destruct (bool_decide (msg__id m = oid) && has_receiver u m); [|done].
  by constructor.
Qed.

Lemma receipt_in_upd P u m m' s :
  msg_upd P m m' → receipt_in u m = Some s →
  ∃ s', receipt_in u m' = Some s' ∧ (s' = s ∨ P u s').
Proof.
  intros [_ F] H. unfold receipt_in in *.
  pose proof (rcvs_upd_find P u _ _ F) as Hf.
  destruct (List.find _ (msg_receivers m)) as [r|] eqn:E; [|done].
  inversion Hf as [r0 r' (Hu & _ & Hs) E1 E2|]; subst.
  simpl in H. injection H as <-.
  apply find_some in E as [_ Eu]. apply bool_decide_eq_true in Eu.
  exists (rcv_status r'). split; [done|].
  destruct Hs as [->|Hs]; [by left|right]. by rewrite Eu in Hs.
Qed.

Lemma receipt_unfold oid u ms :
  receipt oid u ms
  = List.find (λ m, bool_decide (msg__id m = oid) && has_receiver u m) ms
      ≫= receipt_in u.
Proof.
  unfold receipt, receipt_in.
  destruct (List.find _ ms) as [m|]; [|done]. simpl.
  by destruct (List.find _ (msg_receivers m)).
Qed.

(** A receipt that exists keeps existing, and changes only as [P] allows. *)
Lemma receipt_upd P oid u ms ms' s :
  msgs_upd P ms ms' → receipt oid u ms = Some s →
  ∃ s', receipt oid u ms' = Some s' ∧ (s' = s ∨ P u s').
Proof.
  intros F H. rewrite receipt_unfold in *.
  pose proof (msgs_upd_find P oid u _ _ F) as Hf.
  destruct (List.find _ ms) as [m|] eqn:E; [|done].
  inversion Hf as [m0 m' Hm E1 E2|]; subst. simpl in *.
  by eapply receipt_in_upd.
Qed.

Lemma receipt_upd_None P oid u ms ms' :
  msgs_upd P ms ms' → receipt oid u ms = None → receipt oid u ms' = None.
Proof.
  intros F H. rewrite receipt_unfold in *.
  pose proof (msgs_upd_find P oid u _ _ F) as Hf.
  destruct (List.find _ ms) as [m|] eqn:E.
  - inversion Hf as [m0 m' [_ Hm] E1 E2|]; subst. simpl in *.
    unfold receipt_in in *.
    pose proof (rcvs_upd_find P u _ _ Hm) as Hr.
    destruct (List.find _ (msg_receivers m)); [done|]. by inversion Hr.
  - by inversion Hf.
Qed.

(** [updateOne] sets the receipt it addresses. *)
Lemma set_first_status_find u s rs :
  u ∈ rcv_userId <$> rs →
  rcv_status <$> List.find (λ r, bool_decide (rcv_userId r = u)) (set_first_status u s rs)
  = Some s.
Proof.
  induction rs as [|r rs IH]; simpl; [by intros ?%elem_of_nil|].
  intros Hin. destruct (decide (rcv_userId r = u)) as [E|E]; simpl.
  - by rewrite bool_decide_eq_true_2.
  - rewrite bool_decide_eq_false_2 by done. apply IH.
    apply elem_of_cons in Hin as [Hin|Hin]; [congruence|done].
Qed.

Lemma receipt_updateOne oid u s ms :
  is_Some (receipt oid u ms) → receipt oid u (updateOne oid u s ms) = Some s.
Proof.
  rewrite !receipt_unfold. induction ms as [|m ms IH]; simpl; [by intros [? ?]|].
  destruct (bool_decide (msg__id m = oid) && has_receiver u m) eqn:E; simpl.
  - intros _. apply andb_prop in E as [E1 E2]. rewrite E1.
    assert (has_receiver u (set_receivers (set_first_status u s (msg_receivers m)) m) = true) as ->.
    { unfold has_receiver in *.
      apply bool_decide_eq_true in E2. apply bool_decide_eq_true_2. simpl.
      by rewrite (rcvs_upd_users _ _ _ (set_first_status_upd u s _)). }
    simpl. unfold receipt_in. simpl. apply set_first_status_find.
    by apply bool_decide_eq_true in E2.
  - rewrite E. exact IH.
Qed.

(** Updating the receipt of one user leaves those of the others alone. *)
Lemma receipt_updateOne_other oid oid' u u' s ms :
  u' ≠ u → receipt oid' u' (updateOne oid u s ms) = receipt oid' u' ms.
Proof.
  intros Hne. pose proof (updateOne_upd oid u s ms) as F.
  destruct (receipt oid' u' ms) as [t|] eqn:E.
  - destruct (receipt_upd _ _ _ _ _ _ F E) as (t' & -> & [->|[? _]]); done.
  - by eapply receipt_upd_None.
Qed.

End receipts.

(** ** The unread summary *)

Section unread.

Import ChatService ChatGateway.

Lemma is_pending_spec o :
  is_pending o = true ↔ o = Some "SENT" ∨ o = Some "DELIVERED".
Proof. unfold is_pending. by rewrite bool_decide_eq_true. Qed.

Lemma is_pending_DELIVERED : is_pending (Some (status_value DELIVERED)) = true.
Proof. apply is_pending_spec. by right. Qed.

Lemma unread_rel_refl U K st : unread_rel U K st st.
Proof.
  repeat split; auto using msgs_upd_refl.
  exists []. by rewrite app_nil_r.
Qed.

Lemma unread_rel_trans U K st1 st2 st3 :
  unread_rel U K st1 st2 → unread_rel U K st2 st3 → unread_rel U K st1 st3.
Proof.
  intros (S1 & R1 & C1 & D1 & M1 & e1 & W1 & F1) (S2 & R2 & C2 & D2 & M2 & e2 & W2 & F2).
  repeat split; try congruence.
  - intros k. destruct (D2 k) as [E2|(HK & P2 & E2)], (D1 k) as [E1|(HK1 & P1 & E1)].
    + left. congruence.
    + right. repeat split; auto. congruence.
    + right. repeat split; auto. by rewrite <- E1.
    + right. auto.
  - by eapply msgs_upd_trans.
  - exists (e1 ++ e2). rewrite W2, W1, app_assoc. split; [done|]. by apply Forall_app.
Qed.

Lemma unread_rel_mono U (K K' : string → Prop) st st' :
  (∀ k, K k → K' k) → unread_rel U K st st' → unread_rel U K' st st'.
Proof.
  intros H (S1 & R1 & C1 & D1 & M1 & W1). repeat split; auto.
  intros k. destruct (D1 k) as [E|(HK & P & E)]; auto.
Qed.

Lemma updateMessageStatus_rel (K : string → Prop) messageId U st :
  unread_rel U K st (updateMessageStatus messageId U DELIVERED st).1.
Proof.
  unfold updateMessageStatus, cast. destruct messageId as [id|]; [|apply unread_rel_refl].
  unfold_M. destruct (castObjectId id) as [oid|]; [|apply unread_rel_refl].
  destruct U as [u|]; [|apply unread_rel_refl]. cbn.
  repeat split; auto.
  - eapply msgs_upd_mono; [|apply updateOne_upd]. intros x s [-> ->]. done.
  - eexists. split; [done|]. by repeat constructor.
Qed.

Lemma countUnread_rel U (K : string → Prop) acc key st :
  K key → unread_rel U K st (countUnread U acc key st).1.
Proof.
  intros HK. unfold countUnread. rewrite bind_run. cbn.
  destruct (is_pending (redisClient st !! key)) eqn:E; [|apply unread_rel_refl].
  rewrite bind_run. cbn. rewrite bind_run.
  set (st1 := with_redis <[key:=status_value DELIVERED]> st).
  assert (H1 : unread_rel U K st st1).
  { repeat split; auto using msgs_upd_refl.
    - intros k. cbn. destruct (decide (k = key)) as [->|Hne].
      + right. rewrite lookup_insert_eq. auto.
      + left. by rewrite lookup_insert_ne.
    - exists []. by rewrite app_nil_r. }
  pose proof (updateMessageStatus_rel K (Js.pop (Js.split ":" key)) U st1) as H2.
  change (with_redis <[key:="DELIVERED"]> st) with st1.
  destruct (updateMessageStatus _ U DELIVERED st1) as [st2 [e|[]]]; cbn in *;
    by eapply unread_rel_trans.
Qed.

Lemma foldM_countUnread_rel U (K : string → Prop) l acc st :
  Forall K l → unread_rel U K st (foldM (countUnread U) acc l st).1.
Proof.
  revert acc st. induction l as [|key l IH]; intros acc st HK; [apply unread_rel_refl|].
  inversion HK as [|? ? Hk Hl]; subst. cbn -[countUnread]. rewrite bind_run.
  pose proof (countUnread_rel U K acc key st Hk) as H1.
  destruct (countUnread U acc key st) as [st1 [e|acc1]]; cbn in *; [done|].
  eapply unread_rel_trans; [exact H1|]. by apply IH.
Qed.

Lemma elem_of_scan prefix db k :
  k ∈ scan prefix db ↔ String.prefix prefix k = true ∧ is_Some (db !! k).
Proof.
  unfold scan. rewrite list_elem_of_filter, list_elem_of_fmap. split.
  - intros [Hp [[k' v] [-> Hin%elem_of_map_to_list]]]. eauto.
  - intros [Hp [v Hv]]. split; [done|]. exists (k, v). split; [done|].
    by apply elem_of_map_to_list.
Qed.

Lemma NoDup_scan prefix db : NoDup (scan prefix db).
Proof. apply NoDup_filter, NoDup_fst_map_to_list. Qed.

(** Whatever it answers, an unread summary touches nothing but the entries
    it scans and the receipts of its own user, and it only ever writes
    DELIVERED. *)
Lemma handleUnreadMessages_rel cid st :
  ∃ U, (∀ client, sockets st !! cid = Some client → U = sock_userId client)
  ∧ unread_rel U (λ k, String.prefix (statusPrefix (Js.str U)) k = true) st
      (handleUnreadMessages cid st).1.
Proof.
  unfold handleUnreadMessages. rewrite try_catch_run, bind_run. unfold getClient.
  destruct (sockets st !! cid) as [client|] eqn:Hc; cbn -[foldM].
  - exists (sock_userId client). split; [by intros ? [= ->]|].
    rewrite !bind_run. cbn -[foldM]. rewrite !bind_run.
    pose proof (foldM_countUnread_rel (sock_userId client)
                  (λ k, String.prefix (statusPrefix (Js.str (sock_userId client))) k = true)
                  (scan (statusPrefix (Js.str (sock_userId client))) (redisClient st))
                  (0, ∅) st) as H.
    destruct (foldM _ _ _ st) as [st1 [e|acc1]]; cbn in *; apply H;
      apply Forall_forall; intros k Hk; by apply elem_of_scan in Hk as [? _].
  - exists None. split; [done|]. apply unread_rel_refl.
Qed.

End unread.

(** ** ObjectId strings *)

Section object_ids.

Lemma lower_hex_fixes c : is_lower_hex c = true → lower_hex c = c.
Proof. destruct c as [[] [] [] [] [] [] [] []]; vm_compute; done. Qed.

Lemma lower_hex_is_hex c : is_lower_hex c = true → is_hex c = true.
Proof. unfold is_hex. by intros ->. Qed.

Lemma lower_hex_canonical c : is_hex c = true → is_lower_hex (lower_hex c) = true.
Proof. destruct c as [[] [] [] [] [] [] [] []]; vm_compute; done. Qed.

Lemma lower_hex_not_colon c : is_lower_hex c = true → Ascii.eqb c ":" = false.
Proof. destruct c as [[] [] [] [] [] [] [] []]; vm_compute; done. Qed.

Lemma string_map_length f s : String.length (string_map f s) = String.length s.
Proof. induction s; simpl; congruence. Qed.

Lemma is_oid_cast s : is_oid s = true → castObjectId s = Some s.
Proof.
  unfold is_oid, castObjectId. intros [Hl Hf]%andb_prop. rewrite Hl. simpl.
  assert (string_forall is_hex s = true ∧ string_map lower_hex s = s) as [-> ->]; [|done].
  clear Hl. induction s as [|c s IH]; [done|]. simpl in *.
  apply andb_prop in Hf as [Hc Hs]. destruct (IH Hs) as [-> ->].
  by rewrite (lower_hex_is_hex _ Hc), (lower_hex_fixes _ Hc).
Qed.

Lemma cast_is_oid s oid : castObjectId s = Some oid → is_oid oid = true.
Proof.
  unfold castObjectId, is_oid.
  destruct (String.length s =? 24)%nat eqn:Hl; [|done]. simpl.
  destruct (string_forall is_hex s) eqn:Hf; [|done]. intros [= <-].
  rewrite string_map_length, Hl. simpl. clear Hl.
  induction s as [|c s IH]; [done|]. simpl in *.
  apply andb_prop in Hf as [Hc Hs]. by rewrite (lower_hex_canonical _ Hc), (IH Hs).
Qed.

Lemma is_oid_no_colon s : is_oid s = true → no_colon s = true.
Proof.
  unfold is_oid, no_colon. intros [_ Hf]%andb_prop.
  induction s as [|c s IH]; [done|]. simpl in *.
  apply andb_prop in Hf as [Hc Hs]. by rewrite (lower_hex_not_colon _ Hc), (IH Hs).
Qed.

Lemma hex_not_colon c : is_hex c = true → Ascii.eqb c ":" = false.
Proof. destruct c as [[] [] [] [] [] [] [] []]; vm_compute; done. Qed.

Lemma is_object_id_no_colon s : is_object_id s = true → no_colon s = true.
Proof.
  unfold is_object_id, castObjectId, no_colon.
  destruct (String.length s =? 24)%nat; [|done]. cbn.
  destruct (string_forall is_hex s) eqn:Hf; [|done]. intros _.
  induction s as [|c s IH]; [done|]. cbn in *.
  apply andb_prop in Hf as [Hc Hs]. by rewrite (hex_not_colon _ Hc), (IH Hs).
Qed.

Lemma is_object_id_truthy s : is_object_id s = true → Js.truthy (Some s) = true.
Proof. unfold is_object_id, castObjectId. by destruct s. Qed.

Lemma is_oid_object_id s : is_oid s = true → is_object_id s = true.
Proof. intros H. unfold is_object_id. by rewrite (is_oid_cast _ H). Qed.

Lemma statusKey_castable u r m : is_oid m = true → castable (statusKey u r m).
Proof.
  intros Hm. unfold castable.
  rewrite (statusKey_pop _ _ _ (is_oid_no_colon _ Hm)). simpl.
  rewrite (is_oid_cast _ Hm). by eexists.
Qed.

Lemma statusKey_room u r m :
  no_colon u = true → no_colon r = true → no_colon m = true →
  key_room (statusKey u r m) = Some r.
Proof. intros Hu Hr Hm. unfold key_room. by rewrite statusKey_split. Qed.

End object_ids.

(** ** What an unread summary computes *)

Section unread_counts.

Import ChatService ChatGateway.

Lemma countUnread_skip U acc key st :
  is_pending (redisClient st !! key) = false → countUnread U acc key st = (st, inr acc).
Proof. intros H. unfold countUnread. rewrite bind_run. cbn. by rewrite H. Qed.

Lemma countUnread_pending u acc key st :
  is_pending (redisClient st !! key) = true → castable key →
  countUnread (Some u) acc key st
  = (promote u key st, inr (S acc.1, count_room acc.2 key)).
Proof.
  intros H [oid Hoid]. unfold countUnread, promote. rewrite bind_run. cbn. rewrite H.
  rewrite bind_run. cbn. rewrite bind_run. unfold updateMessageStatus, cast.
  rewrite Hoid.
  destruct (Js.pop (Js.split ":" key)) as [id|]; [|done]. cbn in Hoid.
  rewrite bind_run, Hoid. reflexivity.
Qed.

Lemma promote_redis_ne u key st k :
  k ≠ key → redisClient (promote u key st) !! k = redisClient st !! k.
Proof.
  intros Hne. unfold promote.
  destruct (Js.pop _ ≫= castObjectId); cbn; by rewrite lookup_insert_ne.
Qed.

Lemma promote_redis_eq u key st :
  redisClient (promote u key st) !! key = Some (status_value DELIVERED).
Proof.
  unfold promote. destruct (Js.pop _ ≫= castObjectId); cbn; by rewrite lookup_insert_eq.
Qed.

(** The loop over the scanned keys, when every counted key ends in a
    message id: the counted keys are promoted one after the other. *)
Lemma foldM_countUnread_run u l st acc :
  NoDup l →
  (∀ k, k ∈ l → is_pending (redisClient st !! k) = true → castable k) →
  let counted := filter (λ k, is_pending (redisClient st !! k) = true) l in
  foldM (countUnread (Some u)) acc l st
  = (foldl (λ st k, promote u k st) st counted,
     inr (acc.1 + length counted, foldl count_room acc.2 counted)).
Proof.
  revert st acc. induction l as [|key l IH]; intros st acc Hnd Hc counted.
  { subst counted. cbn. by rewrite Nat.add_0_r, <- surjective_pairing. }
  apply NoDup_cons in Hnd as [Hnotin Hnd]. subst counted.
  rewrite foldM_cons, bind_run.
  destruct (is_pending (redisClient st !! key)) eqn:E.
  - rewrite countUnread_pending; [|done|apply Hc; [left|done]].
    rewrite filter_cons_True by done. cbn -[promote filter].
    assert (Hsame : ∀ k, k ∈ l →
              redisClient (promote u key st) !! k = redisClient st !! k).
    { intros k Hk. apply promote_redis_ne. intros ->. done. }
    rewrite IH; [|done|].
    + cbn -[promote filter].
      rewrite (filter_ext_in _ (λ k, is_pending (redisClient st !! k) = true));
        [|intros k Hk; by rewrite Hsame].
      do 3 f_equal. lia.
    + intros k Hk Hp. rewrite Hsame in Hp by done. apply Hc; [by right|done].
  - rewrite countUnread_skip by done. rewrite filter_cons_False by congruence.
    apply IH; [done|]. intros k Hk. apply Hc. by right.
Qed.

(** An ObjectId string is the name of no property that a plain object
    inherits. *)
Lemma inherited_object_id r :
  is_object_id r = true → Js.inherited r = None ∧ String.eqb r "__proto__" = false.
Proof.
  intros Hr. split.
  - unfold Js.inherited.
    destruct (List.find _ Js.object_prototype) as [p|] eqn:E; [|done].
    apply find_some in E as [Hin Heq]. apply String.eqb_eq in Heq. subst r. exfalso.
    cbn in Hin.
    repeat (destruct Hin as [<-|Hin]; [vm_compute in Hr; discriminate|]). done.
  - destruct (String.eqb r "__proto__") eqn:E; [|done].
    apply String.eqb_eq in E. subst r. vm_compute in Hr. discriminate.
Qed.

Lemma assign_lookup_ne counts r r' v :
  r' ≠ r → Js.assign counts r' v !! r = counts !! r.
Proof.
  intros Hne. unfold Js.assign. destruct (String.eqb r' "__proto__"); [done|].
  by apply lookup_insert_ne.
Qed.



(** *** The sum of the counts *)

Lemma sum_counts_insert (counts : gmap string Js.Value) r v :
  sum_counts (<[r := v]> counts) + count_of (default (Js.Number 0) (counts !! r))
  = count_of v + sum_counts counts.
Proof.
  unfold sum_counts.
  destruct (counts !! r) as [v0|] eqn:E; simpl.
  - rewrite <- (insert_delete_eq counts r v).
    rewrite map_fold_insert_L; [|intros; lia|apply lookup_delete_eq].
    rewrite (map_fold_delete_L _ _ r v0 counts); [lia|intros; lia|done].
  - rewrite map_fold_insert_L; [lia|intros; lia|done].
Qed.

(** Counting a key whose third segment is the id of a room adds one to
    the sum, as long as the table holds numbers only. *)
Lemma sum_counts_count_room counts key r :
  key_room key = Some r → is_object_id r = true →
  map_Forall (λ _ v, ∃ n, v = Js.Number n) counts →
  sum_counts (count_room counts key) = sum_counts counts + 1
  ∧ map_Forall (λ _ v, ∃ n, v = Js.Number n) (count_room counts key).
Proof.
  intros Hk Hr Hnum. destruct (inherited_object_id r Hr) as [Hinh Hproto].
  unfold count_room. rewrite Hk, (is_object_id_truthy _ Hr).
  change (Js.str (Some r)) with r. unfold Js.assign, Js.incr. rewrite Hproto, Hinh.
  pose proof (sum_counts_insert counts r) as Hsum.
  destruct (counts !! r) as [v0|] eqn:E.
  - destruct (Hnum r v0 E) as [n0 ->]. specialize (Hsum (Js.Number (S n0))).
    cbn in Hsum. split; [lia|]. apply map_Forall_insert_2; [by eexists|done].
  - specialize (Hsum (Js.Number 1)). cbn in Hsum. split; [lia|].
    apply map_Forall_insert_2; [by eexists|done].
Qed.

Lemma sum_counts_foldl counts l :
  (∀ k, k ∈ l → ∃ r, key_room k = Some r ∧ is_object_id r = true) →
  map_Forall (λ _ v, ∃ n, v = Js.Number n) counts →
  sum_counts (foldl count_room counts l) = sum_counts counts + length l.
Proof.
  revert counts. induction l as [|k l IH]; intros counts Hl Hnum; [cbn; lia|].
  destruct (Hl k) as (r & Hk & Hr); [by left|].
  destruct (sum_counts_count_room counts k r Hk Hr Hnum) as [Hsum Hnum'].
  cbn. rewrite IH; [lia| |done]. intros k' Hk'. apply Hl. by right.
Qed.

(** The answer of an unread summary whose scanned keys all end in a message
    id. *)
Lemma handleUnreadMessages_run cid client u st :
  sockets st !! cid = Some client → sock_userId client = Some u →
  (∀ k, k ∈ pending u (redisClient st) → castable k) →
  let counted := pending u (redisClient st) in
  handleUnreadMessages cid st
  = (foldl (λ st k, promote u k st) st counted,
     inr (Unread (length counted) (foldl count_room ∅ counted))).
Proof.
  intros Hc Hu Hcast counted. unfold handleUnreadMessages.
  rewrite try_catch_run, bind_run. unfold getClient. rewrite Hc. cbn -[foldM].
  rewrite !bind_run. cbn -[foldM]. rewrite Hu. cbn -[foldM]. rewrite bind_run.
  rewrite foldM_countUnread_run; [done|apply NoDup_scan|].
  intros k Hk Hp. apply Hcast. unfold pending. by apply list_elem_of_filter.
Qed.

End unread_counts.

(** ** The total and the per-room counts *)

Section unread_total.

Import ChatService ChatGateway System.

(** When every key the scan of a user returns has the form
    [messageStatus:<userId>:<roomId>:<messageId>] with the id of a room (an
    ObjectId string) and the id of a message, the unread summary answers
    with a total that is the sum of its per-room counts. *)
Theorem unread_total_is_sum_for_room_ids st cid client u :
  sockets st !! cid = Some client → sock_userId client = Some u →
  no_colon u = true →
  (∀ k, k ∈ scan (statusPrefix u) (redisClient st) →
        ∃ r m, k = statusKey u r m ∧ is_object_id r = true ∧ is_oid m = true) →
  ∃ st' total counts,
    handleUnreadMessages cid st = (st', inr (Unread total counts))
    ∧ total = sum_counts counts.
Proof.
  intros Hc Hu Hnc Hkeys.
  assert (Hin : ∀ k, k ∈ pending u (redisClient st) →
                     k ∈ scan (statusPrefix u) (redisClient st)).
  { intros k Hk. unfold pending in Hk. by apply list_elem_of_filter in Hk as [_ ?]. }
  rewrite (handleUnreadMessages_run cid client u st Hc Hu).
  2:{ intros k Hk. destruct (Hkeys k (Hin k Hk)) as (r & m & -> & _ & Hm).
      by apply statusKey_castable. }
  do 3 eexists. split; [done|].
  rewrite sum_counts_foldl.
  - unfold sum_counts. by rewrite map_fold_empty.
  - intros k Hk. destruct (Hkeys k (Hin k Hk)) as (r & m & -> & Hr & Hm).
    exists r. split; [|done].
    apply statusKey_room; auto using is_oid_no_colon, is_object_id_no_colon.
  - apply map_Forall_empty.
Qed.

Lemma unread_total_is_sum_for_room_ids_witness :
  ∃ st' total counts,
    handleUnreadMessages "c_a" Scenario.alice_back = (st', inr (Unread total counts))
    ∧ total = sum_counts counts.
Proof.
  apply (unread_total_is_sum_for_room_ids Scenario.alice_back "c_a"
           (mkSocket (Some "alice") (Some "alice") (Some "alice") None) "alice").
  - vm_compute. reflexivity.
  - reflexivity.
  - vm_compute. reflexivity.
  - intros k Hk. vm_compute in Hk.
    apply elem_of_cons in Hk as [->|Hk]; [|apply elem_of_cons in Hk as [->|Hk]].
    + exists Scenario.team, Scenario.hi. by vm_compute.
    + exists Scenario.team, Scenario.hello. by vm_compute.
    + by apply elem_of_nil in Hk.
Defined.

(** C10 fails on the code.  bob creates a group with alice and with the id
    [alice:__proto__]; alice is connected, bob joins the room and sends a
    message.  The unread summary of alice scans [messageStatus:alice:*] and
    counts two keys, each built by the gateway in the form
    [messageStatus:<userId>:<roomId>:<messageId>] and each with a non-empty
    third segment: her own, whose third segment is the room, and the key
    of [alice:__proto__], whose third segment is [__proto__].  The
    assignment to [roomUnreadCounts['__proto__']] stores nothing, so the
    answer has a total of 2 and per-room counts that add up to 1. *)
Theorem C10_total_exceeds_sum_of_room_counts :
  let st := Runs.proto in
  let own := statusKey "alice" Scenario.team Scenario.hi in
  let other := statusKey "alice:__proto__" Scenario.team Scenario.hi in
  admissible_run initial (Runs.proto_ops ++ [UnreadMessages "c_a"]) = true
  ∧ pending "alice" (redisClient st) ≡ₚ [own; other]
  ∧ key_room own = Some Scenario.team
  ∧ key_room other = Some "__proto__"
  ∧ (on_unreadMessages "c_a" st).2 = inr (Unread 2 {[ Scenario.team := Js.Number 1 ]})
  ∧ sum_counts {[ Scenario.team := Js.Number 1 ]} = 1.
Proof.
  cbn zeta. split; [vm_compute; reflexivity|]. split.
  { assert (pending "alice" (redisClient Runs.proto)
            = [statusKey "alice:__proto__" Scenario.team Scenario.hi;
               statusKey "alice" Scenario.team Scenario.hi]) as ->
      by (vm_compute; reflexivity).
    apply Permutation_swap. }
  split; [vm_compute; reflexivity|]. split; [vm_compute; reflexivity|].
  split; [vm_compute; reflexivity|]. vm_compute. reflexivity.
Qed.

End unread_total.

(** ** Frames *)

Section frames.

Import ChatService ChatGateway.

Context {R : State → State → Prop} `{!PreOrder R}.

Lemma preserves_ret {A} (a : A) : preserves R (mret a).
Proof. intros st. reflexivity. Qed.

Lemma preserves_throw {A} e : preserves R (throw e : M A).
Proof. intros st. reflexivity. Qed.

Lemma preserves_gets {A} (f : State → A) : preserves R (gets f).
Proof. intros st. reflexivity. Qed.

Lemma preserves_getClient cid : preserves R (getClient cid).
Proof. intros st. unfold getClient. destruct (sockets st !! cid); reflexivity. Qed.

Lemma preserves_modify f : (∀ st, R st (f st)) → preserves R (modify f).
Proof. intros H st. apply H. Qed.

Lemma preserves_bind {A B} (m : M A) (f : A → M B) :
  preserves R m → (∀ a, preserves R (f a)) → preserves R (m ≫= f).
Proof.
  intros Hm Hf st. rewrite bind_run. specialize (Hm st).
  destruct (m st) as [st' [e|a]]; [done|]. cbn in *. etrans; [exact Hm|apply Hf].
Qed.

Lemma preserves_try_catch {A} (m : M A) h :
  preserves R m → (∀ e, preserves R (h e)) → preserves R (try_catch m h).
Proof.
  intros Hm Hh st. rewrite try_catch_run. specialize (Hm st).
  destruct (m st) as [st' [e|a]]; [|done]. cbn in *. etrans; [exact Hm|apply Hh].
Qed.

Lemma preserves_forM {A} (body : A → M unit) l :
  (∀ x, x ∈ l → preserves R (body x)) → preserves R (forM_ body l).
Proof.
  induction l as [|x l IH]; intros H; [apply preserves_ret|].
  rewrite forM_cons. apply preserves_bind; [apply H; by left|].
  intros _. apply IH. intros y Hy. apply H. by right.
Qed.

Lemma preserves_foldM {A B} (body : B → A → M B) acc l :
  (∀ acc x, x ∈ l → preserves R (body acc x)) → preserves R (foldM body acc l).
Proof.
  revert acc. induction l as [|x l IH]; intros acc H; [apply preserves_ret|].
  rewrite foldM_cons. apply preserves_bind; [apply H; by left|].
  intros acc'. apply IH. intros acc'' y Hy. apply H. by right.
Qed.

Lemma preserves_cast id : preserves R (cast id).
Proof.
  unfold cast. destruct (castObjectId id); [apply preserves_ret|apply preserves_throw].
Qed.

Lemma preserves_findById roomId : preserves R (findById roomId).
Proof.
  unfold findById. destruct roomId; [|apply preserves_ret].
  apply preserves_bind; [apply preserves_cast|]. intros ?. apply preserves_gets.
Qed.

Lemma preserves_getRoom roomId : preserves R (getRoom roomId).
Proof.
  unfold getRoom. apply preserves_bind; [apply preserves_findById|].
  intros [?|]; [apply preserves_ret|apply preserves_throw].
Qed.

Lemma preserves_isUserInRoom roomId userId : preserves R (isUserInRoom roomId userId).
Proof.
  unfold isUserInRoom. destruct roomId; [|apply preserves_ret].
  apply preserves_bind; [apply preserves_cast|]. intros ?. apply preserves_gets.
Qed.

Lemma preserves_user_sub client : preserves R (user_sub client).
Proof.
  unfold user_sub. destruct (sock_user client); [apply preserves_ret|apply preserves_throw].
Qed.

Lemma preserves_verifyToken cid : preserves R (ChatAuthGuard.verifyToken cid).
Proof.
  unfold ChatAuthGuard.verifyToken. apply preserves_bind; [apply preserves_getClient|].
  intros client. destruct (handshake client); [apply preserves_ret|apply preserves_throw].
Qed.

End frames.

(** Splits a frame goal along the structure of the handler. *)
Ltac frame_step :=
  lazymatch goal with
  | |- preserves _ (mret _) => apply preserves_ret
  | |- preserves _ (throw _) => apply preserves_throw
  | |- preserves _ (gets _) => apply preserves_gets
  | |- preserves _ (redis_get _) => apply preserves_gets
  | |- preserves _ (redis_keys _) => apply preserves_gets
  | |- preserves _ (getClient _) => apply preserves_getClient
  | |- preserves _ (ChatService.getRoom _) => apply preserves_getRoom
  | |- preserves _ (ChatService.isUserInRoom _ _) => apply preserves_isUserInRoom
  | |- preserves _ (ChatGateway.user_sub _) => apply preserves_user_sub
  | |- preserves _ (ChatAuthGuard.verifyToken _) => apply preserves_verifyToken
  | |- preserves _ (ChatService.cast _) => apply preserves_cast
  | |- preserves _ (mbind _ _) => apply preserves_bind; [|intros ?]
  | |- preserves _ (try_catch _ _) => apply preserves_try_catch; [|intros ?]
  | |- preserves _ (match ?x with _ => _ end) => destruct x
  end.

Ltac frame := repeat frame_step.

Section quiet.

Import ChatService ChatGateway.

#[global] Instance quiet_preorder N : PreOrder (quiet N).
Proof.
  split.
  - intros st. repeat split; auto using msgs_upd_refl.
  - intros st1 st2 st3 (S1 & C1 & P1 & D1 & M1) (S2 & C2 & P2 & D2 & M2).
    split; [congruence|]. split; [congruence|]. split; [|split].
    + intros x. by rewrite P2.
    + intros k Hk. destruct (D2 k Hk) as [H|H]; auto.
    + by eapply msgs_upd_trans.
Qed.

Lemma quiet_mono (N N' : string → Prop) st st' :
  (∀ k, N k → N' k) → quiet N st st' → quiet N' st st'.
Proof.
  intros H (S1 & C1 & P1 & D1 & M1). repeat split; auto.
  intros k Hk. destruct (D1 k Hk); auto.
Qed.

Lemma unread_rel_quiet U K N st st' :
  (∀ x, ¬ K (presenceKey x)) → unread_rel U K st st' → quiet N st st'.
Proof.
  intros HK (S1 & R1 & C1 & D1 & M1 & _). repeat split; auto.
  - intros x. destruct (D1 (presenceKey x)) as [E|(HKx & _)]; [done|]. by apply HK in HKx.
  - intros k Hk. left. destruct (D1 k) as [E|(_ & Hp & _)]; [by rewrite <- E|].
    apply is_pending_spec in Hp as [->| ->]; by eexists.
  - eapply msgs_upd_mono; [|exact M1]. by intros x s [_ ->].
Qed.

Lemma handleUnreadMessages_quiet N cid : preserves (quiet N) (handleUnreadMessages cid).
Proof.
  intros st. destruct (handleUnreadMessages_rel cid st) as (U & _ & H).
  eapply unread_rel_quiet; [|exact H]. intros x Hx. cbn in Hx.
  by rewrite statusPrefix_not_presence in Hx.
Qed.

Lemma quiet_redis_del N key :
  (∀ x, key ≠ presenceKey x) → preserves (quiet N) (redis_del key).
Proof.
  intros Hk. apply preserves_modify. intros st. repeat split; auto using msgs_upd_refl.
  - intros x. cbn. apply lookup_delete_ne. apply Hk.
  - intros k. cbn. rewrite lookup_delete. case_decide; [by intros [? ?]|auto].
Qed.

Lemma quiet_redis_set (N : string → Prop) key value :
  (∀ x, key ≠ presenceKey x) → N key → preserves (quiet N) (redis_set key value).
Proof.
  intros Hk HN. apply preserves_modify. intros st. repeat split; auto using msgs_upd_refl.
  - intros x. cbn. apply lookup_insert_ne. apply Hk.
  - intros k. cbn. rewrite lookup_insert. case_decide; [subst; auto|auto].
Qed.

Lemma quiet_updateMessageStatus N messageId userId status :
  status ≠ SENT → preserves (quiet N) (updateMessageStatus messageId userId status).
Proof.
  intros Hs. unfold updateMessageStatus. destruct messageId; [|apply preserves_ret].
  apply preserves_bind; [apply preserves_cast|]. intros oid.
  destruct userId; [|apply preserves_ret].
  apply preserves_modify. intros st. repeat split; auto.
  cbn. eapply msgs_upd_mono; [|apply updateOne_upd]. by intros x t [_ ->].
Qed.

Lemma handleLoadMessages_quiet N cid : preserves (quiet N) (handleLoadMessages cid).
Proof.
  unfold handleLoadMessages, getMessagesForRoom. frame.
  apply preserves_forM. intros m' _. frame.
  - by apply quiet_updateMessageStatus.
  - apply quiet_redis_del. intros x. apply statusKey_not_presence.
Qed.

Lemma deliver_quiet roomId savedId roomClients participantId :
  preserves (quiet (keys_of_message savedId))
    (deliver roomId savedId roomClients participantId).
Proof.
  assert (Hset : ∀ v, preserves (quiet (keys_of_message savedId))
                        (redis_set (statusKey participantId roomId savedId) v)).
  { intros v. apply quiet_redis_set; [intros x; apply statusKey_not_presence|].
    by exists participantId, roomId. }
  unfold deliver. frame; try apply Hset; try by apply quiet_updateMessageStatus.
  apply handleUnreadMessages_quiet.
Qed.

End quiet.

(** ** Triples *)

Section triples.

Import ChatService ChatGateway.

Context {I : State → Prop}.

Lemma hoare_ret {A} (P : State → Prop) (a : A) (Q : A → State → Prop) :
  (∀ st, P st → Q a st) → hoare I P (mret a) Q.
Proof. intros H st HP. by apply H. Qed.

Lemma hoare_throw {A} (P : State → Prop) e (Q : A → State → Prop) :
  (∀ st, P st → I st) → hoare I P (throw e) Q.
Proof. intros H st HP. by apply H. Qed.

Lemma hoare_bind {A B} (P : State → Prop) (m : M A) (f : A → M B) Q Q' :
  hoare I P m Q → (∀ a, hoare I (Q a) (f a) Q') → hoare I P (m ≫= f) Q'.
Proof.
  intros Hm Hf st HP. rewrite bind_run. specialize (Hm st HP).
  destruct (m st) as [st' [e|a]]; [done|]. by apply Hf.
Qed.

Lemma hoare_try_catch {A} (P : State → Prop) (m : M A) h (Q : A → State → Prop) :
  hoare I P m Q → (∀ e, hoare I I (h e) Q) → hoare I P (try_catch m h) Q.
Proof.
  intros Hm Hh st HP. rewrite try_catch_run. specialize (Hm st HP).
  destruct (m st) as [st' [e|a]]; [|done]. by apply Hh.
Qed.

Lemma hoare_conseq {A} (P P' : State → Prop) (m : M A) (Q Q' : A → State → Prop) :
  hoare I P' m Q' → (∀ st, P st → P' st) → (∀ a st, Q' a st → Q a st) →
  hoare I P m Q.
Proof.
  intros H HP HQ st Hst. specialize (H st (HP st Hst)).
  destruct (m st) as [st' [e|a]]; [done|]. by apply HQ.
Qed.

Lemma hoare_modify (P : State → Prop) f (Q : unit → State → Prop) :
  (∀ st, P st → Q tt (f st)) → hoare I P (modify f) Q.
Proof. intros H st HP. by apply H. Qed.

(** A computation that leaves the state alone. *)
Lemma hoare_pure {A} (P : State → Prop) (m : M A) :
  preserves eq m → (∀ st, P st → I st) →
  hoare I P m (λ a st, P st ∧ (m st).2 = inr a).
Proof.
  intros Hm HI st HP. specialize (Hm st).
  destruct (m st) as [st' [e|a]] eqn:E; cbn in Hm; subst st'.
  - by apply HI.
  - by rewrite E.
Qed.

Lemma hoare_preserves {A} (R : State → State → Prop) (m : M A) :
  preserves R m → (∀ st st', I st → R st st' → I st') →
  hoare I I m (λ _ st, I st).
Proof.
  intros Hm HI st HP. specialize (Hm st).
  destruct (m st) as [st' [e|a]]; cbn in *; eauto.
Qed.

End triples.

(** ** The invariants hold in every reachable state *)

Section invariants.

Import ChatService ChatGateway System.

Lemma invariant_initial : invariant initial.
Proof.
  split.
  - intros c s H. cbn in H. by rewrite lookup_empty in H.
  - intros u c H. cbn in H. by rewrite lookup_empty in H.
  - split; [constructor|constructor].
  - intros k [v H]. cbn in H. by rewrite lookup_empty in H.
Qed.

Lemma invariant_quiet (N : string → Prop) st st' :
  (∀ k, N k → castable k) → invariant st → quiet N st st' → invariant st'.
Proof.
  intros HN [Hs Hp Hm Hk] (S1 & C1 & P1 & D1 & M1). split.
  - intros c s. rewrite S1. apply Hs.
  - intros u c. rewrite P1, S1. apply Hp.
  - unfold messages_ok. by rewrite (msgs_upd_ids _ _ _ M1).
  - intros k Hin Hpre. destruct (D1 k Hin) as [H|H]; auto.
Qed.

Lemma invariant_rooms_only st st' : invariant st → rooms_only st st' → invariant st'.
Proof.
  intros [Hs Hp Hm Hk] (R1 & S1 & M1). split.
  - intros c s. rewrite S1. apply Hs.
  - intros u c. rewrite R1, S1. apply Hp.
  - unfold messages_ok. by rewrite M1.
  - intros k. rewrite R1. apply Hk.
Qed.

(** Setting attributes of a socket from its own token. *)
Lemma invariant_alter f cid st :
  invariant st →
  (∀ s, sockets st !! cid = Some s →
        socket_ok (f s) ∧ ∀ u, sock_userId s = Some u → sock_userId (f s) = Some u) →
  invariant (with_sockets (alter f cid) st).
Proof.
  intros [Hs Hp Hm Hk] Hf. split; [| |done|done].
  - intros c s. cbn. rewrite lookup_alter. case_decide as E; [subst|apply Hs].
    destruct (sockets st !! c) as [s0|] eqn:Hc; [|done]. intros [= <-].
    split; [by apply (Hs _ _ Hc)|by apply Hf].
  - intros u c Hu. cbn in *. destruct (Hp u c Hu) as (s & Hc & Hsu).
    rewrite lookup_alter. case_decide as E; [subst|eauto].
    rewrite Hc. eexists. split; [done|]. by apply Hf.
Qed.

Lemma rooms_only_adapter f st : invariant st → invariant (with_rooms f st).
Proof. intros [Hs Hp Hm Hk]. by split. Qed.

Lemma canActivate_invariant cid :
  hoare invariant invariant (ChatAuthGuard.canActivate cid) (λ _, invariant).
Proof.
  intros st Hinv. unfold ChatAuthGuard.canActivate, ChatAuthGuard.verifyToken.
  rewrite try_catch_run, !bind_run. unfold getClient.
  destruct (sockets st !! cid) as [client|] eqn:Hc; cbn; [|done].
  destruct (handshake client) as [sub|] eqn:Hh; cbn; [|done].
  apply invariant_alter; [done|]. intros s Hs. rewrite Hc in Hs. injection Hs as <-.
  destruct (inv_sockets _ Hinv _ _ Hc) as (_ & H1 & H2 & H3).
  split; [|done]. repeat split; cbn; auto. by intros u [= <-].
Qed.

Lemma guarded_invariant {A} cid (handler : M A) :
  hoare invariant invariant handler (λ _, invariant) →
  hoare invariant invariant (guarded cid handler) (λ _, invariant).
Proof.
  intros H. unfold guarded. eapply hoare_bind; [apply canActivate_invariant|].
  intros ?. exact H.
Qed.

Lemma handleUnreadMessages_invariant cid :
  hoare invariant invariant (handleUnreadMessages cid) (λ _, invariant).
Proof.
  eapply hoare_preserves; [apply (handleUnreadMessages_quiet (λ _, False))|].
  intros st st' Hi Hq. eapply invariant_quiet; [|done|done]. done.
Qed.

Lemma handleLoadMessages_invariant cid :
  hoare invariant invariant (handleLoadMessages cid) (λ _, invariant).
Proof.
  eapply hoare_preserves; [apply (handleLoadMessages_quiet (λ _, False))|].
  intros st st' Hi Hq. eapply invariant_quiet; [|done|done]. done.
Qed.

#[global] Instance keeps_preorder : PreOrder keeps.
Proof.
  split; [intros st Hi; exact Hi|]. intros st1 st2 st3 H1 H2 Hi. exact (H2 (H1 Hi)).
Qed.

#[global] Instance rooms_only_preorder : PreOrder rooms_only.
Proof.
  split; [intros st; by repeat split|].
  intros st1 st2 st3 (R1 & S1 & M1) (R2 & S2 & M2). repeat split; congruence.
Qed.

Lemma keeps_of_quiet {A} (m : M A) :
  preserves (quiet (λ _, False)) m → preserves keeps m.
Proof. intros H st Hi. eapply invariant_quiet; [|done|apply H]. done. Qed.

Lemma keeps_with_rooms f : preserves keeps (modify (with_rooms f)).
Proof. intros st Hi. by apply rooms_only_adapter. Qed.

Lemma keeps_redis_del_status u r m : preserves keeps (redis_del (statusKey u r m)).
Proof. apply keeps_of_quiet, quiet_redis_del. intros x. apply statusKey_not_presence. Qed.

Lemma disconnect_invariant cid :
  hoare invariant invariant (disconnect cid) (λ _, invariant).
Proof.
  intros st Hinv. unfold disconnect, handleDisconnect, forget_socket.
  rewrite !bind_run. unfold getClient.
  destruct (sockets st !! cid) as [client|] eqn:Hc; cbn; [|done].
  rewrite bind_run. cbn.
  destruct Hinv as [Hs Hp Hm Hk].
  assert (Hid : ∀ u, sock_userId client = Some u → Js.truthy (Some u) = true).
  { intros u Hu. destruct (Hs _ _ Hc) as (_ & H1 & _ & H3).
    specialize (H1 u (H3 u Hu)). unfold identity_ok in H1.
    by apply andb_prop in H1 as [[? _]%andb_prop _]. }
  destruct (Js.truthy (sock_userId client)) eqn:Ht; cbn.
  - split; [| |done|].
    + intros c s. cbn. rewrite lookup_delete. case_decide; [done|apply Hs].
    + intros u c. cbn. rewrite lookup_delete. case_decide as E; [done|].
      intros Hu. destruct (Hp u c Hu) as (s & Hsc & Hsu).
      exists s. split; [|done]. rewrite lookup_delete_ne; [done|].
      intros <-. rewrite Hc in Hsc. injection Hsc as <-.
      apply E. by rewrite Hsu.
    + intros k. cbn. rewrite lookup_delete. case_decide; [by intros [? ?]|apply Hk].
  - split; [| |done|done].
    + intros c s. cbn. rewrite lookup_delete. case_decide; [done|apply Hs].
    + intros u c. cbn. intros Hu. destruct (Hp u c Hu) as (s & Hsc & Hsu).
      exists s. split; [|done]. rewrite lookup_delete_ne; [done|].
      intros <-. rewrite Hc in Hsc. injection Hsc as <-.
      rewrite Hsu in Ht. by rewrite (Hid u Hsu) in Ht.
Qed.

Lemma on_connect_invariant cid token :
  hoare invariant (λ st, invariant st ∧ admissible st (Connect cid token) = true)
    (on_connect cid token) (λ _, invariant).
Proof.
  unfold on_connect.
  eapply (hoare_bind _ _ _ (λ _ st, invariant st
            ∧ sockets st !! cid = Some (mkSocket token None None None)
            ∧ ∀ u, token = Some u → identity_ok u = true)).
  { apply hoare_modify. intros st [[Hs Hp Hm Hk] Ha]. cbn in Ha.
    apply andb_prop in Ha as [[Hfresh Hcid]%andb_prop Htok].
    apply negb_true_iff, bool_decide_eq_false in Hfresh.
    assert (Hnone : sockets st !! cid = None).
    { destruct (sockets st !! cid) eqn:E; [|done]. exfalso. apply Hfresh. by eexists. }
    split; [|split].
    - split; [| |done|done].
      + intros c s. cbn. rewrite lookup_insert. case_decide; [|apply Hs].
        intros [= <-]. subst c. repeat split; cbn; try done. by intros u ->.
      + intros u c Hu. cbn in *. destruct (Hp u c Hu) as (s & Hsc & Hsu).
        exists s. split; [|done]. rewrite lookup_insert_ne; [done|]. by intros <-; congruence.
    - cbn. by rewrite lookup_insert_eq.
    - by intros u ->. }
  intros []. unfold handleConnection.
  apply hoare_try_catch; [|intros e; apply disconnect_invariant].
  unfold handleConnection_body.
  eapply (hoare_bind _ _ _ (λ user st, invariant st
            ∧ ∃ client, sockets st !! cid = Some client ∧ handshake client = Some user)).
  { intros st (Hi & Hc & Htok). unfold ChatAuthGuard.verifyToken.
    rewrite bind_run. unfold getClient. rewrite Hc. cbn.
    destruct token as [u|]; cbn; [|done]. eauto. }
  intros user.
  eapply (hoare_bind _ _ _ (λ _ st, invariant st
            ∧ ∃ client, sockets st !! cid = Some client ∧ sock_userId client = Some user)).
  { apply hoare_modify. intros st (Hi & client & Hc & Hh). split.
    - apply invariant_alter; [done|]. intros s Hs. rewrite Hc in Hs. injection Hs as <-.
      destruct (inv_sockets _ Hi _ _ Hc) as (_ & H1 & H2 & H3).
      split; [repeat split; cbn; auto; by intros u [= <-]|].
      intros u Hu. cbn. f_equal. apply H3 in Hu. congruence.
    - cbn. rewrite lookup_alter, decide_True, Hc by done. eauto. }
  intros [].
  eapply (hoare_bind _ _ _ (λ _ st, invariant st)).
  { apply hoare_modify. intros st ([Hs Hp Hm Hk] & client & Hc & Hu). split; [done| |done|].
    - intros u c. cbn. rewrite lookup_insert. case_decide as E.
      + apply presenceKey_inj in E as <-. intros [= <-]. eauto.
      + apply Hp.
    - intros k. cbn. rewrite lookup_insert. case_decide as E; [|apply Hk].
      subst k. intros _ Hpre. done. }
  intros [].
  eapply hoare_bind; [apply handleUnreadMessages_invariant|].
  intros ?. by apply hoare_ret.
Qed.

Lemma hoare_run {A} (P : State → Prop) (m : M A) st :
  hoare invariant P m (λ _, invariant) → P st → invariant (m st).1.
Proof. intros H HP. specialize (H st HP). by destruct (m st) as [st' [e|a]]. Qed.

Lemma keeps_hoare {A} (m : M A) :
  preserves keeps m → hoare invariant invariant m (λ _, invariant).
Proof. intros H. eapply hoare_preserves; [exact H|]. intros st st' Hi Hk. by apply Hk. Qed.

Lemma handleLoadMessages_keeps cid : preserves keeps (handleLoadMessages cid).
Proof. apply keeps_of_quiet, handleLoadMessages_quiet. Qed.

Lemma handleUnreadMessages_keeps cid : preserves keeps (handleUnreadMessages cid).
Proof. apply keeps_of_quiet, handleUnreadMessages_quiet. Qed.

Lemma handleJoinRoom_invariant roomId cid :
  hoare invariant invariant (handleJoinRoom roomId cid) (λ _, invariant).
Proof.
  unfold handleJoinRoom.
  apply hoare_try_catch; [|intros e; destruct e; apply hoare_ret; auto].
  eapply (hoare_bind _ _ _ (λ client st, invariant st ∧ sockets st !! cid = Some client)).
  { intros st Hi. unfold getClient. destruct (sockets st !! cid) eqn:E; cbn; auto. }
  intros client.
  eapply (hoare_bind _ _ _ (λ userId st, invariant st ∧ sockets st !! cid = Some client
                                          ∧ sock_user client = Some userId)).
  { intros st [Hi Hc]. unfold user_sub. destruct (sock_user client) eqn:E; cbn; auto. }
  intros userId.
  eapply (hoare_bind _ _ _ (λ _ st, invariant st)).
  { apply hoare_modify. intros st (Hi & Hc & Hu).
    apply invariant_alter; [done|]. intros s Hs. rewrite Hc in Hs. injection Hs as <-.
    destruct (inv_sockets _ Hi _ _ Hc) as (_ & H1 & H2 & H3).
    split; [repeat split; cbn; auto; by intros u [= <-]; auto|].
    intros u Hu'. cbn. f_equal. apply H3 in Hu'. apply H2 in Hu. congruence. }
  intros []. apply keeps_hoare. frame.
  - apply keeps_with_rooms.
  - apply (keeps_redis_del_status userId roomId "*").
  - apply handleLoadMessages_keeps.
Qed.

Lemma handleLeaveRoom_invariant cid :
  hoare invariant invariant (handleLeaveRoom cid) (λ _, invariant).
Proof.
  unfold handleLeaveRoom. apply keeps_hoare. frame.
  - apply keeps_with_rooms.
  - apply (keeps_redis_del_status _ _ "*").
  - apply handleUnreadMessages_keeps.
Qed.

Lemma saveMessage_state roomId senderId message receiverIds newId now st st' saved :
  saveMessage roomId senderId message receiverIds newId now st = (st', inr saved) →
  msg__id saved = newId
  ∧ st' = with_messages (λ ms, ms ++ [saved]) st
  ∧ msg_room_id saved = roomId
  ∧ msg_receivers saved = (λ userId, mkReceiver userId SENT false) <$> receiverIds.
Proof.
  unfold saveMessage.
  destruct (Js.truthy (Some roomId) && Js.truthy (Some message) && Js.truthy (Some senderId));
    [|done].
  rewrite bind_run. cbn. by intros [= <- <-].
Qed.

Lemma saveMessage_throws roomId senderId message receiverIds newId now st st' e :
  saveMessage roomId senderId message receiverIds newId now st = (st', inl e) → st' = st.
Proof.
  unfold saveMessage.
  destruct (Js.truthy (Some roomId) && Js.truthy (Some message) && Js.truthy (Some senderId));
    [rewrite bind_run; cbn; done|]. by intros [= <-].
Qed.

Lemma forM_deliver_quiet roomId savedId roomClients participants :
  preserves (quiet (keys_of_message savedId))
    (forM_ (deliver roomId savedId roomClients) participants).
Proof. apply preserves_forM. intros p _. apply deliver_quiet. Qed.

Lemma handleSendMessage_invariant message cid newId now :
  hoare invariant
    (λ st, invariant st ∧ is_oid newId = true ∧ newId ∉ msg__id <$> messageModel st)
    (handleSendMessage message cid newId now) (λ _, invariant).
Proof.
  unfold handleSendMessage.
  apply hoare_try_catch; [|intros e; by apply hoare_ret].
  set (P := λ st, invariant st ∧ is_oid newId = true ∧ newId ∉ msg__id <$> messageModel st).
  assert (HPI : ∀ st, P st → invariant st) by (by intros st [? _]).
  eapply hoare_bind; [apply (hoare_pure P), HPI; apply preserves_getClient|].
  intros client. cbn beta.
  destruct (negb (Js.truthy (sock_roomId client))).
  { apply hoare_ret. by intros st [[? _] _]. }
  eapply hoare_bind.
  { apply (hoare_pure (λ st, P st ∧ (getClient cid st).2 = inr client)).
    - apply preserves_user_sub.
    - intros st [HP _]. auto. }
  intros senderId. cbn beta.
  eapply hoare_bind.
  { eapply hoare_conseq; [apply (hoare_pure P (getRoom (sock_roomId client)))| |].
    - apply preserves_getRoom.
    - done.
    - by intros st [[? _] _].
    - intros a st H. exact H. }
  intros room. cbn beta.
  eapply hoare_bind.
  { eapply hoare_conseq;
      [apply (hoare_pure P (isUserInRoom (sock_roomId client) senderId))| |].
    - apply preserves_isUserInRoom.
    - done.
    - by intros st [? _].
    - intros a st H. exact H. }
  intros isAuthorized. cbn beta.
  destruct (negb isAuthorized).
  { apply hoare_ret. by intros st [[? _] _]. }
  eapply (hoare_bind _ _ _ (λ saved st, invariant st ∧ msg__id saved = newId
                                         ∧ is_oid newId = true)).
  { intros st [([Hs Hp [Hnd Hoid] Hk] & Ho & Hfresh) _].
    destruct (saveMessage _ _ _ _ _ _ st) as [st' [e|saved]] eqn:E.
    - apply saveMessage_throws in E as ->. by split.
    - apply saveMessage_state in E as (Hid & -> & _). split; [|done].
      split; [done|done| |done]. unfold messages_ok. cbn. rewrite fmap_app. cbn.
      rewrite Hid. split.
      + apply NoDup_app. split; [done|]. split; [|apply NoDup_singleton].
        intros x Hx ->%list_elem_of_singleton. done.
      + apply Forall_app. split; [done|]. by repeat constructor. }
  intros saved.
  eapply (hoare_bind _ _ _ (λ _ st, invariant st ∧ msg__id saved = newId
                                     ∧ is_oid newId = true)).
  { by intros st H. }
  intros roomClients.
  eapply (hoare_bind _ _ _ (λ _ st, invariant st)); [|intros ?; by apply hoare_ret].
  intros st (Hi & Hid & Ho).
  pose proof (forM_deliver_quiet (Js.str (sock_roomId client)) (msg__id saved) roomClients
                (filter (λ userId, userId ≠ senderId) (p_userId <$> room_participants room)) st)
    as Hq.
  assert (invariant (forM_ (deliver (Js.str (sock_roomId client)) (msg__id saved) roomClients)
            (filter (λ userId, userId ≠ senderId) (p_userId <$> room_participants room)) st).1).
  { eapply invariant_quiet; [|exact Hi|exact Hq].
    intros k (p & r & ->). apply statusKey_castable. by rewrite Hid. }
  by destruct (forM_ _ _ st) as [st' [e|[]]].
Qed.

Lemma canActivate_messages cid st :
  messageModel (ChatAuthGuard.canActivate cid st).1 = messageModel st.
Proof.
  unfold ChatAuthGuard.canActivate, ChatAuthGuard.verifyToken.
  rewrite try_catch_run, !bind_run. unfold getClient.
  destruct (sockets st !! cid) as [client|]; cbn; [|done].
  by destruct (handshake client).
Qed.

Lemma createRoom_rooms_only dto userId newId :
  preserves rooms_only (ChatController.createRoom dto userId newId).
Proof.
  unfold ChatController.createRoom, ChatService.createRoom, save_room, pre_validate.
  assert (Hm : ∀ f, preserves rooms_only (modify (with_chatRooms f))).
  { intros f. apply preserves_modify. by intros st. }
  frame; apply Hm.
Qed.

Lemma addParticipant_rooms_only dto userId :
  preserves rooms_only (ChatController.handleAddParticipant dto userId).
Proof.
  unfold ChatController.handleAddParticipant, addParticipantToRoom.
  frame. intros st. unfold findOneAndUpdate_addToSet.
  by destruct (addToSet_participants _ _ _).
Qed.

(** Every request keeps the invariants. *)
Lemma exec_invariant op st :
  invariant st → admissible st op = true → invariant (exec op st).
Proof.
  intros Hi Ha. destruct op as [cid token|cid|cid roomId|cid|cid message newId now|cid|cid
                               |userId dto newId|userId dto]; cbn [exec].
  - by apply (hoare_run _ _ _ (on_connect_invariant cid token)).
  - by apply (hoare_run _ _ _ (disconnect_invariant cid)).
  - apply (hoare_run invariant); [|done]. apply guarded_invariant.
    destruct (Js.truthy (Some roomId)); [apply handleJoinRoom_invariant|by apply hoare_throw].
  - apply (hoare_run invariant); [|done]. apply guarded_invariant, handleLeaveRoom_invariant.
  - cbn in Ha. apply andb_prop in Ha as [[_ Ho]%andb_prop Hf].
    apply bool_decide_eq_true in Hf.
    unfold on_message, guarded. rewrite bind_run.
    pose proof (hoare_run _ _ _ (canActivate_invariant cid) Hi) as Hi1.
    pose proof (canActivate_messages cid st) as Hm1.
    destruct (ChatAuthGuard.canActivate cid st) as [st1 [e|b]]; [exact Hi1|].
    cbn [fst] in Hi1, Hm1.
    destruct (Js.truthy (Some message)); [|exact Hi1].
    apply (hoare_run _ _ _ (handleSendMessage_invariant message cid newId now)).
    by rewrite Hm1.
  - apply (hoare_run invariant); [|done]. apply guarded_invariant, handleLoadMessages_invariant.
  - apply (hoare_run invariant); [|done].
    apply guarded_invariant, handleUnreadMessages_invariant.
  - eapply invariant_rooms_only; [exact Hi|apply createRoom_rooms_only].
  - eapply invariant_rooms_only; [exact Hi|apply addParticipant_rooms_only].
Qed.

Theorem reachable_invariant st : reachable st → invariant st.
Proof.
  induction 1 as [|st op _ IH Ha]; [apply invariant_initial|by apply exec_invariant].
Qed.

End invariants.

(** ** The delivery loop of a send *)

Section delivery.

Import ChatService ChatGateway.

Lemma redis_get_run key st : redis_get key st = (st, inr (redisClient st !! key)).
Proof. reflexivity. Qed.

Lemma redis_set_run key v st : redis_set key v st = (with_redis <[key := v]> st, inr tt).
Proof. reflexivity. Qed.

Lemma redis_del_run key st : redis_del key st = (with_redis (delete key) st, inr tt).
Proof. reflexivity. Qed.

Lemma updateMessageStatus_run oid u status st :
  castObjectId oid = Some oid →
  updateMessageStatus (Some oid) (Some u) status st
  = (with_writes (λ w, w ++ [(oid, u, status)])
       (with_messages (updateOne oid u status) st), inr tt).
Proof. intros H. unfold updateMessageStatus, cast. rewrite bind_run, H. reflexivity. Qed.

Lemma try_catch_returns {A} (m : M A) (h : Exn → A) st :
  ∃ r, (try_catch m (λ e, mret (h e)) st).2 = inr r.
Proof. rewrite try_catch_run. destruct (m st) as [st' [e|a]]; cbn; eauto. Qed.

Lemma handleUnreadMessages_returns cid st : ∃ r, (handleUnreadMessages cid st).2 = inr r.
Proof. apply try_catch_returns. Qed.

Lemma presence_weak_of_ok st : presence_ok st → presence_weak st.
Proof.
  intros H u c s Hu Hc. destruct (H u c Hu) as (s' & Hc' & Hs). congruence.
Qed.

Lemma bystander_refl p key st : bystander p key st st.
Proof.
  repeat split; auto using msgs_upd_refl. exists []. by rewrite app_nil_r.
Qed.

Lemma bystander_trans p key st1 st2 st3 :
  bystander p key st1 st2 → bystander p key st2 st3 → bystander p key st1 st3.
Proof.
  intros (S1 & R1 & P1 & D1 & M1 & e1 & W1 & F1) (S2 & R2 & P2 & D2 & M2 & e2 & W2 & F2).
  split; [congruence|]. split; [congruence|]. split; [|split; [|split]].
  - intros y. by rewrite P2.
  - destruct D2 as [E2|[Q2 E2]], D1 as [E1|[Q1 E1]].
    + left. congruence.
    + right. split; [done|congruence].
    + right. split; [by rewrite <- E1|done].
    + right. auto.
  - by eapply msgs_upd_trans.
  - exists (e1 ++ e2). rewrite W2, W1, app_assoc. split; [done|]. by apply Forall_app.
Qed.

Lemma presence_weak_bystander p key st st' :
  bystander p key st st' → presence_weak st → presence_weak st'.
Proof. intros (S1 & _ & P1 & _) H u c s. rewrite P1, S1. apply H. Qed.

Section one_message.

Variables (r M : string) (roomClients : option (gset string)).
Hypothesis M_canonical : castObjectId M = Some M.

(** Delivering to somebody else. *)
Lemma deliver_other p x st :
  x ≠ p → presence_weak st →
  (deliver r M roomClients x st).2 = inr tt
  ∧ bystander p (statusKey p r M) st (deliver r M roomClients x st).1.
Proof.
  intros Hne Hpw. unfold deliver. rewrite bind_run, redis_get_run.
  assert (Hkey : statusKey x r M ≠ statusKey p r M).
  { intros E. by apply statusKey_inj_user in E. }
  assert (Hset : ∀ v st0, bystander p (statusKey p r M) st0
                            (with_redis <[statusKey x r M := v]> st0)).
  { intros v st0. repeat split; auto using msgs_upd_refl.
    - intros y. cbn. apply lookup_insert_ne, statusKey_not_presence.
    - left. cbn. by apply lookup_insert_ne.
    - exists []. by rewrite app_nil_r. }
  assert (Hupd : ∀ S st0, bystander p (statusKey p r M) st0
            (with_writes (λ w, w ++ [(M, x, S)]) (with_messages (updateOne M x S) st0))).
  { intros S st0. repeat split; auto.
    - cbn. eapply msgs_upd_mono; [|apply updateOne_upd]. by intros y s [-> _].
    - exists [(M, x, S)]. split; [done|]. by repeat constructor. }
  destruct (Js.truthy (redisClient st !! presenceKey x)) eqn:Ht.
  - rewrite bind_run, gets_run.
    destruct (redisClient st !! presenceKey x) as [c|] eqn:Hx; [|discriminate Ht].
    change (Js.str (Some c)) with c.
    destruct (sockets st !! c) as [s|] eqn:Hc; [|split; [reflexivity|apply bystander_refl]].
    destruct (bool_decide (c ∈ default ∅ roomClients)).
    + rewrite bind_run, redis_set_run, updateMessageStatus_run by done.
      split; [done|]. cbn [fst]. eapply bystander_trans; [apply Hset|apply Hupd].
    + rewrite !bind_run, redis_set_run. cbn beta iota.
      rewrite bind_run, updateMessageStatus_run by done. cbn beta iota.
      rewrite bind_run.
      set (st2 := with_writes _ _).
      assert (H2 : bystander p (statusKey p r M) st st2).
      { eapply bystander_trans; [apply Hset|apply Hupd]. }
      destruct (handleUnreadMessages_rel c st2) as (U & HU & Hrel).
      assert (U = Some x) as ->.
      { rewrite (HU s); [by apply (Hpw x c s)|]. subst st2. cbn. done. }
      destruct (handleUnreadMessages_returns c st2) as [resp Hresp].
      destruct (handleUnreadMessages c st2) as [st3 res]. cbn in Hresp, Hrel. subst res.
      split; [done|]. cbn [fst]. eapply bystander_trans; [exact H2|].
      destruct Hrel as (S3 & R3 & _ & D3 & M3 & ext & W3 & F3).
      repeat split; auto.
      * intros y. destruct (D3 (presenceKey y)) as [E|(Hp & _)]; [done|].
        cbn in Hp. by rewrite statusPrefix_not_presence in Hp.
      * destruct (D3 (statusKey p r M)) as [E|(_ & Hp & E)]; auto.
      * eapply msgs_upd_mono; [|exact M3]. intros y t [[= ->] _]. done.
      * exists ext. split; [done|]. eapply Forall_impl; [exact F3|].
        intros w [[= ->] _]. done.
  - rewrite redis_set_run. split; [done|]. apply Hset.
Qed.

(** Delivering to a recipient who is subscribed to the room. *)
Lemma deliver_subscribed p st :
  subscribed p r st → roomClients = rooms st !! r →
  (∀ c s, sockets st !! c = Some s → Js.truthy (Some c) = true) →
  deliver r M roomClients p st
  = (with_writes (λ w, w ++ [(M, p, SEEN)])
       (with_messages (updateOne M p SEEN)
          (with_redis <[statusKey p r M := status_value SEEN]> st)), inr tt).
Proof.
  intros (c & s & Hp & Hc & Hin) -> Hids. unfold deliver.
  rewrite bind_run, redis_get_run, Hp. cbn beta iota. change (Js.str (Some c)) with c.
  rewrite (Hids _ _ Hc), bind_run, gets_run. cbn beta iota. rewrite Hc.
  rewrite bool_decide_eq_true_2 by done.
  rewrite bind_run, redis_set_run. cbn beta iota.
  by rewrite updateMessageStatus_run.
Qed.


Lemma delivery_rel_refl p S st : delivery_rel p S st st.
Proof.
  repeat split; auto using msgs_upd_refl. exists []. by rewrite app_nil_r.
Qed.

Lemma delivery_rel_trans p S st1 st2 st3 :
  delivery_rel p S st1 st2 → delivery_rel p S st2 st3 → delivery_rel p S st1 st3.
Proof.
  intros (S1 & R1 & P1 & M1 & e1 & W1 & F1) (S2 & R2 & P2 & M2 & e2 & W2 & F2).
  split; [congruence|]. split; [congruence|]. split; [|split].
  - intros y. by rewrite P2.
  - by eapply msgs_upd_trans.
  - exists (e1 ++ e2). rewrite W2, W1, app_assoc. split; [done|]. by apply Forall_app.
Qed.

Lemma bystander_delivery_rel p key S st st' :
  bystander p key st st' → delivery_rel p S st st'.
Proof.
  intros (S1 & R1 & P1 & _ & M1 & ext & W1 & F1). repeat split; auto.
  - eapply msgs_upd_mono; [|exact M1]. intros; by left.
  - exists ext. split; [done|]. eapply Forall_impl; [exact F1|]. intros; by left.
Qed.

Lemma bystander_receipt p key oid st st' :
  bystander p key st st' →
  receipt oid p (messageModel st') = receipt oid p (messageModel st).
Proof.
  intros (_ & _ & _ & _ & M1 & _).
  destruct (receipt oid p (messageModel st)) as [s|] eqn:E.
  - destruct (receipt_upd _ _ _ _ _ _ M1 E) as (s' & -> & [->|?]); done.
  - by eapply receipt_upd_None.
Qed.

Lemma subscribed_stable p st st' :
  sockets st' = sockets st → rooms st' = rooms st →
  (∀ y, redisClient st' !! presenceKey y = redisClient st !! presenceKey y) →
  subscribed p r st → subscribed p r st'.
Proof.
  intros S1 R1 P1 (c & s & Hp & Hc & Hin). exists c, s. by rewrite P1, S1, R1.
Qed.

(** The loop, seen from a recipient who is subscribed to the room: the
    receipt and the entry end up SEEN, and nothing else is ever written
    for that recipient. *)
Lemma deliver_loop_subscribed p ps st :
  presence_weak st →
  (∀ c s, sockets st !! c = Some s → Js.truthy (Some c) = true) →
  subscribed p r st → roomClients = rooms st !! r →
  is_Some (receipt M p (messageModel st)) →
  let res := forM_ (deliver r M roomClients) ps st in
  res.2 = inr tt
  ∧ delivery_rel p SEEN st res.1
  ∧ (p ∈ ps ∨ (receipt M p (messageModel st) = Some SEEN
               ∧ redisClient st !! statusKey p r M = Some (status_value SEEN)) →
     receipt M p (messageModel res.1) = Some SEEN
     ∧ redisClient res.1 !! statusKey p r M = Some (status_value SEEN)).
Proof.
  revert st. induction ps as [|x ps IH]; intros st Hpw Hids Hsub Hrc Hsome res.
  { subst res. cbn. split; [done|]. split; [apply delivery_rel_refl|].
    intros [Hin|H]; [by apply elem_of_nil in Hin|done]. }
  subst res. rewrite forM_cons, bind_run.
  destruct (decide (x = p)) as [->|Hne].
  - rewrite (deliver_subscribed p st Hsub Hrc Hids).
    set (st1 := with_writes _ _).
    assert (Hrel : delivery_rel p SEEN st st1).
    { repeat split; auto.
      - intros y. cbn. apply lookup_insert_ne, statusKey_not_presence.
      - cbn. eapply msgs_upd_mono; [|apply updateOne_upd]. intros y s [_ ->]. by right.
      - exists [(M, p, SEEN)]. split; [done|]. apply Forall_singleton. by right. }
    assert (HQ : receipt M p (messageModel st1) = Some SEEN
                 ∧ redisClient st1 !! statusKey p r M = Some (status_value SEEN)).
    { split; [by apply receipt_updateOne|]. cbn. by rewrite lookup_insert_eq. }
    destruct Hrel as (S1 & R1 & P1 & M1 & W1).
    destruct (IH st1) as (Hres & Hrel' & HQ').
    + intros u c s. rewrite P1, S1. apply Hpw.
    + intros c s. rewrite S1. apply Hids.
    + by apply (subscribed_stable p st).
    + by rewrite R1.
    + rewrite (proj1 HQ). by eexists.
    + split; [done|]. split; [|intros _; apply HQ'; right; exact HQ].
      eapply delivery_rel_trans; [|exact Hrel']. by repeat split.
  - destruct (deliver_other p x st Hne Hpw) as [Hres Hby].
    destruct (deliver r M roomClients x st) as [st1 res1]. cbn in Hres, Hby. subst res1.
    pose proof Hby as (S1 & R1 & P1 & D1 & M1 & W1).
    destruct (IH st1) as (Hres & Hrel' & HQ').
    + by eapply presence_weak_bystander.
    + intros c s. rewrite S1. apply Hids.
    + by apply (subscribed_stable p st).
    + by rewrite R1.
    + by rewrite (bystander_receipt _ _ _ _ _ Hby).
    + split; [done|]. split.
      { eapply delivery_rel_trans; [|exact Hrel']. by eapply bystander_delivery_rel. }
      intros [Hin|[HQ1 HQ2]]; apply HQ'.
      * left. apply elem_of_cons in Hin as [->|Hin]; done.
      * right. rewrite (bystander_receipt _ _ _ _ _ Hby). split; [done|].
        destruct D1 as [->|[Hpend _]]; [done|]. by rewrite HQ2 in Hpend.
Qed.


End one_message.

(** *** The send handler *)

Lemma receipt_in_fresh p receiverIds m :
  msg_receivers m = (λ userId, mkReceiver userId SENT false) <$> receiverIds →
  p ∈ receiverIds → receipt_in p m = Some SENT ∧ has_receiver p m = true.
Proof.
  intros Hm Hin. unfold receipt_in, has_receiver. rewrite Hm. clear Hm. split.
  - induction receiverIds as [|x l IH]; [by apply elem_of_nil in Hin|]. cbn.
    case_bool_decide as E; [done|]. apply IH.
    apply elem_of_cons in Hin as [Hin|Hin]; [by symmetry in Hin|done].
  - apply bool_decide_eq_true_2. rewrite <- list_fmap_compose.
    apply list_elem_of_fmap. by exists p.
Qed.

Lemma receipt_append_fresh ms m p :
  msg__id m ∉ msg__id <$> ms → has_receiver p m = true →
  receipt (msg__id m) p (ms ++ [m]) = receipt_in p m.
Proof.
  intros Hfresh Hp. rewrite receipt_unfold.
  induction ms as [|m0 ms IH]; cbn.
  - by rewrite bool_decide_eq_true_2, Hp.
  - rewrite bool_decide_eq_false_2; [apply IH|].
    + intros Hin. apply Hfresh. by right.
    + intros E. apply Hfresh. rewrite <- E. by left.
Qed.

Lemma room_of_getRoom r room st :
  room_of r st = Some room → getRoom (Some r) st = (st, inr room).
Proof.
  unfold room_of, getRoom, findById, cast. intros H.
  destruct (castObjectId r) as [oid|]; [|done]. cbn in H.
  rewrite !bind_run, ret_run. cbn beta iota. rewrite gets_run. cbn beta iota.
  by rewrite H.
Qed.

Lemma room_of_isUserInRoom r room u st :
  room_of r st = Some room → u ∈ p_userId <$> room_participants room →
  isUserInRoom (Some r) u st = (st, inr true).
Proof.
  unfold room_of, isUserInRoom, cast. intros H Hu.
  destruct (castObjectId r) as [oid|]; [|done]. cbn in H.
  rewrite bind_run, ret_run. cbn beta iota. rewrite gets_run.
  match goal with |- context [List.find ?f (chatRoomModel st)] =>
    destruct (List.find f (chatRoomModel st)) eqn:E end; [reflexivity|].
  apply find_some in H as [Hin Hid].
  apply (find_none _ _ E) in Hin. unfold has_participant in Hin.
  rewrite Hid, bool_decide_eq_true_2 in Hin; done.
Qed.

Lemma room_of_truthy r room st : room_of r st = Some room → Js.truthy (Some r) = true.
Proof.
  unfold room_of, castObjectId. destruct r; [done|done].
Qed.

(** A send that is allowed runs the delivery loop on the state in which
    the message has been saved. *)
Lemma handleSendMessage_run cid sender r message room newId now st :
  can_send cid sender r message room st → Js.truthy (Some sender) = true →
  let participants := filter (λ u, u ≠ sender) (p_userId <$> room_participants room) in
  let saved := mkMessage newId r message sender
                 ((λ u, mkReceiver u SENT false) <$> participants)
                 true now sender sender false in
  let res := forM_ (deliver r newId (rooms st !! r)) participants
               (with_messages (λ ms, ms ++ [saved]) st) in
  res.2 = inr tt →
  handleSendMessage message cid newId now st = (res.1, inr Sent).
Proof.
  intros ((client & Hc & Hr & Hu) & Hroom & Hin & Hmsg) Hsender participants saved res Hres.
  unfold handleSendMessage. rewrite try_catch_run, bind_run.
  unfold getClient. rewrite Hc. cbn beta iota. rewrite Hr.
  rewrite (room_of_truthy _ _ _ Hroom). cbn [negb].
  rewrite bind_run. unfold user_sub. rewrite Hu. mstep.
  rewrite (room_of_getRoom _ _ _ Hroom). mstep.
  rewrite (room_of_isUserInRoom _ _ _ _ Hroom Hin). mstep. cbn [negb].
  change (Js.str (Some r)) with r. unfold saveMessage.
  rewrite (room_of_truthy _ _ _ Hroom), Hmsg, Hsender. cbn [andb]. mstep.
  fold participants. fold saved. cbn [msg__id saved].
  change (rooms (with_messages (λ ms, ms ++ [saved]) st)) with (rooms st).
  change (forM_ (deliver r newId (rooms st !! r)) participants
            (with_messages (λ ms, ms ++ [saved]) st)) with res.
  destruct res as [st' [e|[]]]; [done|]. reflexivity.
Qed.

End delivery.

(** ** C5 and C2: a recipient who is in the room at send time *)

Section subscribed_recipient.

Import ChatService ChatGateway System.

Lemma reachable_run ops st :
  reachable st → admissible_run st ops = true → reachable (run ops st).
Proof.
  revert st. induction ops as [|op ops IH]; intros st Hr Ha; [done|].
  cbn in Ha. apply andb_prop in Ha as [Ha1 Ha2].
  cbn. apply IH; [|done]. by constructor.
Qed.

Lemma can_send_sender_truthy cid sender r message room st :
  invariant st → can_send cid sender r message room st → Js.truthy (Some sender) = true.
Proof.
  intros Hi ((client & Hc & _ & Hu) & _).
  destruct (inv_sockets _ Hi _ _ Hc) as (_ & H1 & H2 & _).
  specialize (H1 _ (H2 _ Hu)). unfold identity_ok in H1.
  by apply andb_prop in H1 as [[? _]%andb_prop _].
Qed.

(** What the send does for a recipient who is subscribed to the room. *)
Lemma send_to_subscribed st cid sender r message room p newId now :
  reachable st → can_send cid sender r message room st →
  is_oid newId = true → newId ∉ msg__id <$> messageModel st →
  p ∈ p_userId <$> room_participants room → p ≠ sender →
  subscribed p r st →
  ∃ st' ext,
    handleSendMessage message cid newId now st = (st', inr Sent)
    ∧ receipt newId p (messageModel st') = Some SEEN
    ∧ redisClient st' !! statusKey p r newId = Some (status_value SEEN)
    ∧ writes st' = writes st ++ ext
    ∧ Forall (λ w, w.1.2 ≠ p ∨ w.2 = SEEN) ext.
Proof.
  intros Hreach Hsend Hoid Hfresh Hp Hne Hsub.
  pose proof (reachable_invariant _ Hreach) as Hi.
  pose proof (can_send_sender_truthy _ _ _ _ _ _ Hi Hsend) as Hsender.
  set (participants := filter (λ u, u ≠ sender) (p_userId <$> room_participants room)).
  set (saved := mkMessage newId r message sender
                  ((λ u, mkReceiver u SENT false) <$> participants)
                  true now sender sender false).
  set (st1 := with_messages (λ ms, ms ++ [saved]) st).
  assert (Hpin : p ∈ participants).
  { subst participants. by apply list_elem_of_filter. }
  destruct (receipt_in_fresh p participants saved eq_refl Hpin) as [Hrin Hhas].
  assert (Hrc : receipt newId p (messageModel st1) = Some SENT).
  { subst st1. cbn. rewrite <- Hrin. by apply (receipt_append_fresh _ saved). }
  destruct (deliver_loop_subscribed r newId (rooms st !! r) (is_oid_cast _ Hoid)
              p participants st1) as (Hres & Hrel & HQ).
  - apply presence_weak_of_ok. apply (inv_presence _ Hi).
  - intros c s Hc. by apply (inv_sockets _ Hi c s).
  - exact Hsub.
  - done.
  - rewrite Hrc. by eexists.
  - destruct (HQ (or_introl Hpin)) as [HQ1 HQ2].
    destruct Hrel as (_ & _ & _ & _ & ext & Hw & Hext).
    exists (forM_ (deliver r newId (rooms st !! r)) participants st1).1, ext.
    split; [by apply handleSendMessage_run|]. done.
Qed.


Lemma together_reachable : reachable Scenario.together.
Proof. apply reachable_run; [constructor|]. vm_compute. reflexivity. Qed.

Lemma together_can_send :
  ∃ room, can_send "c_b" "bob" Scenario.team "hi" room Scenario.together
          ∧ "alice" ∈ p_userId <$> room_participants room.
Proof.
  eexists. split; [split; [|split; [|split]]|].
  - eexists. split; [vm_compute; reflexivity|]. split; reflexivity.
  - vm_compute. reflexivity.
  - cbn. apply list_elem_of_further, list_elem_of_here.
  - reflexivity.
  - cbn. apply list_elem_of_here.
Defined.

Lemma together_alice_subscribed : subscribed "alice" Scenario.team Scenario.together.
Proof.
  exists "c_a", (mkSocket (Some "alice") (Some "alice") (Some "alice") (Some Scenario.team)).
  split; [vm_compute; reflexivity|]. split; [vm_compute; reflexivity|].
  apply (bool_decide_unpack _). vm_compute. exact I.
Defined.

Lemma hi_fresh st : messageModel st = [] → Scenario.hi ∉ msg__id <$> messageModel st.
Proof. intros ->. apply not_elem_of_nil. Qed.


(** C2, as stated, fails: alice is subscribed to the room when bob sends,
    and the send creates an index entry for her, with value SEEN, although
    her receipt is SEEN. *)
Lemma C2_send_creates_entry_for_subscribed :
  let st' := exec (SendMessage "c_b" "hi" Scenario.hi 1) Scenario.together in
  admissible_run initial
    (Scenario.together_ops ++ [SendMessage "c_b" "hi" Scenario.hi 1]) = true
  ∧ subscribed "alice" Scenario.team Scenario.together
  ∧ redisClient Scenario.together !! statusKey "alice" Scenario.team Scenario.hi = None
  ∧ redisClient st' !! statusKey "alice" Scenario.team Scenario.hi = Some "SEEN"
  ∧ receipt Scenario.hi "alice" (messageModel st') = Some SEEN.
Proof.
  split; [vm_compute; reflexivity|]. split; [exact together_alice_subscribed|].
  vm_compute. done.
Qed.

(** C2, amended: the send writes an index entry also for a recipient who
    is subscribed to the target room at send time; that entry holds SEEN,
    as the durable receipt does, so an entry can exist for a receipt that
    is SEEN.  The unread summary leaves such an entry out: it is not among
    the keys any summary counts, and a summary run by any connection
    leaves it as it is. *)
Theorem C2_subscribed_recipient_entry_is_SEEN st cid sender r message room p newId now :
  reachable st → can_send cid sender r message room st →
  is_oid newId = true → newId ∉ msg__id <$> messageModel st →
  p ∈ p_userId <$> room_participants room → p ≠ sender →
  subscribed p r st →
  ∃ st',
    handleSendMessage message cid newId now st = (st', inr Sent)
    ∧ redisClient st' !! statusKey p r newId = Some (status_value SEEN)
    ∧ receipt newId p (messageModel st') = Some SEEN
    ∧ (∀ u, statusKey p r newId ∉ pending u (redisClient st'))
    ∧ (∀ cid', redisClient (handleUnreadMessages cid' st').1 !! statusKey p r newId
               = Some (status_value SEEN)).
Proof.
  intros Hreach Hsend Hoid Hfresh Hp Hne Hsub.
  destruct (send_to_subscribed _ _ _ _ _ _ _ _ now Hreach Hsend Hoid Hfresh Hp Hne Hsub)
    as (st' & ext & Hrun & Hrc & Hkey & _).
  exists st'. repeat split; try done.
  - intros u Hin. unfold pending in Hin. apply list_elem_of_filter in Hin as [Hpend _].
    by rewrite Hkey in Hpend.
  - intros cid'. destruct (handleUnreadMessages_rel cid' st') as (U & _ & Hrel).
    destruct Hrel as (_ & _ & _ & D & _).
    destruct (D (statusKey p r newId)) as [->|(_ & Hpend & _)]; [done|].
    by rewrite Hkey in Hpend.
Qed.

Lemma C2_subscribed_recipient_entry_is_SEEN_witness :
  ∃ st',
    handleSendMessage "hi" "c_b" Scenario.hi 1 Scenario.together = (st', inr Sent)
    ∧ redisClient st' !! statusKey "alice" Scenario.team Scenario.hi = Some "SEEN"
    ∧ receipt Scenario.hi "alice" (messageModel st') = Some SEEN
    ∧ (∀ u, statusKey "alice" Scenario.team Scenario.hi ∉ pending u (redisClient st'))
    ∧ (∀ cid', redisClient (handleUnreadMessages cid' st').1
                 !! statusKey "alice" Scenario.team Scenario.hi = Some "SEEN").
Proof.
  destruct together_can_send as (room & Hsend & Hp).
  apply (C2_subscribed_recipient_entry_is_SEEN Scenario.together "c_b" "bob"
           Scenario.team "hi" room "alice" Scenario.hi 1).
  - exact together_reachable.
  - exact Hsend.
  - reflexivity.
  - apply hi_fresh. reflexivity.
  - exact Hp.
  - discriminate.
  - exact together_alice_subscribed.
Defined.

(** C5 fails on the code.  bob creates a group with alice and with the id
    [alice:x]; alice and bob join, so alice is subscribed to the room, and
    bob sends a message.  The send sets the receipt of alice to SEEN and
    writes nothing else for her.  alice then asks for her unread summary:
    the scan of [messageStatus:alice:*] returns the key of [alice:x],
    whose value is SENT, and the summary sets the receipt of alice for
    that message to DELIVERED. *)
Theorem C5_subscribed_pair_is_later_set_to_DELIVERED :
  let send := SendMessage "c_b" "hi" Scenario.hi 1 in
  let st0 := Runs.shadow_joined in
  let st1 := exec send st0 in
  let st2 := exec (UnreadMessages "c_a") st1 in
  admissible_run initial (Runs.shadow_joined_ops ++ [send; UnreadMessages "c_a"]) = true
  ∧ subscribed "alice" Scenario.team st0
  ∧ (on_message "hi" "c_b" Scenario.hi 1 st0).2 = inr Sent
  ∧ receipt Scenario.hi "alice" (messageModel st1) = Some SEEN
  ∧ writes st1 = [(Scenario.hi, "alice", SEEN)]
  ∧ writes st2 = [(Scenario.hi, "alice", SEEN); (Scenario.hi, "alice", DELIVERED)]
  ∧ receipt Scenario.hi "alice" (messageModel st2) = Some DELIVERED.
Proof.
  cbn zeta. split; [vm_compute; reflexivity|]. split.
  { exists "c_a", (mkSocket (Some "alice") (Some "alice") (Some "alice") (Some Scenario.team)).
    split; [vm_compute; reflexivity|]. split; [vm_compute; reflexivity|].
    apply (bool_decide_unpack _). vm_compute. exact I. }
  repeat (split; [vm_compute; reflexivity|]). vm_compute. reflexivity.
Qed.

End subscribed_recipient.

(** ** No request ever writes SENT over a receipt *)

Section never_sent.

Import ChatService ChatGateway System.

Lemma msgs_grow_refl ms : msgs_grow ms ms.
Proof. exists ms, []. split; [apply msgs_upd_refl|by rewrite app_nil_r]. Qed.

Lemma msgs_upd_app_inv P ms1 new ms' :
  msgs_upd P (ms1 ++ new) ms' →
  ∃ ms1' new', ms' = ms1' ++ new' ∧ msgs_upd P ms1 ms1'.
Proof.
  intros H. apply Forall2_app_inv_l in H as (l1 & l2 & H1 & H2 & ->). eauto.
Qed.

Lemma msgs_grow_trans ms1 ms2 ms3 :
  msgs_grow ms1 ms2 → msgs_grow ms2 ms3 → msgs_grow ms1 ms3.
Proof.
  intros (a & new & Ha & ->) (b & new' & Hb & ->).
  apply msgs_upd_app_inv in Hb as (a' & new'' & -> & Hb).
  exists a', (new'' ++ new'). split; [by eapply msgs_upd_trans|by rewrite app_assoc].
Qed.

#[global] Instance grows_preorder : PreOrder grows.
Proof.
  split; [intros st; apply msgs_grow_refl|].
  intros st1 st2 st3. apply msgs_grow_trans.
Qed.












End never_sent.

(** ** C7: what the unread summary counts and promotes *)

Section unread_summary.

Import ChatService ChatGateway System.



Lemma promote_all_redis_notin u l st k :
  k ∉ l → redisClient (foldl (λ st k, promote u k st) st l) !! k = redisClient st !! k.
Proof.
  revert st. induction l as [|x l IH]; intros st Hk; [done|].
  cbn -[promote]. rewrite IH by (intros ?; apply Hk; by right).
  apply promote_redis_ne. intros ->. apply Hk. by left.
Qed.

Lemma promote_all_redis_in u l st k :
  k ∈ l →
  redisClient (foldl (λ st k, promote u k st) st l) !! k = Some (status_value DELIVERED).
Proof.
  revert st. induction l as [|x l IH]; intros st Hk; [by apply elem_of_nil in Hk|].
  cbn -[promote]. destruct (decide (k ∈ l)) as [Hin|Hnotin]; [by apply IH|].
  apply elem_of_cons in Hk as [->|Hk]; [|done].
  rewrite promote_all_redis_notin by done. apply promote_redis_eq.
Qed.



Lemma statusPrefix_is_status u k :
  String.prefix (statusPrefix u) k = true → String.prefix "messageStatus:" k = true.
Proof.
  intros [t ->]%prefix_inv. unfold statusPrefix. rewrite !app_assoc'. apply prefix_app.
Qed.

Lemma pending_castable u st k : keys_ok st → k ∈ pending u (redisClient st) → castable k.
Proof.
  intros Hk Hin. unfold pending in Hin. apply list_elem_of_filter in Hin as [_ Hin].
  apply elem_of_scan in Hin as [Hpre Hsome].
  apply Hk; [done|]. by eapply statusPrefix_is_status.
Qed.

Lemma elem_of_pending u db k :
  k ∈ pending u db
  ↔ String.prefix (statusPrefix u) k = true ∧ is_pending (db !! k) = true.
Proof.
  unfold pending. rewrite list_elem_of_filter, elem_of_scan. split.
  - intros [? [? ?]]. done.
  - intros [? Hp]. split; [done|]. split; [done|].
    apply is_pending_spec in Hp as [->| ->]; by eexists.
Qed.



Lemma alice_back_reachable : reachable Scenario.alice_back.
Proof.
  change Scenario.alice_back
    with (run (Scenario.offline_ops ++ [Connect "c_a" (Some "alice")]) initial).
  apply reachable_run; [constructor|]. vm_compute. reflexivity.
Qed.

Lemma alone_reachable : reachable Scenario.alone.
Proof. apply reachable_run; [constructor|]. vm_compute. reflexivity. Qed.



End unread_summary.

(** ** C9: load-messages *)

Section load_messages.

Import ChatService ChatGateway System.

#[global] Instance createdAt_le_total : Total createdAt_le.
Proof. intros a b. unfold createdAt_le. lia. Qed.

Lemma load_loop_run u r l st :
  Forall (λ m, is_oid (msg__id m) = true) l →
  forM_ (λ message,
           updateMessageStatus (Some (msg__id message)) (Some u) SEEN ;;
           redis_del (statusKey u r (msg__id message)))
        l st
  = (foldl (λ st m, mark_seen u r m st) st l, inr tt).
Proof.
  intros Hl. revert st. induction Hl as [|m l Hm _ IH]; intros st; [done|].
  rewrite forM_cons, bind_run, bind_run.
  rewrite (updateMessageStatus_run _ _ _ _ (is_oid_cast _ Hm)). cbn beta iota.
  rewrite redis_del_run. cbn beta iota. by rewrite IH.
Qed.

Lemma mark_seen_upd u r m st :
  msgs_upd (λ x s, x = u ∧ s = SEEN) (messageModel st) (messageModel (mark_seen u r m st)).
Proof. cbn. apply updateOne_upd. Qed.

Lemma mark_all_upd u r l st :
  msgs_upd (λ x s, x = u ∧ s = SEEN) (messageModel st)
    (messageModel (foldl (λ st m, mark_seen u r m st) st l)).
Proof.
  revert st. induction l as [|m l IH]; intros st; [apply msgs_upd_refl|].
  cbn -[mark_seen]. eapply msgs_upd_trans; [apply mark_seen_upd|apply IH].
Qed.

Lemma mark_all_receipt u r l st m :
  m ∈ l → is_Some (receipt (msg__id m) u (messageModel st)) →
  receipt (msg__id m) u (messageModel (foldl (λ st m, mark_seen u r m st) st l))
  = Some SEEN.
Proof.
  revert st. induction l as [|x l IH]; intros st Hin Hsome;
    [by apply elem_of_nil in Hin|].
  cbn -[mark_seen]. apply elem_of_cons in Hin as [->|Hin].
  - assert (H : receipt (msg__id x) u (messageModel (mark_seen u r x st)) = Some SEEN).
    { cbn. by apply receipt_updateOne. }
    destruct (receipt_upd _ _ _ _ _ _ (mark_all_upd u r l (mark_seen u r x st)) H)
      as (s' & -> & [->|[_ ->]]); done.
  - apply IH; [done|]. destruct Hsome as [s Hs].
    destruct (receipt_upd _ _ _ _ _ _ (mark_seen_upd u r x st) Hs) as (s' & -> & _).
    by eexists.
Qed.

(** With unique ids, the receipt found through the collection is the one
    inside the document. *)
Lemma receipt_unique u m ms :
  NoDup (msg__id <$> ms) → m ∈ ms → has_receiver u m = true →
  receipt (msg__id m) u ms = receipt_in u m.
Proof.
  intros Hnd Hin Hhas. rewrite receipt_unfold.
  induction ms as [|m0 ms IH]; [by apply elem_of_nil in Hin|].
  cbn in Hnd. apply NoDup_cons in Hnd as [Hnotin Hnd]. cbn.
  apply elem_of_cons in Hin as [->|Hin].
  - by rewrite bool_decide_eq_true_2, Hhas.
  - rewrite bool_decide_eq_false_2; [by apply IH|].
    intros E. apply Hnotin. rewrite E. apply list_elem_of_fmap. by exists m.
Qed.

Lemma has_receiver_receipt_in u m : has_receiver u m = true ↔ is_Some (receipt_in u m).
Proof.
  unfold has_receiver, receipt_in. rewrite bool_decide_eq_true, list_elem_of_fmap.
  split.
  - intros (rc & -> & Hin).
    destruct (List.find _ (msg_receivers m)) eqn:E; [by eexists|].
    apply list_elem_of_In in Hin. apply (find_none _ _ E) in Hin.
    by rewrite bool_decide_eq_true_2 in Hin.
  - intros [s Hs]. destruct (List.find _ (msg_receivers m)) as [rc|] eqn:E; [|done].
    apply find_some in E as [Hin Hu]. apply bool_decide_eq_true in Hu.
    exists rc. split; [done|]. by apply list_elem_of_In.
Qed.

Lemma is_unread_spec u m :
  is_unread (Some u) m = true ↔ ∃ s, receipt_in u m = Some s ∧ s ≠ SEEN.
Proof.
  unfold is_unread, receipt_in.
  destruct (List.find _ (msg_receivers m)) as [rc|]; cbn.
  - rewrite negb_true_iff, bool_decide_eq_false. split.
    + intros H. eauto.
    + by intros (s & [= <-] & H).
  - split; [done|]. by intros (s & ? & _).
Qed.

(** What load-messages answers and leaves behind, for a connection with a
    user and a current room. *)
Lemma handleLoadMessages_run cid client u r st :
  messages_ok st → sockets st !! cid = Some client →
  sock_userId client = Some u → sock_roomId client = Some r → r ≠ "" →
  let messages := merge_sort createdAt_le
                    (filter (λ m, msg_room_id m = r) (messageModel st)) in
  handleLoadMessages cid st
  = (foldl (λ st m, mark_seen u r m st) st (List.filter (is_unread (Some u)) messages),
     inr (Messages messages)).
Proof.
  intros [_ Hoid] Hc Hu Hr Hne messages.
  unfold handleLoadMessages. rewrite try_catch_run, bind_run. unfold getClient.
  rewrite Hc. cbn beta iota. rewrite Hu, Hr.
  assert (Js.truthy (Some r) = true) as -> by (by destruct r). cbn [negb].
  unfold getMessagesForRoom. mstep.
  change (Js.str (Some r)) with r. change (Js.str (Some u)) with u. fold messages.
  assert (Hall : Forall (λ m, is_oid (msg__id m) = true)
                   (List.filter (is_unread (Some u)) messages)).
  { apply Forall_forall. intros m Hm. apply list_elem_of_In, filter_In in Hm as [Hm _].
    apply list_elem_of_In in Hm. subst messages. rewrite merge_sort_Permutation in Hm.
    apply list_elem_of_filter in Hm as [_ Hm].
    rewrite Forall_forall in Hoid. apply Hoid. apply list_elem_of_fmap. by exists m. }
  destruct (List.filter (is_unread (Some u)) messages) as [|m0 l] eqn:E; [done|].
  rewrite bind_run. rewrite (load_loop_run u r (m0 :: l) st Hall). reflexivity.
Qed.

(** When the first receiver entry of a user is SEEN on every message of a
    room, the receipt the collection answers for that user is SEEN for
    each message of the room that lists the user. *)
Lemma seen_receipts P u r ms ms' :
  NoDup (msg__id <$> ms) → msgs_upd P ms ms' →
  (∀ m s, m ∈ ms' → msg_room_id m = r → receipt_in u m = Some s → s = SEEN) →
  ∀ m, m ∈ ms → msg_room_id m = r → has_receiver u m = true →
       receipt (msg__id m) u ms' = Some SEEN.
Proof.
  intros Hnd Hupd Hseen m Hin Hroom Hhas.
  apply list_elem_of_lookup in Hin as [i Hi].
  destruct (Forall2_lookup_l _ _ _ _ _ Hupd Hi) as (m' & Hi' & Hmm').
  assert (Hin' : m' ∈ ms') by (by eapply list_elem_of_lookup_2).
  assert (Hhas' : has_receiver u m' = true)
    by (by rewrite (msg_upd_has_receiver _ _ _ _ Hmm')).
  rewrite <- (msg_upd_id _ _ _ Hmm').
  rewrite (receipt_unique u m' ms'); [|by rewrite (msgs_upd_ids _ _ _ Hupd)|done|done].
  destruct (proj1 (has_receiver_receipt_in u m') Hhas') as [s Hs].
  rewrite Hs. f_equal. apply (Hseen m' s Hin'); [|done].
  by rewrite (msg_upd_room _ _ _ Hmm').
Qed.

(** What load-messages does for a connection with a user and a current
    room, in a state whose message ids are unique ObjectIds. *)
Lemma load_marks_seen st cid client u r :
  messages_ok st → sockets st !! cid = Some client →
  sock_userId client = Some u → sock_roomId client = Some r → r ≠ "" →
  let messages := merge_sort createdAt_le
                    (filter (λ m, msg_room_id m = r) (messageModel st)) in
  let st' := foldl (λ st m, mark_seen u r m st) st
               (List.filter (is_unread (Some u)) messages) in
  handleLoadMessages cid st = (st', inr (Messages messages))
  ∧ (∀ m s, m ∈ messageModel st' → msg_room_id m = r → receipt_in u m = Some s → s = SEEN)
  ∧ msgs_upd (λ x s, x = u ∧ s = SEEN) (messageModel st) (messageModel st').
Proof.
  intros Hok Hc Hu Hr Hne messages st'.
  split; [by apply (handleLoadMessages_run cid client)|]. split; [|apply mark_all_upd].
  set (unread := List.filter (is_unread (Some u)) messages) in *.
  intros m' s Hin' Hroom Hs.
  pose proof (mark_all_upd u r unread st) as Hupd. fold st' in Hupd.
  apply list_elem_of_lookup in Hin' as [i Hi'].
  destruct (Forall2_lookup_r _ _ _ _ _ Hupd Hi') as (m & Hi & Hmm').
  assert (Hin : m ∈ messageModel st) by (by eapply list_elem_of_lookup_2).
  destruct (receipt_in u m) as [s0|] eqn:Hs0.
  2:{ destruct Hmm' as [_ Hrs]. pose proof (rcvs_upd_find _ u _ _ Hrs) as Hf.
      unfold receipt_in in Hs0, Hs.
      destruct (List.find _ (msg_receivers m)); [done|]. by inversion Hf as [|]; subst;
        match goal with H : None = _ |- _ => rewrite <- H in Hs end. }
  destruct (decide (s0 = SEEN)) as [->|Hns].
  { destruct (receipt_in_upd _ _ _ _ _ Hmm' Hs0) as (s' & Hs' & [->|[_ ->]]); congruence. }
  assert (Hunread : m ∈ unread).
  { apply list_elem_of_In, filter_In. split.
    - apply list_elem_of_In. subst messages. rewrite merge_sort_Permutation.
      apply list_elem_of_filter. split; [|done]. by rewrite <- (msg_upd_room _ _ _ Hmm').
    - apply is_unread_spec. eauto. }
  assert (Hhas : has_receiver u m = true).
  { apply has_receiver_receipt_in. rewrite Hs0. by eexists. }
  pose proof (mark_all_receipt u r unread st m Hunread) as Hseen. fold st' in Hseen.
  rewrite (receipt_unique u m (messageModel st) (proj1 Hok) Hin Hhas) in Hseen.
  specialize (Hseen ltac:(rewrite Hs0; by eexists)).
  rewrite <- (msg_upd_id _ _ _ Hmm') in Hseen.
  rewrite (receipt_unique u m') in Hseen.
  - congruence.
  - rewrite (msgs_upd_ids _ _ _ Hupd). apply Hok.
  - by eapply list_elem_of_lookup_2.
  - by rewrite (msg_upd_has_receiver _ _ _ _ Hmm').
Qed.

(** Load-messages asks for no membership.  For every connection with a
    user and a current room, whatever the room collection holds, it
    answers with all messages of that room in ascending creation order.
    Afterwards, on every message of the room that lists the user among
    its receivers, the receipt of the user is SEEN, where the receipt is
    the first receiver entry with the id of the user, the one [find] reads
    and ['receivers.$'] writes.  Nothing but receiver entries of that user
    has changed in the collection, and they changed to SEEN. *)
Theorem load_messages_asks_no_membership st cid client u r :
  reachable st → sockets st !! cid = Some client →
  sock_userId client = Some u → sock_roomId client = Some r → r ≠ "" →
  ∃ st' messages,
    handleLoadMessages cid st = (st', inr (Messages messages))
    ∧ messages ≡ₚ filter (λ m, msg_room_id m = r) (messageModel st)
    ∧ Sorted createdAt_le messages
    ∧ (∀ m, m ∈ messageModel st → msg_room_id m = r → has_receiver u m = true →
            receipt (msg__id m) u (messageModel st') = Some SEEN)
    ∧ (∀ m s, m ∈ messageModel st' → msg_room_id m = r → receipt_in u m = Some s →
              s = SEEN)
    ∧ msgs_upd (λ x s, x = u ∧ s = SEEN) (messageModel st) (messageModel st').
Proof.
  intros Hreach Hc Hu Hr Hne.
  pose proof (inv_messages _ (reachable_invariant _ Hreach)) as Hok.
  destruct (load_marks_seen st cid client u r Hok Hc Hu Hr Hne) as (Hrun & Hseen & Hupd).
  do 2 eexists. split; [exact Hrun|]. split; [apply merge_sort_Permutation|].
  split; [apply Sorted_merge_sort, _|].
  split; [|split; [exact Hseen|exact Hupd]].
  exact (seen_receipts _ u r _ _ (proj1 Hok) Hupd Hseen).
Qed.

Lemma eve_rejected_reachable : reachable Scenario.eve_rejected.
Proof.
  change Scenario.eve_rejected
    with (run (Scenario.eve_ops ++ [JoinRoom "c_e" Scenario.team]) initial).
  apply reachable_run; [constructor|]. vm_compute. reflexivity.
Qed.

(** eve is not a participant of the room, and load-messages answers her
    with the message bob sent.  alice, who has that message as DELIVERED,
    has it as SEEN after her load-messages. *)
Lemma load_messages_asks_no_membership_witness :
  (∃ st' messages,
     handleLoadMessages "c_e" Scenario.eve_rejected = (st', inr (Messages messages))
     ∧ length messages = 1)
  ∧ receipt Scenario.hi "alice" (messageModel Runs.left) = Some DELIVERED
  ∧ ∃ st' messages,
      handleLoadMessages "c_a" Runs.left = (st', inr (Messages messages))
      ∧ receipt Scenario.hi "alice" (messageModel st') = Some SEEN.
Proof.
  split; [|split; [vm_compute; reflexivity|]].
  - destruct (load_messages_asks_no_membership Scenario.eve_rejected "c_e"
                (mkSocket (Some "eve") (Some "eve") (Some "eve") (Some Scenario.team))
                "eve" Scenario.team) as (st' & messages & Hrun & Hperm & _).
    + exact eve_rejected_reachable.
    + vm_compute. reflexivity.
    + reflexivity.
    + reflexivity.
    + discriminate.
    + exists st', messages. split; [exact Hrun|].
      rewrite (Permutation_length Hperm). vm_compute. reflexivity.
  - assert (Hm : ∃ m, messageModel Runs.left = [m] ∧ msg__id m = Scenario.hi
                      ∧ msg_room_id m = Scenario.team ∧ has_receiver "alice" m = true).
    { eexists. split; [vm_compute; reflexivity|]. split; [reflexivity|].
      split; [reflexivity|]. vm_compute. reflexivity. }
    destruct Hm as (m & Hms & Hid & Hroom & Hhas).
    destruct (load_messages_asks_no_membership Runs.left "c_a"
                (mkSocket (Some "alice") (Some "alice") (Some "alice") (Some Scenario.team))
                "alice" Scenario.team) as (st' & messages & Hrun & _ & _ & Hseen & _).
    + apply reachable_run; [constructor|]. vm_compute. reflexivity.
    + vm_compute. reflexivity.
    + reflexivity.
    + reflexivity.
    + discriminate.
    + exists st', messages. split; [exact Hrun|].
      rewrite <- Hid. apply Hseen; [|exact Hroom|exact Hhas].
      rewrite Hms. apply list_elem_of_here.
Defined.

(** C9 fails on the code.  bob creates a group and lists alice twice, which
    the request schema accepts; he joins and sends a message, which gets
    two receiver entries for alice, and alice connects.  She joins the
    room, which runs load-messages, and asks for load-messages once more.
    Both times the handler looks at her first receiver entry and updates
    that one: the message is returned, the first entry is SEEN, and the
    second entry, a receipt in that room addressed to alice, is still
    SENT. *)
Theorem C9_load_messages_leaves_a_receipt_unseen :
  let st := Runs.twice in
  let st1 := exec (JoinRoom "c_a" Scenario.team) st in
  let st2 := exec (LoadMessages "c_a") st1 in
  let entries s1 s2 := [[mkReceiver "alice" s1 false; mkReceiver "alice" s2 false]] in
  admissible_run initial
    (Runs.twice_ops ++ [JoinRoom "c_a" Scenario.team; LoadMessages "c_a"]) = true
  ∧ msg_room_id <$> messageModel st = [Scenario.team]
  ∧ msg_receivers <$> messageModel st = entries DELIVERED SENT
  ∧ (on_joinRoom Scenario.team "c_a" st).2
    = inr (Joined "Room joined successfully." Scenario.team)
  ∧ msg_receivers <$> messageModel st1 = entries SEEN SENT
  ∧ (∃ m, (on_loadMessages "c_a" st1).2 = inr (Messages [m])
          ∧ msg_receivers m = [mkReceiver "alice" SEEN false; mkReceiver "alice" SENT false])
  ∧ msg_receivers <$> messageModel st2 = entries SEEN SENT.
Proof.
  cbn zeta. repeat (split; [vm_compute; reflexivity|]).
  split; [|vm_compute; reflexivity].
  eexists. split; [vm_compute; reflexivity|]. reflexivity.
Qed.

End load_messages.

(** ** C6: the cleanup of join-room and leave-room *)

Section handler_cleanup.

Import ChatService ChatGateway System.

Lemma handleLoadMessages_returns cid st : ∃ r, (handleLoadMessages cid st).2 = inr r.
Proof. apply try_catch_returns. Qed.

(** C6: the cleanup step of join-room and of leave-room removes no entry.
    A join that passes its checks is load-messages run on the state
    [cleaned] that the cleanup step leaves, and a leave that passes its
    checks is the unread summary run on such a state.  The key the
    cleanup deletes is the key of no message; in [cleaned] every entry of
    the user and the room, whatever its message id, is there with the
    value it had when the handler started; and when the handler started
    in a reachable state, [cleaned] is the very state the cleanup found.
    (What the handler does next is another matter: load-messages deletes
    the entries of the messages it marks, and the unread summary sets
    entries to DELIVERED.) *)
Theorem C6_cleanup_removes_no_entry st cid client u r room :
  sockets st !! cid = Some client → sock_user client = Some u →
  room_of r st = Some room → u ∈ p_userId <$> room_participants room →
  (∀ m, m ≠ "*" → statusKey u r m ≠ statusWildcard u r)
  ∧ (let joined := (client_join cid r
                      (setClient cid (λ s, set_userId u (set_roomId r s)) st).1).1 in
     let cleaned := (redis_del (statusWildcard u r) joined).1 in
     handleJoinRoom r cid st
     = ((handleLoadMessages cid cleaned).1, inr (Joined "Room joined successfully." r))
     ∧ (∀ m, m ≠ "*" →
             redisClient cleaned !! statusKey u r m = redisClient st !! statusKey u r m)
     ∧ (reachable st → cleaned = joined))
  ∧ (sock_roomId client = Some r →
     let gone := (client_leave cid r st).1 in
     let cleaned := (redis_del (statusWildcard u r) gone).1 in
     handleLeaveRoom cid st
     = ((handleUnreadMessages cid cleaned).1, inr (Success "Room left successfully."))
     ∧ (∀ m, m ≠ "*" →
             redisClient cleaned !! statusKey u r m = redisClient st !! statusKey u r m)
     ∧ (reachable st → cleaned = gone)).
Proof.
  intros Hc Hu Hroom Hin.
  split; [apply statusKey_not_wildcard|]. split.
  - cbn zeta. split; [|split].
    + unfold handleJoinRoom. rewrite try_catch_bind.
      unfold getClient. rewrite Hc. cbn beta iota.
      rewrite try_catch_bind. unfold user_sub. rewrite Hu, ret_run. cbn beta iota.
      rewrite try_catch_bind. unfold setClient at 1. rewrite modify_run. cbn beta iota.
      rewrite try_catch_bind, (room_of_getRoom r room) by exact Hroom. cbn beta iota.
      rewrite try_catch_bind, (room_of_isUserInRoom r room u) by done.
      cbn beta iota. cbn [negb].
      rewrite try_catch_bind. unfold client_join at 1. rewrite modify_run. cbn beta iota.
      rewrite try_catch_bind, redis_del_run. cbn beta iota.
      unfold setClient, client_join. rewrite !modify_run, redis_del_run. cbn [fst].
      match goal with |- try_catch _ _ ?s = _ =>
        destruct (handleLoadMessages_returns cid s) as [resp Hresp];
        rewrite try_catch_bind; destruct (handleLoadMessages cid s) as [st' res] end.
      cbn in Hresp. subst res. by rewrite try_catch_run, ret_run.
    + intros m Hm. unfold setClient, client_join. rewrite !modify_run, redis_del_run.
      cbn -[statusKey statusWildcard]. apply lookup_delete_ne.
      intros E. by apply (statusKey_not_wildcard u r m).
    + intros Hreach. apply redis_del_absent, wildcard_absent.
      unfold setClient, client_join. rewrite !modify_run. cbn [fst].
      intros k. apply (inv_keys _ (reachable_invariant _ Hreach)).
  - intros Hr. cbn zeta. split; [|split].
    + unfold handleLeaveRoom. rewrite bind_run. unfold getClient. rewrite Hc. cbn beta iota.
      rewrite bind_run. unfold user_sub. rewrite Hu, ret_run. cbn beta iota. rewrite Hr.
      rewrite try_catch_bind, (room_of_getRoom r room st) by exact Hroom. cbn beta iota.
      rewrite try_catch_bind, (room_of_isUserInRoom r room u st) by done.
      cbn beta iota. cbn [negb]. change (Js.str (Some r)) with r.
      rewrite try_catch_bind. unfold client_leave at 1. rewrite modify_run. cbn beta iota.
      rewrite try_catch_bind, redis_del_run. cbn beta iota.
      unfold client_leave. rewrite modify_run, redis_del_run. cbn [fst].
      match goal with |- try_catch _ _ ?s = _ =>
        destruct (handleUnreadMessages_returns cid s) as [resp Hresp];
        rewrite try_catch_bind; destruct (handleUnreadMessages cid s) as [st' res] end.
      cbn in Hresp. subst res. by rewrite try_catch_run, ret_run.
    + intros m Hm. unfold client_leave. rewrite modify_run, redis_del_run.
      cbn -[statusKey statusWildcard]. apply lookup_delete_ne.
      intros E. by apply (statusKey_not_wildcard u r m).
    + intros Hreach. apply redis_del_absent, wildcard_absent.
      unfold client_leave. rewrite modify_run. cbn [fst].
      intros k. apply (inv_keys _ (reachable_invariant _ Hreach)).
Qed.

(** alice has left the room and has an entry for a message sent to it
    since; the entry gets through the cleanup of her next join and through
    the cleanup of a leave. *)
Lemma C6_cleanup_removes_no_entry_witness :
  let key := statusKey "alice" Scenario.team Scenario.hi in
  let wildcard := statusWildcard "alice" Scenario.team in
  let join := λ s, set_userId "alice" (set_roomId Scenario.team s) in
  redisClient Runs.left !! key = Some "DELIVERED"
  ∧ redisClient (redis_del wildcard
                   (client_join "c_a" Scenario.team
                      (setClient "c_a" join Runs.left).1).1).1 !! key = Some "DELIVERED"
  ∧ redisClient (redis_del wildcard (client_leave "c_a" Scenario.team Runs.left).1).1 !! key
    = Some "DELIVERED".
Proof.
  intros key wildcard join.
  assert (Hkey : redisClient Runs.left !! key = Some "DELIVERED") by (vm_compute; reflexivity).
  destruct (C6_cleanup_removes_no_entry Runs.left "c_a"
              (mkSocket (Some "alice") (Some "alice") (Some "alice") (Some Scenario.team))
              "alice" Scenario.team
              (created_room (Scenario.team_dto ["alice"]) "bob" Scenario.team))
    as (_ & (_ & Hjoin & _) & Hleave).
  - vm_compute. reflexivity.
  - reflexivity.
  - vm_compute. reflexivity.
  - apply list_elem_of_here.
  - destruct (Hleave eq_refl) as (_ & Hleave' & _).
    split; [exact Hkey|]. split.
    + etrans; [apply (Hjoin Scenario.hi); discriminate|exact Hkey].
    + etrans; [apply (Hleave' Scenario.hi); discriminate|exact Hkey].
Defined.

End handler_cleanup.

(** ** C3: a join that fails *)

Section failed_join.

Import ChatService ChatGateway System.

#[local] Instance same_sockets_preorder : PreOrder same_sockets.
Proof. split; [by intros st|]. intros st1 st2 st3 H1 H2. unfold same_sockets in *. congruence. Qed.

Lemma handleLoadMessages_sockets cid : preserves same_sockets (handleLoadMessages cid).
Proof. intros st. by destruct (handleLoadMessages_quiet (λ _, False) cid st) as [? _]. Qed.

(** Whatever a join answers, the connection's current room is the
    requested room afterwards: the attribute is set before the room is
    looked up and before membership is checked. *)
Lemma handleJoinRoom_sets_roomId roomId cid client sub st :
  sockets st !! cid = Some client → sock_user client = Some sub →
  sock_roomId <$> sockets (handleJoinRoom roomId cid st).1 !! cid = Some (Some roomId).
Proof.
  intros Hc Hu. unfold handleJoinRoom. rewrite try_catch_bind.
  unfold getClient. rewrite Hc. cbn beta iota.
  rewrite try_catch_bind. unfold user_sub. rewrite Hu, ret_run. cbn beta iota.
  rewrite try_catch_bind. unfold setClient. rewrite modify_run. cbn beta iota.
  set (st1 := with_sockets _ st).
  assert (H1 : sock_roomId <$> sockets st1 !! cid = Some (Some roomId)).
  { subst st1. cbn. by rewrite lookup_alter, decide_True, Hc. }
  match goal with
  | |- context [try_catch ?m ?h st1] =>
      assert (Hrest : preserves same_sockets (try_catch m h))
  end.
  { frame.
    - by apply preserves_modify.
    - by apply preserves_modify.
    - apply handleLoadMessages_sockets. }
  by rewrite (Hrest st1).
Qed.

(** C3 fails on the code.  eve is connected and in no room.  Her request to
    join bob's group is refused because she is not a member, and her
    request to join a room that does not exist fails too; after either,
    her connection's current room is the room she asked for, and
    load-messages then hands her the messages of bob's group. *)
Theorem C3_failed_join_changes_current_room :
  let st := Scenario.eve_connected in
  sock_roomId <$> sockets st !! "c_e" = Some None
  ∧ (on_joinRoom Scenario.team "c_e" st).2
    = inr (Failure "You are not authorized to join this room")
  ∧ sock_roomId <$> sockets (on_joinRoom Scenario.team "c_e" st).1 !! "c_e"
    = Some (Some Scenario.team)
  ∧ (on_joinRoom Scenario.other_room "c_e" st).2
    = inr (Failure "An error occurred while joining the room")
  ∧ sock_roomId <$> sockets (on_joinRoom Scenario.other_room "c_e" st).1 !! "c_e"
    = Some (Some Scenario.other_room)
  ∧ ∃ m, (on_loadMessages "c_e" (on_joinRoom Scenario.team "c_e" st).1).2
         = inr (Messages [m])
         ∧ msg_message m = "hi" ∧ msg_sender_id m = "bob".
Proof.
  cbn zeta. repeat split; try (vm_compute; reflexivity).
  eexists. split; [vm_compute; reflexivity|]. split; reflexivity.
Qed.

End failed_join.

(** ** C4: receipts going backward *)

Section backward.

Import ChatService ChatGateway System.

(** C4 fails on the code.  bob creates a group with alice and with the id
    [alice:x]; alice and bob join, and bob sends a message: alice, in the
    room, has her receipt SEEN, and the entry of [alice:x], who is
    offline, is SENT.  alice's unread summary scans [messageStatus:alice:*],
    meets the key of [alice:x], counts it and sets the receipt of alice
    for its message to DELIVERED: her receipt goes from SEEN back to
    DELIVERED. *)
Theorem C4_unread_summary_downgrades_receipt :
  let st := Scenario.shadow in
  let st' := exec (UnreadMessages "c_a") st in
  admissible_run initial (Scenario.shadow_ops ++ [UnreadMessages "c_a"]) = true
  ∧ receipt Scenario.hi "alice" (messageModel st) = Some SEEN
  ∧ redisClient st !! statusKey "alice:x" Scenario.team Scenario.hi = Some "SENT"
  ∧ pending "alice" (redisClient st) = [statusKey "alice:x" Scenario.team Scenario.hi]
  ∧ receipt Scenario.hi "alice" (messageModel st') = Some DELIVERED
  ∧ status_rank DELIVERED < status_rank SEEN.
Proof.
  cbn zeta. split; [vm_compute; reflexivity|]. split; [vm_compute; reflexivity|].
  split; [vm_compute; reflexivity|]. split; [vm_compute; reflexivity|].
  split; [vm_compute; reflexivity|]. cbn. lia.
Qed.

End backward.

(** ** Creating rooms *)

Section creating_rooms.

Import ChatService.

Lemma pre_validate_run room st :
  pre_validate room st
  = (st, match room_type room with
         | GROUP => if Js.truthy (room_name room) then inr tt
                    else inl (ValidationError "Name must be provided for GROUP room type")
         | SINGLE => if Js.truthy (room_name room)
                     then inl (ValidationError "Name should not be provided for SINGLE room type")
                     else inr tt
         end).
Proof. unfold pre_validate. destruct (room_type room), (Js.truthy (room_name room)); reflexivity. Qed.

Lemma save_room_run room st :
  save_room room st
  = match (pre_validate room st).2 with
    | inl e => (st, inl e)
    | inr _ => (with_chatRooms (λ rs, rs ++ [pre_save room]) st, inr (pre_save room))
    end.
Proof.
  unfold save_room. rewrite bind_run, pre_validate_run. cbn [snd].
  destruct (room_type room), (Js.truthy (room_name room)); reflexivity.
Qed.

(** The outcomes of create-room, case by case. *)
Lemma createRoom_cases dto userId newId st :
  let res := ChatController.createRoom dto userId newId st in
  (res = (with_chatRooms (λ rs, rs ++ [created_room dto userId newId]) st,
          inr (mkHttpResponse 201 "CREATE_USER_SUCCESSFULLY"
                 (Some (created_room dto userId newId))))
   ∧ (userId ∉ dto_participantIds dto)
   ∧ match dto_type dto with
     | GROUP => Js.truthy (dto_name dto) = true
     | SINGLE => Js.truthy (dto_name dto) = false
                 ∧ ∃ p, dto_participantIds dto = [p]
                        ∧ List.find (single_between userId p) (chatRoomModel st) = None
     end)
  ∨ (∃ msg, res = (st, inl (ConflictException msg))
            ∧ (userId ∈ dto_participantIds dto
               ∨ (dto_type dto = SINGLE
                  ∧ ∃ p ps, dto_participantIds dto = p :: ps
                            ∧ (is_Some (List.find (single_between userId p) (chatRoomModel st))
                               ∨ ps ≠ []))))
  ∨ (∃ msg, res = (st, inl (BadRequestException msg))
            ∧ (userId ∉ dto_participantIds dto)
            ∧ match dto_type dto with
              | GROUP => Js.truthy (dto_name dto) = false
              | SINGLE => dto_participantIds dto = [] ∨ Js.truthy (dto_name dto) = true
              end).
Proof.
  intros res. subst res. unfold ChatController.createRoom.
  case_bool_decide as Hself; [right; left; eexists; split; [reflexivity|by left]|].
  unfold ChatService.createRoom, created_room. cbn [dto_participants dto_type dto_name dto_image].
  rewrite try_catch_bind.
  destruct (dto_type dto) eqn:Htype.
  - destruct (dto_participantIds dto) as [|p ps] eqn:Hids; cbn [fmap list_fmap].
    { right; right. eexists. split; [reflexivity|]. split; [done|by left]. }
    rewrite bind_run, gets_run. cbn [p_userId].
    change (λ room, bool_decide (room_type room = SINGLE) && has_participant userId room
                    && has_participant p room) with (single_between userId p).
    destruct (List.find (single_between userId p) (chatRoomModel st)) as [room|] eqn:Hfind.
    { right; left. eexists. split; [reflexivity|]. right. split; [done|].
      exists p, ps. split; [done|]. left. by eexists. }
    cbn [length]. case_decide as Hlen.
    2:{ right; left. eexists. split; [reflexivity|]. right. split; [done|].
        exists p, ps. split; [done|]. right. intros ->. done. }
    destruct ps; [|done]. rewrite ret_run. rewrite try_catch_bind, save_room_run, pre_validate_run.
    cbn [snd room_type room_name].
    destruct (Js.truthy (dto_name dto)) eqn:Hname.
    + right; right. eexists. split; [reflexivity|]. split; [done|by right].
    + left. split; [reflexivity|]. split; [done|]. split; [done|]. by exists p.
  - rewrite ret_run. rewrite try_catch_bind, save_room_run, pre_validate_run.
    cbn [snd room_type room_name].
    destruct (Js.truthy (dto_name dto)) eqn:Hname.
    + left. split; [reflexivity|]. done.
    + right; right. eexists. split; [reflexivity|]. done.
Qed.

End creating_rooms.

(** ** The room collection over time *)

Section room_collection.

Import ChatService ChatGateway System.

#[local] Instance same_chatRooms_preorder : PreOrder same_chatRooms.
Proof.
  split; [by intros st|]. intros st1 st2 st3 H1 H2. unfold same_chatRooms in *. congruence.
Qed.

Lemma same_chatRooms_modify f :
  (∀ st, chatRoomModel (f st) = chatRoomModel st) → preserves same_chatRooms (modify f).
Proof. intros H. by apply preserves_modify. Qed.

Lemma same_chatRooms_quiet {A} N (m : M A) :
  preserves (quiet N) m → preserves same_chatRooms m.
Proof. intros H st. by destruct (H st) as (_ & ? & _). Qed.

Lemma same_chatRooms_saveMessage roomId senderId message receiverIds newId now :
  preserves same_chatRooms (saveMessage roomId senderId message receiverIds newId now).
Proof.
  intros st. destruct (saveMessage _ _ _ _ _ _ st) as [st' [e|saved]] eqn:E.
  - apply saveMessage_throws in E as ->. reflexivity.
  - by apply saveMessage_state in E as (_ & -> & _).
Qed.

Lemma same_chatRooms_canActivate cid : preserves same_chatRooms (ChatAuthGuard.canActivate cid).
Proof.
  unfold ChatAuthGuard.canActivate. frame. by apply same_chatRooms_modify.
Qed.

Lemma same_chatRooms_disconnect cid : preserves same_chatRooms (disconnect cid).
Proof.
  unfold disconnect, handleDisconnect. frame; by apply same_chatRooms_modify.
Qed.

(** No event of the gateway writes to the room collection. *)
Lemma gateway_same_chatRooms op st :
  match op with CreateRoom _ _ _ | AddParticipant _ _ => False | _ => True end →
  chatRoomModel (exec op st) = chatRoomModel st.
Proof.
  destruct op as [cid token|cid|cid roomId|cid|cid message newId now|cid|cid
                 |userId dto newId|userId dto]; cbn [exec]; intros Hop; try done.
  - revert st. change (preserves same_chatRooms (on_connect cid token)).
    unfold on_connect, handleConnection, handleConnection_body. frame.
    + by apply same_chatRooms_modify.
    + by apply same_chatRooms_modify.
    + by apply same_chatRooms_modify.
    + apply (same_chatRooms_quiet (λ _, False)), handleUnreadMessages_quiet.
    + apply same_chatRooms_disconnect.
  - apply same_chatRooms_disconnect.
  - revert st. change (preserves same_chatRooms (on_joinRoom roomId cid)).
    unfold on_joinRoom, guarded, handleJoinRoom. frame.
    + apply same_chatRooms_canActivate.
    + by apply same_chatRooms_modify.
    + by apply same_chatRooms_modify.
    + by apply same_chatRooms_modify.
    + apply (same_chatRooms_quiet (λ _, False)), handleLoadMessages_quiet.
  - revert st. change (preserves same_chatRooms (on_leaveRoom cid)).
    unfold on_leaveRoom, guarded, handleLeaveRoom. frame.
    + apply same_chatRooms_canActivate.
    + by apply same_chatRooms_modify.
    + by apply same_chatRooms_modify.
    + apply (same_chatRooms_quiet (λ _, False)), handleUnreadMessages_quiet.
  - revert st. change (preserves same_chatRooms (on_message message cid newId now)).
    unfold on_message, guarded, handleSendMessage. frame.
    + apply same_chatRooms_canActivate.
    + apply same_chatRooms_saveMessage.
    + eapply same_chatRooms_quiet, forM_deliver_quiet.
  - revert st. change (preserves same_chatRooms (on_loadMessages cid)).
    unfold on_loadMessages, guarded. frame; [apply same_chatRooms_canActivate|].
    apply (same_chatRooms_quiet (λ _, False)), handleLoadMessages_quiet.
  - revert st. change (preserves same_chatRooms (on_unreadMessages cid)).
    unfold on_unreadMessages, guarded. frame; [apply same_chatRooms_canActivate|].
    apply (same_chatRooms_quiet (λ _, False)), handleUnreadMessages_quiet.
Qed.

(** *** Adding participants *)

Lemma set_participants_id ps room : room__id (set_participants ps room) = room__id room.
Proof. reflexivity. Qed.

(** [findOneAndUpdate] on a collection whose first document with that id
    is a GROUP room. *)
Lemma addToSet_participants_run oid new rs room :
  List.find (λ room, bool_decide (room__id room = oid)) rs = Some room →
  room_type room = GROUP →
  ∃ l1 l2,
    rs = l1 ++ room :: l2
    ∧ Forall (λ r, room__id r ≠ oid) l1
    ∧ addToSet_participants oid new rs
      = (l1 ++ set_participants (room_participants room ++ new) room :: l2,
         Some (set_participants (room_participants room ++ new) room)).
Proof.
  intros Hfind Htype. induction rs as [|r rs IH]; [done|]. cbn in Hfind.
  case_bool_decide as Hid.
  - injection Hfind as ->. exists [], rs. split; [done|]. split; [constructor|].
    cbn. rewrite bool_decide_eq_true_2 by done. rewrite bool_decide_eq_true_2 by done. done.
  - destruct (IH Hfind) as (l1 & l2 & -> & Hl1 & Hrun). exists (r :: l1), l2.
    split; [done|]. split; [by constructor|].
    cbn. rewrite bool_decide_eq_false_2 by done. cbn [andb].
    unfold addToSet_participants in Hrun. rewrite Hrun. done.
Qed.

Lemma findById_run roomId st :
  findById (Some roomId) st
  = match castObjectId roomId with
    | Some _ => (st, inr (room_of roomId st))
    | None => (st, inl CastError)
    end.
Proof.
  unfold findById, cast, room_of. rewrite bind_run.
  destruct (castObjectId roomId); reflexivity.
Qed.

(** The outcomes of add-participant, case by case, in the order the
    service checks them. *)
Lemma addParticipantToRoom_cases dto userId st :
  let res := addParticipantToRoom dto userId st in
  let roomId := add_roomId dto in
  let userIds := add_userIds dto in
  match castObjectId roomId with
  | None => res = (st, inl (BadRequestException "NOT_ABLE_TO_PROCESS_REQUEST"))
  | Some oid =>
      match room_of roomId st with
      | None => ∃ msg, res = (st, inl (NotFoundException msg))
      | Some room =>
          if decide (userId ∉ room_admins room)
          then ∃ msg, res = (st, inl (UnauthorizedException msg))
          else if decide (room_type room ≠ GROUP)
          then ∃ msg, res = (st, inl (UnauthorizedException msg))
          else if decide (userId ∈ userIds)
          then ∃ msg, res = (st, inl (ConflictException msg))
          else if decide (Exists (λ u, u ∈ p_userId <$> room_participants room) userIds)
          then ∃ msg, res = (st, inl (ConflictException msg))
          else
            let new := (λ userId, mkParticipant userId REQUEST false) <$> userIds in
            let room' := set_participants (room_participants room ++ new) room in
            ∃ l1 l2,
              chatRoomModel st = l1 ++ room :: l2
              ∧ Forall (λ r, room__id r ≠ oid) l1
              ∧ res = (with_chatRooms (λ _, l1 ++ room' :: l2) st,
                       inr (mkHttpResponse 200 "Participant added successfully." (Some room')))
      end
  end.
Proof.
  intros res roomId userIds. subst res. unfold addParticipantToRoom, getRoom.
  fold roomId userIds. rewrite try_catch_bind, bind_run, findById_run.
  destruct (castObjectId roomId) as [oid|] eqn:Hcast; [|reflexivity].
  cbn beta iota. destruct (room_of roomId st) as [room|] eqn:Hroom.
  2:{ rewrite throw_run. by eexists. }
  rewrite ret_run. cbn beta iota.
  case_decide as Hadmin.
  { rewrite bool_decide_eq_false_2 by done. cbn [negb]. rewrite try_catch_run, throw_run.
    by eexists. }
  rewrite bool_decide_eq_true_2 by done. cbn [negb].
  case_decide as Htype.
  { rewrite bool_decide_eq_false_2 by done. cbn [negb]. rewrite try_catch_run, throw_run.
    by eexists. }
  rewrite bool_decide_eq_true_2 by done. cbn [negb].
  case_decide as Hself.
  { rewrite bool_decide_eq_true_2 by done. rewrite try_catch_run, throw_run. by eexists. }
  rewrite bool_decide_eq_false_2 by done.
  case_decide as Hdup.
  { rewrite decide_True; [rewrite try_catch_run, throw_run; by eexists|].
    apply Exists_exists in Hdup as (u & Hu & Hin).
    assert (u ∈ filter (λ userId0, userId0 ∈ p_userId <$> room_participants room) userIds)
      as Hf by (by apply list_elem_of_filter).
    destruct (filter _ userIds); [by apply elem_of_nil in Hf|cbn; lia]. }
  rewrite decide_False.
  2:{ intros Hlen. apply Hdup.
      destruct (filter (λ userId0, userId0 ∈ p_userId <$> room_participants room) userIds)
        as [|u l] eqn:Hf; [cbn in Hlen; lia|].
      assert (u ∈ filter (λ userId0, userId0 ∈ p_userId <$> room_participants room) userIds)
        as Hu by (rewrite Hf; apply list_elem_of_here).
      apply list_elem_of_filter in Hu as [? ?]. apply Exists_exists. eauto. }
  unfold room_of in Hroom. rewrite Hcast in Hroom. cbn in Hroom.
  destruct (addToSet_participants_run oid
              ((λ userId, mkParticipant userId REQUEST false) <$> userIds)
              (chatRoomModel st) room Hroom Htype) as (l1 & l2 & Hrs & Hl1 & Hrun).
  exists l1, l2. split; [done|]. split; [done|].
  rewrite try_catch_bind. unfold cast. rewrite Hcast, ret_run. cbn beta iota.
  rewrite try_catch_bind. unfold findOneAndUpdate_addToSet. rewrite Hrun. reflexivity.
Qed.


(** *** The rooms of every reachable state are well formed *)

Lemma rooms_ok_initial : rooms_ok initial.
Proof.
  split; cbn; [constructor|constructor|constructor|].
  intros i j room1 room2 a b Hi. by rewrite lookup_nil in Hi.
Qed.

Lemma rooms_ok_same st st' :
  chatRoomModel st' = chatRoomModel st → rooms_ok st → rooms_ok st'.
Proof. intros E [H1 H2 H3 H4]. split; rewrite E; assumption. Qed.

Lemma single_between_sym a b room : single_between a b room = single_between b a room.
Proof. unfold single_between. by rewrite <- !andb_assoc, (andb_comm (has_participant a room)). Qed.

Lemma created_room_wf dto userId newId :
  userId ∉ dto_participantIds dto →
  (dto_type dto = SINGLE → ∃ p, dto_participantIds dto = [p]) →
  room_wf (created_room dto userId newId).
Proof.
  intros Hself Hsingle. split; cbn.
  - reflexivity.
  - apply elem_of_app. right. apply list_elem_of_here.
  - apply Forall_app. split; [|apply Forall_singleton; by left].
    apply Forall_fmap, Forall_forall. intros p Hp. right. cbn. split; [done|].
    by intros ->.
  - intros Htype. destruct (Hsingle Htype) as (p & Hp). exists p. rewrite Hp in *.
    split; [|reflexivity]. intros ->. apply Hself, list_elem_of_here.
Qed.

Lemma has_participant_created dto userId newId a :
  has_participant a (created_room dto userId newId) = true
  ↔ a ∈ dto_participantIds dto ∨ a = userId.
Proof.
  unfold has_participant. rewrite bool_decide_eq_true. cbn.
  rewrite fmap_app, elem_of_app, <- list_fmap_compose. cbn.
  rewrite list_fmap_id, list_elem_of_singleton. done.
Qed.

Lemma createRoom_rooms_ok dto userId newId st :
  rooms_ok st → is_oid newId = true → newId ∉ room__id <$> chatRoomModel st →
  rooms_ok (ChatController.createRoom dto userId newId st).1.
Proof.
  intros Hok Hoid Hfresh.
  destruct (createRoom_cases dto userId newId st) as [(-> & Hself & Hcase)|[(msg & -> & _)|(msg & -> & _)]];
    [|done|done].
  destruct Hok as [K1 K2 K3 K4]. cbn [fst].
  assert (Hone : dto_type dto = SINGLE → ∃ p, dto_participantIds dto = [p]).
  { intros E. rewrite E in Hcase. destruct Hcase as (_ & p & ? & _). by exists p. }
  split; cbn.
  - rewrite fmap_app. apply NoDup_app. split; [exact K1|]. split; [|apply NoDup_singleton].
    intros x Hx ->%list_elem_of_singleton. done.
  - rewrite fmap_app. apply Forall_app. split; [exact K2|]. by apply Forall_singleton.
  - apply Forall_app. split; [exact K3|]. apply Forall_singleton. by apply created_room_wf.
  - assert (Hnew : ∀ i room1 a b,
              chatRoomModel st !! i = Some room1 → a ≠ b →
              single_between a b room1 = true →
              single_between a b (created_room dto userId newId) = true → False).
    { intros i room1 a b Hi Hab S1 S2.
      unfold single_between in S2. apply andb_prop in S2 as [[T%bool_decide_eq_true Ha]%andb_prop Hb].
      cbn in T. rewrite T in Hcase. destruct Hcase as (_ & p & Hp & Hnone).
      apply has_participant_created in Ha, Hb. rewrite Hp in Ha, Hb.
      rewrite list_elem_of_singleton in Ha, Hb.
      assert (single_between userId p room1 = true) as S.
      { destruct Ha as [->| ->], Hb as [->| ->]; try done.
        by rewrite single_between_sym. }
      eapply find_none in Hnone; [|eapply list_elem_of_In, list_elem_of_lookup_2, Hi].
      congruence. }
    intros i j room1 room2 a b Hi Hj Hab S1 S2.
    apply lookup_app_Some in Hi as [Hi|[Hli Hi]], Hj as [Hj|[Hlj Hj]].
    + by eapply K4.
    + apply list_lookup_singleton_Some in Hj as [_ <-]. by destruct (Hnew i room1 a b).
    + apply list_lookup_singleton_Some in Hi as [_ <-]. by destruct (Hnew j room2 a b).
    + apply list_lookup_singleton_Some in Hi as [Hi _], Hj as [Hj _]. lia.
Qed.

Lemma addParticipant_rooms_ok dto userId st :
  rooms_ok st → rooms_ok (ChatController.handleAddParticipant dto userId st).1.
Proof.
  intros Hok. unfold ChatController.handleAddParticipant.
  pose proof (addParticipantToRoom_cases dto userId st) as H. cbn zeta in H.
  destruct (castObjectId (add_roomId dto)) as [oid|]; [|by rewrite H].
  destruct (room_of (add_roomId dto) st) as [room|]; [|by destruct H as (? & ->)].
  repeat (case_decide; [by destruct H as (? & ->)|]).
  destruct H as (l1 & l2 & Hrs & Hl1 & ->). cbn [fst].
  destruct Hok as [K1 K2 K3 K4]. rewrite Hrs in *.
  match goal with H : room_type room = GROUP |- _ => rename H into Htype end.
  match goal with H : userId ∈ room_admins room |- _ => rename H into Hadmin end.
  match goal with H : ¬ userId ∈ add_userIds dto |- _ => rename H into Hself end.
  split; cbn.
  - by rewrite fmap_app, fmap_cons in *.
  - by rewrite fmap_app, fmap_cons in *.
  - apply Forall_app in K3 as [Hw1 [Hw Hw2]%Forall_cons]. apply Forall_app. split; [done|].
    constructor; [|done]. destruct Hw as [W1 W2 W3 W4].
    rewrite W1 in Hadmin. apply list_elem_of_singleton in Hadmin as ->.
    split; cbn.
    + done.
    + apply elem_of_app. by left.
    + apply Forall_app. split; [done|]. apply Forall_fmap, Forall_forall. intros u Hu.
      right. cbn. split; [done|]. by intros ->.
    + intros E. congruence.
  - intros i j room1 room2 a b Hi Hj Hab S1 S2.
    assert (Hold : ∀ k roomk, (l1 ++ set_participants
                (room_participants room ++ ((λ u, mkParticipant u REQUEST false) <$> add_userIds dto))
                room :: l2) !! k = Some roomk →
              single_between a b roomk = true → (l1 ++ room :: l2) !! k = Some roomk).
    { intros k roomk Hk S. apply lookup_app_Some in Hk as [Hk|[Hlk Hk]].
      - by apply lookup_app_l_Some.
      - rewrite lookup_app_r by done. destruct (k - length l1) as [|n]; [|done].
        cbn in Hk. injection Hk as <-. unfold single_between in S. cbn in S.
        rewrite Htype in S. done. }
    eapply K4; eauto.
Qed.

(** Every reachable state has a well-formed room collection. *)
Lemma reachable_rooms_ok st : reachable st → rooms_ok st.
Proof.
  induction 1 as [|st op _ IH Ha]; [apply rooms_ok_initial|].
  destruct op as [cid token|cid|cid roomId|cid|cid message newId now|cid|cid
                 |userId dto newId|userId dto].
  8:{ cbn in Ha. apply andb_prop in Ha as [[_ Ho]%andb_prop Hf%bool_decide_eq_true].
      by apply createRoom_rooms_ok. }
  8:{ by apply addParticipant_rooms_ok. }
  all: eapply rooms_ok_same; [apply gateway_same_chatRooms; exact I|done].
Qed.

End room_collection.

(** ** Rooms and memberships only grow *)

Section rooms_grow.

Import ChatService ChatGateway System.

Lemma set_participants_same room : set_participants (room_participants room) room = room.
Proof. by destruct room. Qed.

Lemma room_ext_refl room : room_ext room room.
Proof.
  exists []. rewrite app_nil_r, set_participants_same. split; [done|]. split; [by left|constructor].
Qed.

Lemma room_ext_trans room1 room2 room3 :
  room_ext room1 room2 → room_ext room2 room3 → room_ext room1 room3.
Proof.
  intros (e1 & -> & T1 & F1) (e2 & -> & T2 & F2). exists (e1 ++ e2). cbn.
  rewrite app_assoc. split; [done|]. split; [|by apply Forall_app].
  destruct T1 as [->|T1]; [|by right]. destruct T2 as [->|T2]; [by left|by right].
Qed.

Lemma rooms_ext_refl rs : Forall2 room_ext rs rs.
Proof.
  apply Forall2_same_length_lookup. split; [done|]. intros i x y Hx Hy.
  rewrite Hx in Hy. injection Hy as <-. apply room_ext_refl.
Qed.

Lemma rooms_grow_refl rs : rooms_grow rs rs.
Proof. exists rs, []. rewrite app_nil_r. split; [apply rooms_ext_refl|done]. Qed.

Lemma rooms_grow_trans rs1 rs2 rs3 :
  rooms_grow rs1 rs2 → rooms_grow rs2 rs3 → rooms_grow rs1 rs3.
Proof.
  intros (l1 & n1 & F1 & ->) (l2 & n2 & F2 & ->).
  apply Forall2_app_inv_l in F2 as (l1' & n1' & F2 & _ & ->).
  exists l1', (n1' ++ n2). rewrite app_assoc. split; [|done].
  clear -F1 F2. revert l1' F2. induction F1 as [|x y l l' Hxy _ IH]; intros l1' F2.
  - by inversion F2.
  - inversion F2 as [|y' z l'' l''' Hyz F2']; subst. constructor; [|by apply IH].
    by eapply room_ext_trans.
Qed.

#[local] Instance rooms_grows_preorder : PreOrder rooms_grows.
Proof.
  split; [intros st; apply rooms_grow_refl|].
  intros st1 st2 st3. apply rooms_grow_trans.
Qed.

Lemma exec_rooms_grows op st : rooms_grows st (exec op st).
Proof.
  unfold rooms_grows.
  destruct op as [cid token|cid|cid roomId|cid|cid message newId now|cid|cid
                 |userId dto newId|userId dto].
  8:{ cbn [exec].
      destruct (createRoom_cases dto userId newId st)
        as [(-> & _)|[(msg & -> & _)|(msg & -> & _)]]; try apply rooms_grow_refl.
      cbn. eexists _, _. split; [apply rooms_ext_refl|reflexivity]. }
  8:{ cbn [exec]. unfold ChatController.handleAddParticipant.
      pose proof (addParticipantToRoom_cases dto userId st) as H. cbn zeta in H.
      destruct (castObjectId (add_roomId dto)) as [oid|]; [|rewrite H; apply rooms_grow_refl].
      destruct (room_of (add_roomId dto) st) as [room|];
        [|destruct H as (? & ->); apply rooms_grow_refl].
      repeat (case_decide; [destruct H as (? & ->); apply rooms_grow_refl|]).
      destruct H as (l1 & l2 & Hrs & Hl1 & ->). cbn. rewrite Hrs.
      eexists _, []. rewrite app_nil_r. split; [|reflexivity].
      apply Forall2_app; [apply rooms_ext_refl|constructor; [|apply rooms_ext_refl]].
      eexists. split; [reflexivity|]. split; [by right|].
      apply Forall_fmap, Forall_forall. by intros. }
  all: rewrite gateway_same_chatRooms by exact I; apply rooms_grow_refl.
Qed.

Lemma run_rooms_grows ops st : rooms_grows st (run ops st).
Proof.
  revert st. induction ops as [|op ops IH]; intros st; [reflexivity|].
  cbn. etrans; [apply exec_rooms_grows|apply IH].
Qed.

Lemma room_ext_id room room' : room_ext room room' → room__id room' = room__id room.
Proof. by intros (e & -> & _). Qed.

Lemma room_ext_has_participant u room room' :
  room_ext room room' → has_participant u room = true → has_participant u room' = true.
Proof.
  intros (e & -> & _). unfold has_participant. rewrite !bool_decide_eq_true. cbn.
  rewrite fmap_app, elem_of_app. by left.
Qed.

(** The first document with a given id stays the first one with that id. *)
Lemma rooms_grow_find oid rs rs' room :
  rooms_grow rs rs' →
  List.find (λ room, bool_decide (room__id room = oid)) rs = Some room →
  ∃ room', List.find (λ room, bool_decide (room__id room = oid)) rs' = Some room'
           ∧ room_ext room room'.
Proof.
  intros (l & n & F & ->) Hfind. induction F as [|x y rs l Hxy F IH]; [done|].
  cbn in *. rewrite (room_ext_id _ _ Hxy). case_bool_decide.
  - injection Hfind as <-. by exists y.
  - by apply IH.
Qed.

Lemma rooms_grow_find_participant oid u rs rs' :
  rooms_grow rs rs' →
  is_Some (List.find (λ room, bool_decide (room__id room = oid) && has_participant u room) rs) →
  is_Some (List.find (λ room, bool_decide (room__id room = oid) && has_participant u room) rs').
Proof.
  intros (l & n & F & ->) Hfind.
  induction F as [|x y rs l Hxy F IH]; [by destruct Hfind|].
  cbn in *. rewrite (room_ext_id _ _ Hxy).
  destruct (bool_decide (room__id x = oid) && has_participant u x) eqn:E.
  - apply andb_prop in E as [-> E]. rewrite (room_ext_has_participant _ _ _ Hxy E). by eexists.
  - destruct (_ && has_participant u y); [done|]. by apply IH.
Qed.

End rooms_grow.

(** ** Properties of create-room and add-participant *)

Section room_requests.

Import ChatService ChatGateway System.

Lemma isUserInRoom_run roomId userId st :
  isUserInRoom (Some roomId) userId st
  = match castObjectId roomId with
    | Some oid =>
        (st, inr (bool_decide (is_Some (List.find
                    (λ room, bool_decide (room__id room = oid) && has_participant userId room)
                    (chatRoomModel st)))))
    | None => (st, inl CastError)
    end.
Proof.
  unfold isUserInRoom, cast. rewrite bind_run.
  destruct (castObjectId roomId); [|reflexivity]. rewrite ret_run, gets_run.
  by destruct (List.find _ _).
Qed.

Lemma getRoom_run roomId st :
  getRoom (Some roomId) st
  = match castObjectId roomId with
    | Some _ =>
        match room_of roomId st with
        | Some room => (st, inr room)
        | None => (st, inl (NotFoundException
                              ("Chat room with ID " +:+ roomId +:+ " not found")))
        end
    | None => (st, inl CastError)
    end.
Proof.
  unfold getRoom. rewrite bind_run, findById_run.
  destruct (castObjectId roomId); [|reflexivity]. by destruct (room_of roomId st).
Qed.

Lemma find_app_fresh {A} (f : A → bool) (l : list A) (x : A) :
  Forall (λ y, f y = false) l → f x = true → List.find f (l ++ [x]) = Some x.
Proof.
  intros Hl Hx. induction Hl as [|y l Hy _ IH]; cbn; [by rewrite Hx|by rewrite Hy].
Qed.

(** A create-room request that fails saves nothing, and it fails with a
    Conflict or with a BadRequest, never otherwise. *)
Theorem create_room_failure_saves_nothing dto userId newId st st' e :
  ChatController.createRoom dto userId newId st = (st', inl e) →
  st' = st ∧ (error_kind e = Conflict ∨ error_kind e = InvalidArgument).
Proof.
  intros Hrun.
  destruct (createRoom_cases dto userId newId st)
    as [(E & _)|[(msg & E & _)|(msg & E & _)]]; rewrite Hrun in E.
  - discriminate.
  - injection E as -> ->. split; [done|by left].
  - injection E as -> ->. split; [done|by right].
Qed.

Lemma create_room_failure_saves_nothing_witness :
  initial = initial
  ∧ (error_kind (BadRequestException "Not able to process request") = Conflict
     ∨ error_kind (BadRequestException "Not able to process request") = InvalidArgument).
Proof.
  apply (create_room_failure_saves_nothing
           (mkCreateRoomDto None GROUP None true ["alice"] []) "bob" Scenario.team initial).
  vm_compute. reflexivity.
Defined.

(** A create-room body that passed [CreateRoomSchema] is never answered
    with a BadRequest by the service: the room is saved and the answer is
    201, or the request is refused with a Conflict and nothing is saved.
    A GROUP room is refused only when the creator lists their own id; a
    SINGLE room also when more than one participant is listed or a SINGLE
    room of the two users exists already.  The creator's id is non-empty,
    as the [sub] of a verified token is. *)
Theorem validated_create_room_outcomes url body userId newId st :
  Schemas.CreateRoomSchema url body = true → Js.truthy (Some userId) = true →
  let res := Routes.create_room url body userId newId st in
  let saved :=
    (with_chatRooms (λ rs, rs ++ [created_room body userId newId]) st,
     inr (mkHttpResponse 201 "CREATE_USER_SUCCESSFULLY"
            (Some (created_room body userId newId)))) in
  (res = saved ∨ ∃ msg, res = (st, inl (ConflictException msg)))
  ∧ (dto_type body = GROUP → (res = saved ↔ userId ∉ dto_participantIds body))
  ∧ (dto_type body = SINGLE →
     (res = saved ↔ (userId ∉ dto_participantIds body)
                    ∧ ∃ p, dto_participantIds body = [p]
                           ∧ List.find (single_between userId p) (chatRoomModel st) = None)).
Proof.
  intros Hschema _ res saved. subst res saved. unfold Routes.create_room. rewrite Hschema.
  unfold Schemas.CreateRoomSchema in Hschema.
  repeat (apply andb_prop in Hschema as [Hschema ?]).
  repeat match goal with H : negb _ = true |- _ => apply negb_true_iff in H end.
  match goal with H : bool_decide (_ = []) = false |- _ =>
    apply bool_decide_eq_false in H; rename H into Hne end.
  assert (Hgroup : dto_type body = GROUP → Js.truthy (dto_name body) = true).
  { intros E. rewrite E in *. rewrite bool_decide_eq_true_2 in * by done.
    by destruct (Js.truthy (dto_name body)). }
  assert (Hsingle : dto_type body = SINGLE → Js.truthy (dto_name body) = false).
  { intros E. rewrite E in *. rewrite bool_decide_eq_true_2 in * by done.
    by destruct (Js.truthy (dto_name body)). }
  destruct (createRoom_cases body userId newId st)
    as [(E & Hself & Hcase)|[(msg & E & Hcase)|(msg & E & Hself & Hcase)]].
  - split; [by left|]. split; intros Htype; (split; [|done]); intros _; [done|].
    rewrite Htype in Hcase. split; [done|]. destruct Hcase as (_ & p & ? & ?). by exists p.
  - split; [right; by exists msg|]. rewrite E.
    split; intros Htype; (split; [done|]).
    + intros Hself. destruct Hcase as [?|[? _]]; [done|congruence].
    + intros (Hself & p & Hp & Hnone). destruct Hcase as [?|(_ & q & qs & Hq & Hc)]; [done|].
      rewrite Hp in Hq. injection Hq as <- <-. destruct Hc as [[? Hc]|?]; congruence.
  - exfalso. destruct (dto_type body) eqn:Htype.
    + destruct Hcase as [?|Hc]; [done|]. rewrite Hsingle in Hc; done.
    + rewrite Hgroup in Hcase; done.
Qed.

Lemma validated_create_room_outcomes_witness :
  let body := Scenario.team_dto ["alice"] in
  Routes.create_room (λ _, true) body "bob" Scenario.team initial
  = (with_chatRooms (λ rs, rs ++ [created_room body "bob" Scenario.team]) initial,
     inr (mkHttpResponse 201 "CREATE_USER_SUCCESSFULLY"
            (Some (created_room body "bob" Scenario.team)))).
Proof.
  intros body.
  destruct (validated_create_room_outcomes (λ _, true) body "bob" Scenario.team initial
              eq_refl eq_refl) as (_ & Hgroup & _).
  apply Hgroup; [reflexivity|]. intros H%list_elem_of_singleton. discriminate.
Defined.

(** Creating a room and looking it up: under its fresh id the room that
    was saved is the one [getRoom] finds, and the creator and every listed
    participant pass the membership test. *)
Theorem created_room_is_found dto userId newId st st' resp :
  ChatController.createRoom dto userId newId st = (st', inr resp) →
  is_oid newId = true → newId ∉ room__id <$> chatRoomModel st →
  resp = mkHttpResponse 201 "CREATE_USER_SUCCESSFULLY" (Some (created_room dto userId newId))
  ∧ getRoom (Some newId) st' = (st', inr (created_room dto userId newId))
  ∧ ∀ u, u = userId ∨ u ∈ dto_participantIds dto →
         isUserInRoom (Some newId) u st' = (st', inr true).
Proof.
  intros Hrun Hoid Hfresh.
  destruct (createRoom_cases dto userId newId st)
    as [(E & _)|[(msg & E & _)|(msg & E & _)]]; rewrite Hrun in E; try discriminate.
  injection E as -> ->. split; [done|].
  assert (Hold : Forall (λ room, bool_decide (room__id room = newId) = false) (chatRoomModel st)).
  { apply Forall_forall. intros room Hin. apply bool_decide_eq_false. intros E.
    apply Hfresh. rewrite <- E. by apply list_elem_of_fmap_2. }
  split.
  - rewrite getRoom_run. unfold room_of. rewrite (is_oid_cast _ Hoid). cbn.
    rewrite find_app_fresh; [done|exact Hold|]. by apply bool_decide_eq_true.
  - intros u Hu. rewrite isUserInRoom_run, (is_oid_cast _ Hoid). cbn.
    rewrite find_app_fresh; [by rewrite bool_decide_eq_true_2|..].
    + eapply Forall_impl; [exact Hold|]. cbn. by intros room ->.
    + apply andb_true_intro. split; [by apply bool_decide_eq_true|].
      apply has_participant_created. tauto.
Qed.

Lemma created_room_is_found_witness :
  let dto := Scenario.team_dto ["alice"] in
  let st' := (ChatController.createRoom dto "bob" Scenario.team initial).1 in
  isUserInRoom (Some Scenario.team) "alice" st' = (st', inr true).
Proof.
  intros dto st'.
  refine (proj2 (proj2 (created_room_is_found dto "bob" Scenario.team initial st'
                  (mkHttpResponse 201 "CREATE_USER_SUCCESSFULLY"
                     (Some (created_room dto "bob" Scenario.team))) _ _ _)) "alice" _).
  - vm_compute. reflexivity.
  - reflexivity.
  - apply not_elem_of_nil.
  - right. apply list_elem_of_here.
Defined.


Lemma room_of_elem roomId st room :
  room_of roomId st = Some room → room ∈ chatRoomModel st.
Proof.
  unfold room_of. destruct (castObjectId roomId); [|done]. cbn.
  intros [H _]%find_some. by apply list_elem_of_In.
Qed.

(** An add-participant request that fails changes nothing.  A room id that
    is no ObjectId gives a BadRequest, a room that does not exist NotFound,
    a caller who is no admin or a room that is no GROUP room Unauthorized,
    and what remains (the caller lists their own id, or somebody who is in
    the room already) a Conflict. *)
Theorem add_participant_failure_changes_nothing dto userId st st' e :
  addParticipantToRoom dto userId st = (st', inl e) →
  st' = st
  ∧ match castObjectId (add_roomId dto), room_of (add_roomId dto) st with
    | None, _ => error_kind e = InvalidArgument
    | Some _, None => error_kind e = NotFound
    | Some _, Some room =>
        if decide (userId ∈ room_admins room ∧ room_type room = GROUP)
        then error_kind e = Conflict
             ∧ (userId ∈ add_userIds dto
                ∨ ∃ u, u ∈ add_userIds dto ∧ u ∈ p_userId <$> room_participants room)
        else error_kind e = Unauthorized
    end.
Proof.
  intros Hrun. pose proof (addParticipantToRoom_cases dto userId st) as H. cbn zeta in H.
  rewrite Hrun in H.
  destruct (castObjectId (add_roomId dto)) as [oid|]; [|by injection H as -> ->].
  destruct (room_of (add_roomId dto) st) as [room|];
    [|by destruct H as (msg & [= -> ->])].
  case_decide as Hadmin.
  { destruct H as (msg & [= -> ->]). split; [done|]. rewrite decide_False; [done|tauto]. }
  case_decide as Htype.
  { destruct H as (msg & [= -> ->]). split; [done|]. rewrite decide_False; [done|tauto]. }
  rewrite decide_True by done.
  case_decide as Hself; [destruct H as (msg & [= -> ->]); auto|].
  case_decide as Hdup.
  - destruct H as (msg & [= -> ->]). split; [done|]. split; [done|]. right.
    by apply Exists_exists in Hdup.
  - by destruct H as (l1 & l2 & _ & _ & [=]).
Qed.

Lemma add_participant_failure_changes_nothing_witness :
  Scenario.alone = Scenario.alone
  ∧ error_kind (NotFoundException
                  ("Chat room with ID " +:+ Scenario.other_room +:+ " not found"))
    = NotFound.
Proof.
  apply (add_participant_failure_changes_nothing
           (mkAddParticipantDto Scenario.other_room ["carol"]) "bob" Scenario.alone).
  vm_compute. reflexivity.
Defined.

(** An add-participant request of an admin of a GROUP room, listing
    neither the admin nor anybody who is in the room, is answered 200 with
    the updated room: it is the room [getRoom] finds afterwards, its
    participants are the former ones followed by new ones with status
    REQUEST, the users in it are the former ones and the listed ones, and
    each listed user passes the membership test.  Redis, the sockets and
    the messages are as before. *)
Theorem add_participant_adds dto userId st room :
  room_of (add_roomId dto) st = Some room →
  userId ∈ room_admins room → room_type room = GROUP →
  userId ∉ add_userIds dto →
  (∀ u, u ∈ add_userIds dto → u ∉ p_userId <$> room_participants room) →
  ∃ st' room',
    addParticipantToRoom dto userId st
    = (st', inr (mkHttpResponse 200 "Participant added successfully." (Some room')))
    ∧ getRoom (Some (add_roomId dto)) st' = (st', inr room')
    ∧ room_ext room room'
    ∧ (∀ u, has_participant u room' = true
            ↔ has_participant u room = true ∨ u ∈ add_userIds dto)
    ∧ (∀ u, u ∈ add_userIds dto →
            isUserInRoom (Some (add_roomId dto)) u st' = (st', inr true))
    ∧ rooms_only st st'.
Proof.
  intros Hroom Hadmin Htype Hself Hnew.
  pose proof (addParticipantToRoom_cases dto userId st) as H. cbn zeta in H.
  rewrite Hroom in H. pose proof Hroom as Hroom'. unfold room_of in Hroom'.
  destruct (castObjectId (add_roomId dto)) as [oid|] eqn:Hcast; [|done]. cbn in Hroom'.
  rewrite decide_False in H by tauto. rewrite decide_False in H by tauto.
  rewrite decide_False in H by done.
  rewrite decide_False in H.
  2:{ intros (u & Hu & Hin)%Exists_exists. by apply (Hnew u). }
  destruct H as (l1 & l2 & Hrs & Hl1 & ->).
  set (room' := set_participants _ room). eexists _, room'. split; [reflexivity|].
  assert (Hfind : List.find (λ r, bool_decide (room__id r = oid)) (l1 ++ room' :: l2)
                  = Some room').
  { clear -Hl1 Hroom'. apply find_some in Hroom' as [_ Hid].
    induction Hl1 as [|r l1 Hr _ IH]; cbn.
    - subst room'. cbn. by rewrite Hid.
    - by rewrite bool_decide_eq_false_2. }
  assert (Hhas : ∀ u, has_participant u room' = true
                      ↔ has_participant u room = true ∨ u ∈ add_userIds dto).
  { intros u. unfold has_participant. rewrite !bool_decide_eq_true. subst room'. cbn.
    rewrite fmap_app, elem_of_app, <- list_fmap_compose. cbn. by rewrite list_fmap_id. }
  split; [|split; [|split; [exact Hhas|split; [|done]]]].
  - rewrite getRoom_run, Hcast. unfold room_of. rewrite Hcast. cbn. by rewrite Hfind.
  - eexists. split; [reflexivity|]. split; [by right|].
    apply Forall_fmap, Forall_forall. by intros.
  - intros u Hu. rewrite isUserInRoom_run, Hcast. cbn. f_equal. f_equal.
    apply bool_decide_eq_true.
    clear -Hl1 Hroom' Hhas Hu. apply find_some in Hroom' as [_ Hid].
    induction Hl1 as [|r l1 Hr _ IH]; cbn.
    + rewrite Hid. cbn. rewrite (proj2 (Hhas u)) by auto. by eexists.
    + by rewrite bool_decide_eq_false_2.
Qed.

Lemma add_participant_adds_witness :
  ∃ st' room',
    addParticipantToRoom (mkAddParticipantDto Scenario.team ["carol"]) "bob" Scenario.alone
    = (st', inr (mkHttpResponse 200 "Participant added successfully." (Some room')))
    ∧ isUserInRoom (Some Scenario.team) "carol" st' = (st', inr true).
Proof.
  destruct (add_participant_adds (mkAddParticipantDto Scenario.team ["carol"]) "bob"
              Scenario.alone (created_room (Scenario.team_dto ["alice"]) "bob" Scenario.team))
    as (st' & room' & Hrun & _ & _ & _ & Hin & _).
  - vm_compute. reflexivity.
  - apply list_elem_of_here.
  - reflexivity.
  - intros H%list_elem_of_singleton. discriminate.
  - intros u ->%list_elem_of_singleton. vm_compute.
    intros [H|H]%elem_of_cons; [discriminate|].
    apply elem_of_cons in H as [H|H]; [discriminate|by apply elem_of_nil in H].
  - exists st', room'. split; [exact Hrun|]. apply Hin, list_elem_of_here.
Defined.

(** In every reachable state only the user who created a room gets
    add-participant through for it. *)
Theorem only_the_creator_adds_participants st dto userId st' resp :
  reachable st → addParticipantToRoom dto userId st = (st', inr resp) →
  ∃ room, room_of (add_roomId dto) st = Some room
          ∧ room_created_by room = userId ∧ room_type room = GROUP.
Proof.
  intros Hreach Hrun.
  pose proof (addParticipantToRoom_cases dto userId st) as H. cbn zeta in H.
  rewrite Hrun in H.
  destruct (castObjectId (add_roomId dto)) as [oid|]; [|done].
  destruct (room_of (add_roomId dto) st) as [room|] eqn:Hroom; [|by destruct H as (? & [=])].
  case_decide as Hadmin; [by destruct H as (? & [=])|].
  case_decide as Htype; [by destruct H as (? & [=])|].
  exists room. split; [done|]. split; [|done].
  pose proof (ok_wf _ (reachable_rooms_ok _ Hreach)) as Hwf.
  rewrite Forall_forall in Hwf. specialize (Hwf room (room_of_elem _ _ _ Hroom)).
  rewrite (wf_admins _ Hwf) in Hadmin. by apply list_elem_of_singleton in Hadmin.
Qed.

Lemma only_the_creator_adds_participants_witness :
  ∃ room, room_of Scenario.team Scenario.alone = Some room
          ∧ room_created_by room = "bob" ∧ room_type room = GROUP.
Proof.
  eapply (only_the_creator_adds_participants Scenario.alone
            (mkAddParticipantDto Scenario.team ["carol"]) "bob").
  - exact alone_reachable.
  - vm_compute. reflexivity.
Defined.

(** In every reachable state the creator of a room is its one admin and
    its one participant with status ACCEPT; every other participant has
    status REQUEST: no request moves a participant out of REQUEST. *)
Theorem only_the_creator_is_accepted st room :
  reachable st → room ∈ chatRoomModel st →
  room_admins room = [room_created_by room]
  ∧ has_participant (room_created_by room) room = true
  ∧ ∀ p, p ∈ room_participants room →
         (p_userId p = room_created_by room ∧ p_status p = ACCEPT)
         ∨ (p_userId p ≠ room_created_by room ∧ p_status p = REQUEST).
Proof.
  intros Hreach Hin.
  pose proof (ok_wf _ (reachable_rooms_ok _ Hreach)) as Hwf.
  rewrite Forall_forall in Hwf. destruct (Hwf room Hin) as [W1 W2 W3 _].
  split; [done|]. split.
  - apply bool_decide_eq_true. apply list_elem_of_fmap.
    by exists (mkParticipant (room_created_by room) ACCEPT false).
  - intros p Hp. rewrite Forall_forall in W3. destruct (W3 p Hp) as [->|[? ?]]; auto.
Qed.

Lemma only_the_creator_is_accepted_witness :
  let room := created_room (Scenario.team_dto ["alice"]) "bob" Scenario.team in
  (p_userId (mkParticipant "alice" REQUEST false) = room_created_by room
   ∧ p_status (mkParticipant "alice" REQUEST false) = ACCEPT)
  ∨ (p_userId (mkParticipant "alice" REQUEST false) ≠ room_created_by room
     ∧ p_status (mkParticipant "alice" REQUEST false) = REQUEST).
Proof.
  intros room.
  apply (only_the_creator_is_accepted Scenario.alone room).
  - exact alone_reachable.
  - vm_compute. apply list_elem_of_here.
  - apply list_elem_of_here.
Defined.

(** In every reachable state a SINGLE room has two participants, its
    creator and one other user, and two SINGLE rooms with the same users
    are the same document. *)
Theorem single_rooms_are_unique st i j room1 room2 :
  reachable st →
  chatRoomModel st !! i = Some room1 → chatRoomModel st !! j = Some room2 →
  room_type room1 = SINGLE → room_type room2 = SINGLE →
  (∃ other, other ≠ room_created_by room1
            ∧ p_userId <$> room_participants room1 = [other; room_created_by room1])
  ∧ ((∀ u, has_participant u room1 = true → has_participant u room2 = true) → i = j).
Proof.
  intros Hreach Hi Hj T1 T2.
  destruct (reachable_rooms_ok _ Hreach) as [_ _ Hwf Hsingle].
  rewrite Forall_forall in Hwf.
  destruct (wf_single _ (Hwf room1 (list_elem_of_lookup_2 _ _ _ Hi)) T1) as (other & Hne & Hps).
  split; [by exists other|]. intros Hsame.
  assert (H1 : ∀ u, u = other ∨ u = room_created_by room1 → has_participant u room1 = true).
  { intros u Hu. apply bool_decide_eq_true. rewrite Hps.
    destruct Hu as [->| ->]; [apply list_elem_of_here|].
    apply list_elem_of_further, list_elem_of_here. }
  apply (Hsingle i j room1 room2 other (room_created_by room1)); [done|done|done|..];
    unfold single_between; rewrite ?T1, ?T2, bool_decide_eq_true_2 by done; cbn;
    rewrite ?Hsame, ?H1; auto.
Qed.

Lemma single_rooms_are_unique_witness :
  let st := run [CreateRoom "bob" (mkCreateRoomDto None SINGLE None true ["alice"] [])
                   Scenario.team] initial in
  ∃ other, other ≠ "bob"
           ∧ p_userId <$> room_participants
                            (created_room (mkCreateRoomDto None SINGLE None true ["alice"] [])
                               "bob" Scenario.team)
             = [other; "bob"].
Proof.
  intros st.
  set (room := created_room (mkCreateRoomDto None SINGLE None true ["alice"] []) "bob"
                 Scenario.team).
  refine (proj1 (single_rooms_are_unique st 0 0 room room _ _ _ _ _)).
  - apply reachable_run; [constructor|]. vm_compute. reflexivity.
  - vm_compute. reflexivity.
  - vm_compute. reflexivity.
  - reflexivity.
  - reflexivity.
Defined.

(** Rooms are never deleted and nobody ever leaves one: after any
    sequence of requests, a room that [getRoom] found is still found, with
    the participants it had followed by those added since. *)
Theorem rooms_are_never_deleted st ops roomId room :
  getRoom (Some roomId) st = (st, inr room) →
  ∃ room', getRoom (Some roomId) (run ops st) = (run ops st, inr room')
           ∧ room_ext room room'.
Proof.
  rewrite !getRoom_run. unfold room_of.
  destruct (castObjectId roomId) as [oid|]; [|done]. cbn.
  destruct (List.find _ (chatRoomModel st)) as [room0|] eqn:Hfind; [|done].
  intros [= ->].
  destruct (rooms_grow_find oid _ _ _ (run_rooms_grows ops st) Hfind) as (room' & -> & Hext).
  by exists room'.
Qed.

Lemma rooms_are_never_deleted_witness :
  ∃ room', getRoom (Some Scenario.team) (run [LeaveRoom "c_b"; Disconnect "c_b"] Scenario.alone)
           = (run [LeaveRoom "c_b"; Disconnect "c_b"] Scenario.alone, inr room')
           ∧ room_ext (created_room (Scenario.team_dto ["alice"]) "bob" Scenario.team) room'.
Proof.
  apply (rooms_are_never_deleted Scenario.alone [LeaveRoom "c_b"; Disconnect "c_b"]).
  vm_compute. reflexivity.
Defined.

(** Membership is never revoked: a user who passes the membership test of
    a room passes it after any sequence of requests, leave-room and
    disconnect included. *)
Theorem membership_is_never_revoked st ops roomId userId :
  isUserInRoom (Some roomId) userId st = (st, inr true) →
  isUserInRoom (Some roomId) userId (run ops st) = (run ops st, inr true).
Proof.
  rewrite !isUserInRoom_run. destruct (castObjectId roomId) as [oid|]; [|done].
  intros [= H%bool_decide_eq_true]. f_equal. f_equal. apply bool_decide_eq_true.
  by apply (rooms_grow_find_participant oid userId _ _ (run_rooms_grows ops st)).
Qed.

Lemma membership_is_never_revoked_witness :
  let st' := run [LeaveRoom "c_b"; Disconnect "c_b"] Scenario.alone in
  isUserInRoom (Some Scenario.team) "bob" st' = (st', inr true).
Proof.
  apply (membership_is_never_revoked Scenario.alone [LeaveRoom "c_b"; Disconnect "c_b"]).
  vm_compute. reflexivity.
Defined.

End room_requests.

(** ** A recipient who is connected but in another room, or in none *)

Section elsewhere_recipient.

Import ChatService ChatGateway System.

Section one_message.

Variables (r M : string) (roomClients : option (gset string)).
Hypothesis M_canonical : castObjectId M = Some M.




(** The loop returns, whoever the recipients are. *)
Lemma deliver_loop_returns ps st :
  (forM_ (deliver r M roomClients) ps st).2 = inr tt.
Proof.
  revert st. induction ps as [|x ps IH]; intros st; [done|].
  rewrite forM_cons, bind_run.
  assert ((deliver r M roomClients x st).2 = inr tt) as Hx.
  { unfold deliver. rewrite bind_run, redis_get_run.
    destruct (Js.truthy (redisClient st !! presenceKey x)).
    - rewrite bind_run, gets_run. destruct (sockets st !! _); [|done].
      destruct (bool_decide _).
      + by rewrite bind_run, redis_set_run, updateMessageStatus_run.
      + rewrite !bind_run, redis_set_run. cbn beta iota.
        rewrite bind_run, updateMessageStatus_run by done. cbn beta iota. rewrite bind_run.
        destruct (handleUnreadMessages_returns (Js.str (redisClient st !! presenceKey x))
                    (with_writes (λ w, w ++ [(M, x, DELIVERED)])
                       (with_messages (updateOne M x DELIVERED)
                          (with_redis <[statusKey x r M := status_value DELIVERED]> st))))
          as [resp Hresp].
        destruct (handleUnreadMessages _ _) as [st3 res]. cbn in Hresp. by subst res.
    - by rewrite redis_set_run. }
  destruct (deliver r M roomClients x st) as [st1 res1]. cbn in Hx. subst res1. apply IH.
Qed.

End one_message.

End elsewhere_recipient.

(** ** Connecting *)

Section connecting.

Import ChatService ChatGateway System.

(** A connection whose token verifies is registered: the socket carries
    the identity of the token and no current room, the presence entry of
    that identity names this socket, whatever it named before, and the
    presence entries of all other identities are as they were. *)
Theorem connect_registers cid userId st :
  let res := on_connect cid (Some userId) st in
  res.2 = inr tt
  ∧ sockets res.1 !! cid = Some (mkSocket (Some userId) (Some userId) (Some userId) None)
  ∧ lookup_presence userId res.1 = Some cid
  ∧ (∀ v, v ≠ userId → lookup_presence v res.1 = lookup_presence v st)
  ∧ chatRoomModel res.1 = chatRoomModel st.
Proof.
  intros res. subst res. unfold on_connect, handleConnection, handleConnection_body.
  rewrite bind_run, modify_run. cbn beta iota.
  set (st0 := with_rooms _ _).
  assert (Hc0 : sockets st0 !! cid = Some (mkSocket (Some userId) None None None))
    by (subst st0; cbn; by rewrite lookup_insert_eq).
  rewrite try_catch_bind. unfold ChatAuthGuard.verifyToken.
  rewrite bind_run. unfold getClient. rewrite Hc0. cbn [handshake]. rewrite ret_run.
  cbn beta iota. rewrite try_catch_bind. unfold setClient. rewrite modify_run. cbn beta iota.
  rewrite try_catch_bind, redis_set_run. cbn beta iota.
  set (st2 := with_redis _ _).
  assert (Hc2 : sockets st2 !! cid
                = Some (mkSocket (Some userId) (Some userId) (Some userId) None)).
  { subst st2. unfold with_redis, with_sockets. cbn [sockets].
    by rewrite lookup_alter_eq, Hc0. }
  assert (Hp2 : ∀ v, redisClient st2 !! presenceKey v
                     = if decide (v = userId) then Some cid
                       else redisClient st !! presenceKey v).
  { intros v. subst st2 st0. cbn -[presenceKey]. case_decide as E; [subst; by rewrite lookup_insert_eq|].
    apply lookup_insert_ne. intros E'. by apply presenceKey_inj in E'. }
  pose proof (handleUnreadMessages_quiet (λ _, False) cid st2) as (S3 & C3 & P3 & _).
  destruct (handleUnreadMessages_returns cid st2) as [resp Hresp].
  rewrite try_catch_bind.
  destruct (handleUnreadMessages cid st2) as [st3 res]. cbn in Hresp, S3, C3, P3. subst res.
  rewrite try_catch_run, ret_run. cbn [fst snd].
  split; [done|]. split; [by rewrite S3|]. unfold lookup_presence. split; [|split].
  - by rewrite P3, Hp2, decide_True.
  - intros v Hv. by rewrite P3, Hp2, decide_False.
  - by rewrite C3.
Qed.

(** A connection whose token does not verify is dropped: the socket is
    gone, and Redis and the two collections are as they were. *)
Theorem connect_without_token_is_dropped cid st :
  let res := on_connect cid None st in
  res.2 = inr tt
  ∧ sockets res.1 !! cid = None
  ∧ (∀ c, c ≠ cid → sockets res.1 !! c = sockets st !! c)
  ∧ redisClient res.1 = redisClient st
  ∧ chatRoomModel res.1 = chatRoomModel st
  ∧ messageModel res.1 = messageModel st.
Proof.
  intros res. subst res. unfold on_connect, handleConnection, handleConnection_body.
  rewrite bind_run, modify_run. cbn beta iota.
  set (st0 := with_rooms _ _).
  assert (Hc0 : sockets st0 !! cid = Some (mkSocket None None None None))
    by (subst st0; cbn; by rewrite lookup_insert_eq).
  rewrite try_catch_bind. unfold ChatAuthGuard.verifyToken.
  rewrite bind_run. unfold getClient. rewrite Hc0. cbn [handshake]. rewrite throw_run.
  unfold disconnect. rewrite bind_run. unfold getClient. rewrite Hc0. cbn beta iota.
  unfold forget_socket, handleDisconnect. rewrite bind_run, modify_run. cbn.
  split; [done|]. split; [apply lookup_delete_eq|]. split; [|done].
  intros c Hc. rewrite lookup_delete_ne by done. by apply lookup_insert_ne.
Qed.

End connecting.

(** ** Sending *)

Section sending.

Import ChatService ChatGateway System.

Lemma find_none_all {A} (f : A → bool) (l : list A) :
  (∀ x, x ∈ l → f x = false) → List.find f l = None.
Proof.
  induction l as [|y l IH]; intros H; [done|]. cbn.
  rewrite (H y) by apply list_elem_of_here. apply IH. intros x Hx. apply H. by right.
Qed.


Lemma apart_reachable : reachable Examples.apart.
Proof. apply reachable_run; [constructor|]. vm_compute. reflexivity. Qed.

Lemma apart_can_send :
  ∃ room, can_send "c_b" "bob" Scenario.team "hi" room Examples.apart
          ∧ "alice" ∈ p_userId <$> room_participants room.
Proof.
  eexists. split; [split; [|split; [|split]]|].
  - eexists. split; [vm_compute; reflexivity|]. split; reflexivity.
  - vm_compute. reflexivity.
  - cbn. apply list_elem_of_further, list_elem_of_here.
  - reflexivity.
  - cbn. apply list_elem_of_here.
Defined.



(** A send that goes through saves one message, at the end of the
    collection: it carries the room, the body, the sender and a receiver
    entry for every participant of the room other than the sender, so the
    sender has no receipt on it.  The older messages keep their place and
    their content; their receipts stay or move to a status other than
    SENT. *)
Theorem send_saves_one_message st cid sender r message room newId now :
  reachable st → can_send cid sender r message room st →
  is_oid newId = true → newId ∉ msg__id <$> messageModel st →
  ∃ st' older m,
    handleSendMessage message cid newId now st = (st', inr Sent)
    ∧ messageModel st' = older ++ [m]
    ∧ msgs_upd (λ _ s, s ≠ SENT) (messageModel st) older
    ∧ msg__id m = newId ∧ msg_room_id m = r ∧ msg_message m = message
    ∧ msg_sender_id m = sender ∧ msg_createdAt m = now
    ∧ rcv_userId <$> msg_receivers m
      = filter (λ u, u ≠ sender) (p_userId <$> room_participants room)
    ∧ receipt newId sender (messageModel st') = None.
Proof.
  intros Hreach Hsend Hoid Hfresh.
  pose proof (reachable_invariant _ Hreach) as Hi.
  pose proof (can_send_sender_truthy _ _ _ _ _ _ Hi Hsend) as Hsender.
  set (participants := filter (λ u, u ≠ sender) (p_userId <$> room_participants room)).
  set (saved := mkMessage newId r message sender
                  ((λ u, mkReceiver u SENT false) <$> participants)
                  true now sender sender false).
  set (st1 := with_messages (λ ms, ms ++ [saved]) st).
  pose proof (deliver_loop_returns r newId (rooms st !! r) (is_oid_cast _ Hoid)
                participants st1) as Hres.
  pose proof (forM_deliver_quiet r newId (rooms st !! r) participants st1)
    as (_ & _ & _ & _ & Hupd).
  pose proof (handleSendMessage_run cid sender r message room newId now st Hsend Hsender Hres)
    as Hrun.
  fold participants saved st1 in Hrun.
  set (st' := (forM_ (deliver r newId (rooms st !! r)) participants st1).1) in *.
  change (messageModel st1) with (messageModel st ++ [saved]) in Hupd.
  apply Forall2_app_inv_l in Hupd as (older & new & Hold & Hnew & Hst').
  inversion Hnew as [|? m ? l' Hm Hnil]; subst. inversion Hnil; subst.
  exists st', older, m. split; [done|]. split; [done|]. split; [done|].
  destruct Hm as [Hm Hrcv]. rewrite Hm. cbn.
  do 5 (split; [done|]).
  assert (Husers : rcv_userId <$> msg_receivers m = participants).
  { rewrite (rcvs_upd_users _ _ _ Hrcv). cbn. rewrite <- list_fmap_compose.
    apply list_fmap_id. }
  split; [done|].
  rewrite Hst', receipt_unfold.
  assert (Hids : msg__id <$> older = msg__id <$> messageModel st) by (by eapply msgs_upd_ids).
  assert (Hnone : List.find (λ m0, bool_decide (msg__id m0 = newId) && has_receiver sender m0)
                    (older ++ [m]) = None); [|by rewrite Hnone].
  apply find_none_all. intros x Hx. apply elem_of_app in Hx as [Hx|Hx].
  - rewrite bool_decide_eq_false_2; [done|]. intros E. apply Hfresh. rewrite <- Hids, <- E.
    by apply list_elem_of_fmap_2.
  - apply list_elem_of_singleton in Hx as ->. apply andb_false_iff. right.
    apply bool_decide_eq_false. rewrite Husers. subst participants.
    intros [? _]%list_elem_of_filter. done.
Qed.

Lemma send_saves_one_message_witness :
  ∃ st' older m,
    handleSendMessage "hi" "c_b" Scenario.hi 1 Examples.apart = (st', inr Sent)
    ∧ messageModel st' = older ++ [m]
    ∧ msg_message m = "hi"
    ∧ rcv_userId <$> msg_receivers m = ["alice"]
    ∧ receipt Scenario.hi "bob" (messageModel st') = None.
Proof.
  destruct apart_can_send as (room & Hsend & Hp).
  destruct (send_saves_one_message Examples.apart "c_b" "bob" Scenario.team "hi"
              (created_room (Scenario.team_dto ["alice"]) "bob" Scenario.team) Scenario.hi 1)
    as (st' & older & m & Hrun & Hms & _ & _ & _ & Hbody & _ & _ & Hrcv & Hnone).
  - exact apart_reachable.
  - split; [|split; [|split]].
    + eexists. split; [vm_compute; reflexivity|]. split; reflexivity.
    + vm_compute. reflexivity.
    + cbn. apply list_elem_of_further, list_elem_of_here.
    + reflexivity.
  - reflexivity.
  - apply hi_fresh. reflexivity.
  - exists st', older, m. repeat split; try done.
Defined.


(** A send that is not answered [sent] leaves no trace: the state is the
    one it started in, and the answer is a failure.  A connection without
    a current room is told so. *)
Theorem refused_send_leaves_no_trace message cid newId now st st' resp :
  is_oid newId = true →
  handleSendMessage message cid newId now st = (st', resp) →
  (resp = inr Sent ∨ (st' = st ∧ ∃ msg, resp = inr (Failure msg)))
  ∧ (∀ client, sockets st !! cid = Some client → Js.truthy (sock_roomId client) = false →
               st' = st ∧ resp = inr (Failure "You are not in a room")).
Proof.
  intros Hoid Hrun. unfold handleSendMessage in Hrun.
  rewrite try_catch_run, bind_run in Hrun. unfold getClient in Hrun.
  destruct (sockets st !! cid) as [client|] eqn:Hc.
  2:{ cbn in Hrun. injection Hrun as <- <-. split; [right; eauto|]. by intros ? [=]. }
  cbn beta iota in Hrun.
  destruct (Js.truthy (sock_roomId client)) eqn:Hr; cbn [negb] in Hrun.
  2:{ rewrite ret_run in Hrun. injection Hrun as <- <-. split; [right; eauto|].
      by intros ? [= <-] _. }
  split; [|intros ? [= <-]; congruence].
  rewrite bind_run in Hrun. unfold user_sub in Hrun.
  destruct (sock_user client) as [sender|].
  2:{ rewrite throw_run in Hrun. cbn in Hrun. injection Hrun as <- <-. right; eauto. }
  rewrite ret_run in Hrun. cbn beta iota in Hrun. rewrite bind_run in Hrun.
  pose proof (preserves_getRoom (R:=eq) (sock_roomId client) st) as Hg.
  destruct (getRoom (sock_roomId client) st) as [st1 [e|room]]; cbn in Hg; subst st1.
  { cbn in Hrun. injection Hrun as <- <-. right; eauto. }
  cbn beta iota in Hrun. rewrite bind_run in Hrun.
  pose proof (preserves_isUserInRoom (R:=eq) (sock_roomId client) sender st) as Hg.
  destruct (isUserInRoom (sock_roomId client) sender st) as [st1 [e|[|]]];
    cbn in Hg; subst st1; cbn beta iota in Hrun.
  { cbn in Hrun. injection Hrun as <- <-. right; eauto. }
  2:{ cbn [negb] in Hrun. rewrite ret_run in Hrun. injection Hrun as <- <-. right; eauto. }
  cbn [negb] in Hrun. rewrite bind_run in Hrun.
  destruct (saveMessage _ _ _ _ _ _ st) as [st1 [e|saved]] eqn:Hsave.
  { apply saveMessage_throws in Hsave as ->. cbn in Hrun. injection Hrun as <- <-.
    right; eauto. }
  apply saveMessage_state in Hsave as (Hid & -> & _).
  cbn beta iota in Hrun. rewrite bind_run, gets_run in Hrun. cbn beta iota in Hrun.
  rewrite bind_run, Hid in Hrun.
  match type of Hrun with context [forM_ ?f ?l ?s] =>
    pose proof (deliver_loop_returns (Js.str (sock_roomId client)) newId
                  (rooms s !! Js.str (sock_roomId client)) (is_oid_cast _ Hoid) l s) as Hret;
    destruct (forM_ f l s) as [st2 res] end.
  cbn in Hret. subst res. rewrite ret_run in Hrun. injection Hrun as <- <-. by left.
Qed.

Lemma refused_send_leaves_no_trace_witness :
  (handleSendMessage "hi" "c_a" Scenario.hi 1 Examples.apart).1 = Examples.apart
  ∧ (handleSendMessage "hi" "c_a" Scenario.hi 1 Examples.apart).2
    = inr (Failure "You are not in a room").
Proof.
  refine (proj2 (refused_send_leaves_no_trace "hi" "c_a" Scenario.hi 1 Examples.apart
                   _ _ eq_refl _)
            (mkSocket (Some "alice") (Some "alice") (Some "alice") None) _ eq_refl).
  - apply surjective_pairing.
  - vm_compute. reflexivity.
Defined.

End sending.

(** ** Joining and leaving *)

Section joining.

Import ChatService ChatGateway System.

Lemma room_of_same r st st' :
  chatRoomModel st' = chatRoomModel st → room_of r st' = room_of r st.
Proof. unfold room_of. by intros ->. Qed.

(** With unique room ids, a user who is not listed in the room is not in
    it. *)
Lemma room_of_not_in_room r room u st :
  NoDup (room__id <$> chatRoomModel st) →
  room_of r st = Some room → u ∉ p_userId <$> room_participants room →
  isUserInRoom (Some r) u st = (st, inr false).
Proof.
  intros Hnd Hroom Hu. rewrite isUserInRoom_run. unfold room_of in Hroom.
  destruct (castObjectId r) as [oid|]; [|done]. cbn in Hroom.
  f_equal. f_equal. apply bool_decide_eq_false. intros [room' Hfind].
  apply find_some in Hfind as [Hin' [Hid' Hhas]%andb_prop].
  apply find_some in Hroom as [Hin Hid].
  apply bool_decide_eq_true in Hid, Hid', Hhas.
  apply list_elem_of_In, list_elem_of_lookup in Hin as [i Hi], Hin' as [j Hj].
  assert (i = j).
  { eapply NoDup_lookup; [exact Hnd| |]; rewrite list_lookup_fmap.
    - by rewrite Hi.
    - rewrite Hj. cbn. congruence. }
  subst j. rewrite Hi in Hj. injection Hj as <-. done.
Qed.

(** A join by a participant of the room goes through.  Afterwards the
    socket is in the room and has it as its current room.  On every
    message of the room that lists the user among its receivers, the
    receipt of the user is SEEN, where the receipt is the first receiver
    entry with the id of the user, the one [find] reads and
    ['receivers.$'] writes; a second entry of the same user is not
    looked at.  In the message collection nothing changed but receiver
    entries of that user, and they changed to SEEN. *)
Theorem join_subscribes_and_marks_seen st cid client u r room :
  reachable st → sockets st !! cid = Some client → sock_user client = Some u →
  room_of r st = Some room → u ∈ p_userId <$> room_participants room →
  ∃ st',
    handleJoinRoom r cid st = (st', inr (Joined "Room joined successfully." r))
    ∧ cid ∈ default ∅ (rooms st' !! r)
    ∧ sockets st' !! cid = Some (set_userId u (set_roomId r client))
    ∧ (∀ m, m ∈ messageModel st → msg_room_id m = r → has_receiver u m = true →
            receipt (msg__id m) u (messageModel st') = Some SEEN)
    ∧ (∀ m s, m ∈ messageModel st' → msg_room_id m = r → receipt_in u m = Some s →
              s = SEEN)
    ∧ msgs_upd (λ x s, x = u ∧ s = SEEN) (messageModel st) (messageModel st').
Proof.
  intros Hreach Hc Hu Hroom Hin.
  pose proof (inv_messages _ (reachable_invariant _ Hreach)) as Hok.
  unfold handleJoinRoom. rewrite try_catch_bind.
  unfold getClient. rewrite Hc. cbn beta iota.
  rewrite try_catch_bind. unfold user_sub. rewrite Hu, ret_run. cbn beta iota.
  rewrite try_catch_bind. unfold setClient. rewrite modify_run. cbn beta iota.
  set (st1 := with_sockets _ st).
  rewrite try_catch_bind, (room_of_getRoom r room st1) by exact Hroom. cbn beta iota.
  rewrite try_catch_bind, (room_of_isUserInRoom r room u st1) by done.
  cbn beta iota. cbn [negb].
  rewrite try_catch_bind. unfold client_join. rewrite modify_run. cbn beta iota.
  rewrite try_catch_bind, redis_del_run. cbn beta iota.
  set (st3 := with_redis _ _).
  assert (Hc3 : sockets st3 !! cid = Some (set_userId u (set_roomId r client))).
  { subst st3 st1. unfold with_redis, with_rooms, with_sockets. cbn [sockets].
    by rewrite lookup_alter_eq, Hc. }
  destruct (load_marks_seen st3 cid _ u r Hok Hc3 eq_refl eq_refl) as (Hrun & Hseen & Hupd).
  { intros ->. by apply room_of_truthy in Hroom. }
  rewrite try_catch_bind, Hrun. cbn beta iota. rewrite try_catch_run, ret_run.
  eexists. split; [reflexivity|].
  set (st' := foldl _ st3 _) in *.
  pose proof (handleLoadMessages_quiet (λ _, False) cid st3) as (S4 & _).
  rewrite Hrun in S4. cbn [fst] in S4.
  assert (R4 : rooms st' = rooms st3).
  { subst st'. generalize (List.filter (is_unread (Some u))
      (merge_sort createdAt_le (filter (λ m, msg_room_id m = r) (messageModel st3)))).
    intros l. generalize st3. induction l as [|m l IH]; intros s; [done|].
    cbn -[mark_seen]. by rewrite IH. }
  split; [|split; [by rewrite S4|split; [|by split]]].
  - rewrite R4. clear. subst st3 st1. unfold with_redis, with_rooms, with_sockets.
    cbn [rooms]. rewrite lookup_insert_eq.
    change (cid ∈ {[cid]} ∪ default ∅ (rooms st !! r)).
    apply elem_of_union_l. by apply elem_of_singleton.
  - exact (seen_receipts _ u r _ _ (proj1 Hok) Hupd Hseen).
Qed.

(** alice left the room and bob has sent a message since, which she has as
    DELIVERED; she joins again, and has it as SEEN. *)
Lemma join_subscribes_and_marks_seen_witness :
  receipt Scenario.hi "alice" (messageModel Runs.left) = Some DELIVERED
  ∧ ∃ st',
      handleJoinRoom Scenario.team "c_a" Runs.left
      = (st', inr (Joined "Room joined successfully." Scenario.team))
      ∧ "c_a" ∈ default ∅ (rooms st' !! Scenario.team)
      ∧ receipt Scenario.hi "alice" (messageModel st') = Some SEEN.
Proof.
  split; [vm_compute; reflexivity|].
  assert (Hm : ∃ m, messageModel Runs.left = [m] ∧ msg__id m = Scenario.hi
                    ∧ msg_room_id m = Scenario.team ∧ has_receiver "alice" m = true).
  { eexists. split; [vm_compute; reflexivity|]. split; [reflexivity|].
    split; [reflexivity|]. vm_compute. reflexivity. }
  destruct Hm as (m & Hms & Hid & Hroom & Hhas).
  destruct (join_subscribes_and_marks_seen Runs.left "c_a"
              (mkSocket (Some "alice") (Some "alice") (Some "alice") (Some Scenario.team))
              "alice" Scenario.team
              (created_room (Scenario.team_dto ["alice"]) "bob" Scenario.team))
    as (st' & Hrun & Hin & _ & Hseen & _).
  - apply reachable_run; [constructor|]. vm_compute. reflexivity.
  - vm_compute. reflexivity.
  - reflexivity.
  - vm_compute. reflexivity.
  - apply list_elem_of_here.
  - exists st'. split; [exact Hrun|]. split; [exact Hin|].
    rewrite <- Hid. apply Hseen; [|exact Hroom|exact Hhas].
    rewrite Hms. apply list_elem_of_here.
Defined.


(** A join that is refused subscribes nobody: the socket is put in no
    room, and Redis and the two collections are as before.  A room that
    does not exist, or a room id that is no ObjectId, is answered with the
    general failure; a user who is not listed in the room is told so. *)
Theorem refused_join_subscribes_nobody st cid client u r :
  reachable st → sockets st !! cid = Some client → sock_user client = Some u →
  (∀ room, room_of r st = Some room → u ∉ p_userId <$> room_participants room) →
  let res := handleJoinRoom r cid st in
  res.2 = inr (Failure match room_of r st with
                       | Some _ => "You are not authorized to join this room"
                       | None => "An error occurred while joining the room"
                       end)
  ∧ rooms res.1 = rooms st ∧ redisClient res.1 = redisClient st
  ∧ messageModel res.1 = messageModel st ∧ chatRoomModel res.1 = chatRoomModel st.
Proof.
  intros Hreach Hc Hu Hout res. subst res.
  pose proof (ok_ids _ (reachable_rooms_ok _ Hreach)) as Hnd.
  unfold handleJoinRoom. rewrite try_catch_bind.
  unfold getClient. rewrite Hc. cbn beta iota.
  rewrite try_catch_bind. unfold user_sub. rewrite Hu, ret_run. cbn beta iota.
  rewrite try_catch_bind. unfold setClient. rewrite modify_run. cbn beta iota.
  set (st1 := with_sockets _ st).
  assert (Hsame : room_of r st1 = room_of r st) by (by apply room_of_same).
  rewrite try_catch_bind, getRoom_run, Hsame.
  destruct (castObjectId r) as [oid|] eqn:Hcast.
  2:{ assert (room_of r st = None) as -> by (unfold room_of; by rewrite Hcast).
      cbn. done. }
  destruct (room_of r st) as [room|] eqn:Hroom; [|cbn; done].
  cbn beta iota. rewrite try_catch_bind.
  rewrite (room_of_not_in_room r room u st1); [cbn; done|exact Hnd| |by apply Hout].
  by rewrite Hsame.
Qed.

Lemma refused_join_subscribes_nobody_witness :
  (handleJoinRoom Scenario.team "c_e" Scenario.eve_connected).2
  = inr (Failure "You are not authorized to join this room")
  ∧ rooms (handleJoinRoom Scenario.team "c_e" Scenario.eve_connected).1
    = rooms Scenario.eve_connected.
Proof.
  destruct (refused_join_subscribes_nobody Scenario.eve_connected "c_e"
              (mkSocket (Some "eve") (Some "eve") (Some "eve") None) "eve" Scenario.team)
    as (Hres & Hrooms & _).
  - apply reachable_run; [constructor|]. vm_compute. reflexivity.
  - vm_compute. reflexivity.
  - reflexivity.
  - intros room Hroom. vm_compute in Hroom. injection Hroom as <-. vm_compute.
    intros [H|H]%elem_of_cons; [discriminate|].
    apply elem_of_cons in H as [H|H]; [discriminate|by apply elem_of_nil in H].
  - split; [exact Hres|exact Hrooms].
Defined.

(** A leave by a participant is two steps: [client.leave], which takes the
    socket out of the room, and then the unread summary of the
    connection; the delete in between removes nothing.  [client.leave]
    changes the room table only, and there only the membership of this
    socket in this room.  The unread summary changes what [unread_rel]
    allows: entries of the scan of the user that were SENT or DELIVERED
    are DELIVERED, and receiver entries of the user have been set to
    DELIVERED.  The socket table is as before, so the socket keeps the
    room as its current room, and the connection can go on sending to the
    room it left. *)
Theorem leave_room_keeps_current_room st cid client u r room :
  reachable st → sockets st !! cid = Some client → sock_user client = Some u →
  sock_roomId client = Some r →
  room_of r st = Some room → u ∈ p_userId <$> room_participants room →
  let out := (client_leave cid r st).1 in
  let st' := (handleUnreadMessages cid out).1 in
  handleLeaveRoom cid st = (st', inr (Success "Room left successfully."))
  ∧ (redisClient out = redisClient st ∧ sockets out = sockets st
     ∧ chatRoomModel out = chatRoomModel st ∧ messageModel out = messageModel st
     ∧ writes out = writes st)
  ∧ (∀ c r', c ∈ default ∅ (rooms out !! r')
             ↔ c ∈ default ∅ (rooms st !! r') ∧ ¬ (c = cid ∧ r' = r))
  ∧ unread_rel (sock_userId client)
      (λ k, String.prefix (statusPrefix (Js.str (sock_userId client))) k = true) out st'
  ∧ sockets st' = sockets st
  ∧ (cid ∉ default ∅ (rooms st' !! r))
  ∧ ∀ message newId now,
      Js.truthy (Some message) = true → is_oid newId = true →
      (handleSendMessage message cid newId now st').2 = inr Sent.
Proof.
  intros Hreach Hc Hu Hr Hroom Hin out st'.
  pose proof (reachable_invariant _ Hreach) as Hi.
  assert (Hout0 : out = with_rooms (λ rs,
            match rs !! r with
            | Some members =>
                let members' := members ∖ {[cid]} in
                if decide (members' = ∅) then delete r rs else <[r := members']> rs
            | None => rs
            end) st) by (subst out; unfold client_leave; by rewrite modify_run).
  assert (Hrooms : ∀ c r', c ∈ default ∅ (rooms out !! r')
                           ↔ c ∈ default ∅ (rooms st !! r') ∧ ¬ (c = cid ∧ r' = r)).
  { intros c r'. rewrite Hout0. unfold with_rooms. cbn [rooms].
    destruct (rooms st !! r) as [members|] eqn:Hm.
    - cbn zeta. destruct (decide (r' = r)) as [->|Hne].
      + rewrite Hm. case_decide as He.
        * rewrite lookup_delete_eq.
          change (c ∈ (∅ : gset string) ↔ c ∈ members ∧ ¬ (c = cid ∧ r = r)). split.
          -- by intros ?%elem_of_empty.
          -- intros [Hcm Hn]. exfalso. apply Hn. split; [|done].
             destruct (decide (c = cid)) as [|Hcc]; [done|].
             assert (c ∈ members ∖ {[cid]}) as Hd
               by (apply elem_of_difference; split; [done|by rewrite elem_of_singleton]).
             rewrite He in Hd. by apply elem_of_empty in Hd.
        * rewrite lookup_insert_eq.
          change (c ∈ members ∖ {[cid]} ↔ c ∈ members ∧ ¬ (c = cid ∧ r = r)).
          rewrite elem_of_difference, elem_of_singleton. intuition congruence.
      + case_decide as He.
        * rewrite lookup_delete_ne by done. intuition congruence.
        * rewrite lookup_insert_ne by done. intuition congruence.
    - split; [|intuition congruence]. intros Hcr. split; [done|]. intros [-> ->].
      rewrite Hm in Hcr. by apply elem_of_empty in Hcr. }
  assert (Hkeys : keys_ok out).
  { intros k. rewrite Hout0. apply (inv_keys _ Hi). }
  unfold handleLeaveRoom. rewrite bind_run. unfold getClient. rewrite Hc. cbn beta iota.
  rewrite bind_run. unfold user_sub. rewrite Hu, ret_run. cbn beta iota. rewrite Hr.
  rewrite try_catch_bind, (room_of_getRoom r room st) by exact Hroom. cbn beta iota.
  rewrite try_catch_bind, (room_of_isUserInRoom r room u st) by done.
  cbn beta iota. cbn [negb]. change (Js.str (Some r)) with r.
  rewrite try_catch_bind.
  assert (Eleave : client_leave cid r st = (out, inr ()))
    by (unfold out, client_leave; by rewrite modify_run).
  rewrite Eleave. cbn beta iota. rewrite try_catch_bind.
  pose proof (redis_del_absent (statusWildcard u r) out (wildcard_absent out u r Hkeys))
    as Hdel.
  rewrite redis_del_run in Hdel |- *. cbn [fst] in Hdel. rewrite Hdel. cbn beta iota.
  destruct (handleUnreadMessages_rel cid out) as (U & HU & Hrel).
  assert (Hcl : sockets out !! cid = Some client) by (by rewrite Hout0).
  rewrite (HU client Hcl) in Hrel. fold st' in Hrel.
  destruct (handleUnreadMessages_returns cid out) as [resp Hresp].
  rewrite try_catch_bind, (surjective_pairing (handleUnreadMessages cid out)), Hresp.
  fold st'. cbn beta iota. rewrite try_catch_run, ret_run.
  split; [reflexivity|]. split; [by rewrite Hout0|]. split; [exact Hrooms|].
  split; [exact Hrel|].
  destruct Hrel as (S3 & R3 & C3 & _).
  assert (S' : sockets st' = sockets st) by (by rewrite S3, Hout0).
  split; [exact S'|]. split.
  { rewrite R3. intros [_ Hn]%Hrooms. by apply Hn. }
  intros message newId now Hmsg Hoid.
  assert (Hsend : can_send cid u r message room st').
  { split; [|split; [|split]]; [| |done|done].
    - exists client. by rewrite S'.
    - rewrite (room_of_same r out st') by exact C3.
      rewrite (room_of_same r st out); [done|by rewrite Hout0]. }
  assert (Hsender : Js.truthy (Some u) = true).
  { destruct (inv_sockets _ Hi _ _ Hc) as (_ & H1 & H2 & _).
    specialize (H1 _ (H2 _ Hu)). unfold identity_ok in H1.
    by apply andb_prop in H1 as [[? _]%andb_prop _]. }
  rewrite (handleSendMessage_run cid u r message room newId now st' Hsend Hsender); [done|].
  apply deliver_loop_returns. by apply is_oid_cast.
Qed.

(** alice is in the room when bob sends a message, and her scan returns
    the entry of [alice:x], which is SENT.  She leaves: her socket is out
    of the room, the entry is DELIVERED, and she can still send. *)
Lemma leave_room_keeps_current_room_witness :
  let st := Scenario.shadow in
  let st' := (handleUnreadMessages "c_a" (client_leave "c_a" Scenario.team st).1).1 in
  let key := statusKey "alice:x" Scenario.team Scenario.hi in
  handleLeaveRoom "c_a" st = (st', inr (Success "Room left successfully."))
  ∧ "c_a" ∈ default ∅ (rooms st !! Scenario.team)
  ∧ ("c_a" ∉ default ∅ (rooms st' !! Scenario.team))
  ∧ redisClient st !! key = Some "SENT"
  ∧ redisClient st' !! key = Some "DELIVERED"
  ∧ (handleSendMessage "hello" "c_a" Scenario.hello 2 st').2 = inr Sent.
Proof.
  intros st st' key.
  destruct (leave_room_keeps_current_room st "c_a"
              (mkSocket (Some "alice") (Some "alice") (Some "alice") (Some Scenario.team))
              "alice" Scenario.team
              (created_room (Scenario.team_dto ["alice"; "alice:x"]) "bob" Scenario.team))
    as (Hrun & _ & _ & _ & _ & Hout & Hsend).
  - apply reachable_run; [constructor|]. vm_compute. reflexivity.
  - vm_compute. reflexivity.
  - reflexivity.
  - reflexivity.
  - vm_compute. reflexivity.
  - apply list_elem_of_here.
  - split; [exact Hrun|].
    split; [apply (bool_decide_unpack _); vm_compute; exact I|].
    split; [exact Hout|].
    split; [vm_compute; reflexivity|]. split; [vm_compute; reflexivity|].
    apply Hsend; reflexivity.
Defined.

End joining.

(** ** Loading and counting, again and together *)

Section loading_and_counting.

Import ChatService ChatGateway System.

Lemma mark_all_sockets u r l st :
  sockets (foldl (λ st m, mark_seen u r m st) st l) = sockets st.
Proof. revert st. induction l as [|m l IH]; intros st; [done|]. cbn -[mark_seen]. by rewrite IH. Qed.

Lemma mark_all_redis u r l st k :
  redisClient (foldl (λ st m, mark_seen u r m st) st l) !! k
  = if decide (k ∈ (λ m, statusKey u r (msg__id m)) <$> l) then None
    else redisClient st !! k.
Proof.
  revert st. induction l as [|m l IH]; intros st; [done|].
  cbn -[mark_seen statusKey]. rewrite IH. clear IH.
  destruct (decide (k ∈ (λ m0, statusKey u r (msg__id m0)) <$> l)) as [Hin|Hout].
  - rewrite decide_True; [done|by right].
  - destruct (decide (k = statusKey u r (msg__id m))) as [->|Hne].
    + rewrite decide_True by (by left). cbn -[statusKey]. apply lookup_delete_eq.
    + rewrite decide_False.
      * cbn -[statusKey]. by apply lookup_delete_ne.
      * intros [?|?]%elem_of_cons; done.
Qed.

Lemma messages_ok_upd P st st' :
  msgs_upd P (messageModel st) (messageModel st') → messages_ok st → messages_ok st'.
Proof. intros H [H1 H2]. split; by rewrite (msgs_upd_ids _ _ _ H). Qed.

(** Loading twice: a second load-messages changes nothing at all.  It
    answers with the messages of the room as the first load left them,
    and on none of them the receipt of the user, which is the user's
    first receiver entry, is anything but SEEN. *)
Theorem load_messages_is_idempotent st cid client u r :
  reachable st → sockets st !! cid = Some client →
  sock_userId client = Some u → sock_roomId client = Some r → r ≠ "" →
  let st' := (handleLoadMessages cid st).1 in
  let messages := merge_sort createdAt_le
                    (filter (λ m, msg_room_id m = r) (messageModel st')) in
  handleLoadMessages cid st' = (st', inr (Messages messages))
  ∧ (∀ m s, m ∈ messages → receipt_in u m = Some s → s = SEEN)
  ∧ (∀ m, m ∈ messageModel st → msg_room_id m = r → has_receiver u m = true →
          receipt (msg__id m) u (messageModel st') = Some SEEN).
Proof.
  intros Hreach Hc Hu Hr Hne st'.
  pose proof (inv_messages _ (reachable_invariant _ Hreach)) as Hok.
  destruct (load_marks_seen st cid client u r Hok Hc Hu Hr Hne) as (Hrun & Hseen & Hupd).
  subst st'. rewrite Hrun. cbn [fst].
  set (st' := foldl _ st _) in *.
  assert (Hc' : sockets st' !! cid = Some client) by (subst st'; by rewrite mark_all_sockets).
  assert (Hok' : messages_ok st') by (by eapply messages_ok_upd).
  destruct (load_marks_seen st' cid client u r Hok' Hc' Hu Hr Hne) as (Hrun' & _).
  cbn zeta.
  set (messages := merge_sort createdAt_le
                     (filter (λ m, msg_room_id m = r) (messageModel st'))) in *.
  assert (Hall : ∀ m s, m ∈ messages → receipt_in u m = Some s → s = SEEN).
  { intros m s Hm Hs. subst messages. rewrite merge_sort_Permutation in Hm.
    apply list_elem_of_filter in Hm as [Hroom Hm]. by apply (Hseen m s). }
  assert (Hnil : List.filter (is_unread (Some u)) messages = []).
  { destruct (List.filter (is_unread (Some u)) messages) as [|m l] eqn:E; [done|].
    assert (In m (List.filter (is_unread (Some u)) messages)) as Hm by (rewrite E; by left).
    apply filter_In in Hm as [Hm Hun]. apply is_unread_spec in Hun as (s & Hs & Hns).
    apply list_elem_of_In in Hm. by rewrite (Hall m s Hm Hs) in Hns. }
  rewrite Hnil in Hrun'. split; [exact Hrun'|]. split; [exact Hall|].
  exact (seen_receipts _ u r _ _ (proj1 Hok) Hupd Hseen).
Qed.

(** alice has the message bob sent as DELIVERED.  Her first load marks it
    SEEN; her second load answers with that one message and changes
    nothing. *)
Lemma load_messages_is_idempotent_witness :
  let st' := (handleLoadMessages "c_a" Runs.left).1 in
  receipt Scenario.hi "alice" (messageModel Runs.left) = Some DELIVERED
  ∧ receipt Scenario.hi "alice" (messageModel st') = Some SEEN
  ∧ ∃ messages, handleLoadMessages "c_a" st' = (st', inr (Messages messages))
                ∧ length messages = 1.
Proof.
  intros st'.
  split; [vm_compute; reflexivity|]. split; [vm_compute; reflexivity|].
  destruct (load_messages_is_idempotent Runs.left "c_a"
              (mkSocket (Some "alice") (Some "alice") (Some "alice") (Some Scenario.team))
              "alice" Scenario.team) as (Hrun & _).
  - apply reachable_run; [constructor|]. vm_compute. reflexivity.
  - vm_compute. reflexivity.
  - reflexivity.
  - reflexivity.
  - discriminate.
  - eexists. split; [exact Hrun|]. vm_compute. reflexivity.
Defined.

(** Load-messages clears what it marks, and no more.  For each message of
    the room on which the receipt of the user (the user's first receiver
    entry) was not SEEN, the index entry of the user for that room and
    message is gone afterwards; every other Redis key has the value it
    had. *)
Theorem load_messages_clears_entries st cid client u r :
  reachable st → sockets st !! cid = Some client →
  sock_userId client = Some u → sock_roomId client = Some r → r ≠ "" →
  let st' := (handleLoadMessages cid st).1 in
  let marked m := m ∈ messageModel st ∧ msg_room_id m = r
                  ∧ ∃ s, receipt_in u m = Some s ∧ s ≠ SEEN in
  (∀ m, marked m → redisClient st' !! statusKey u r (msg__id m) = None)
  ∧ (∀ k, (∀ m, marked m → k ≠ statusKey u r (msg__id m)) →
          redisClient st' !! k = redisClient st !! k).
Proof.
  intros Hreach Hc Hu Hr Hne st' marked.
  pose proof (inv_messages _ (reachable_invariant _ Hreach)) as Hok.
  destruct (load_marks_seen st cid client u r Hok Hc Hu Hr Hne) as (Hrun & _).
  subst st'. rewrite Hrun. cbn [fst]. set (messages := merge_sort createdAt_le _).
  assert (Hmem : ∀ m, m ∈ List.filter (is_unread (Some u)) messages ↔ marked m).
  { intros m. rewrite list_elem_of_In, filter_In, <- list_elem_of_In. subst messages marked.
    rewrite merge_sort_Permutation, list_elem_of_filter, is_unread_spec. tauto. }
  split.
  - intros m Hm. rewrite mark_all_redis, decide_True; [done|].
    apply list_elem_of_fmap. exists m. split; [done|]. by apply Hmem.
  - intros k Hk. rewrite mark_all_redis, decide_False; [done|].
    intros (m & -> & Hm)%list_elem_of_fmap. apply Hmem in Hm. by apply (Hk m).
Qed.

(** alice has an entry for the message bob sent after she left.  Her
    load-messages removes it and keeps her presence entry. *)
Lemma load_messages_clears_entries_witness :
  let st := Runs.left in
  let st' := (handleLoadMessages "c_a" st).1 in
  let key := statusKey "alice" Scenario.team Scenario.hi in
  redisClient st !! key = Some "DELIVERED"
  ∧ redisClient st' !! key = None
  ∧ redisClient st' !! presenceKey "alice" = redisClient st !! presenceKey "alice".
Proof.
  intros st st' key. split; [vm_compute; reflexivity|].
  assert (Hm : ∃ m, messageModel Runs.left = [m] ∧ msg__id m = Scenario.hi
                    ∧ msg_room_id m = Scenario.team
                    ∧ receipt_in "alice" m = Some DELIVERED).
  { eexists. split; [vm_compute; reflexivity|]. split; [reflexivity|].
    split; [reflexivity|]. vm_compute. reflexivity. }
  destruct Hm as (m & Hms & Hid & Hroom & Hrc).
  destruct (load_messages_clears_entries st "c_a"
              (mkSocket (Some "alice") (Some "alice") (Some "alice") (Some Scenario.team))
              "alice" Scenario.team) as (Hgone & Hkept).
  - apply reachable_run; [constructor|]. vm_compute. reflexivity.
  - vm_compute. reflexivity.
  - reflexivity.
  - reflexivity.
  - discriminate.
  - split.
    + subst key. rewrite <- Hid. apply Hgone. split; [|split; [exact Hroom|]].
      * subst st. rewrite Hms. apply list_elem_of_here.
      * exists DELIVERED. split; [exact Hrc|discriminate].
    + apply Hkept. intros m' _ E. symmetry in E. by apply statusKey_not_presence in E.
Defined.


Lemma incr_assign_ne counts r r' v :
  r' ≠ r → Js.incr (Js.assign counts r' v) r = Js.incr counts r.
Proof. intros Hne. unfold Js.incr. by rewrite assign_lookup_ne. Qed.

Lemma assign_comm counts r r' v v' :
  r ≠ r' →
  Js.assign (Js.assign counts r v) r' v' = Js.assign (Js.assign counts r' v') r v.
Proof.
  intros Hne. unfold Js.assign.
  destruct (String.eqb r "__proto__"), (String.eqb r' "__proto__"); try done.
  by apply insert_insert_ne.
Qed.

Lemma count_room_comm counts x y :
  count_room (count_room counts x) y = count_room (count_room counts y) x.
Proof.
  unfold count_room.
  destruct (Js.truthy (key_room x)) eqn:Hx, (Js.truthy (key_room y)) eqn:Hy; try done.
  destruct (decide (Js.str (key_room x) = Js.str (key_room y))) as [E|E].
  - by rewrite E.
  - rewrite !incr_assign_ne by done. by apply assign_comm.
Qed.

Lemma foldl_count_room_perm l l' counts :
  l ≡ₚ l' → foldl count_room counts l = foldl count_room counts l'.
Proof.
  intros H. revert counts. induction H as [|x l l' _ IH|x y l|l1 l2 l3 _ IH1 _ IH2];
    intros counts; cbn.
  - done.
  - apply IH.
  - by rewrite count_room_comm.
  - by rewrite IH1.
Qed.

(** An unread summary does not use up what it reports: asked again right
    away it returns the same total and the same per-room counts, and the
    second call leaves the index exactly as the first one left it.  The
    entries go away only when load-messages marks their messages. *)
Theorem unread_summary_is_repeatable st cid client u :
  reachable st → sockets st !! cid = Some client → sock_userId client = Some u →
  ∃ st' st'' total counts,
    handleUnreadMessages cid st = (st', inr (Unread total counts))
    ∧ handleUnreadMessages cid st' = (st'', inr (Unread total counts))
    ∧ redisClient st'' = redisClient st'.
Proof.
  intros Hreach Hc Hu.
  pose proof (reachable_invariant _ Hreach) as Hi.
  pose proof (hoare_run _ _ _ (handleUnreadMessages_invariant cid) Hi) as Hi'.
  assert (Hrun : handleUnreadMessages cid st
                 = (foldl (λ st k, promote u k st) st (pending u (redisClient st)),
                    inr (Unread (length (pending u (redisClient st)))
                           (foldl count_room ∅ (pending u (redisClient st)))))).
  { apply (handleUnreadMessages_run cid client u st Hc Hu).
    intros k Hk. eapply pending_castable; [apply (inv_keys _ Hi)|exact Hk]. }
  rewrite Hrun in Hi'. cbn [fst] in Hi'.
  set (counted := pending u (redisClient st)) in *.
  set (st' := foldl _ st counted) in *.
  assert (Hc' : sockets st' !! cid = Some client).
  { pose proof (handleUnreadMessages_quiet (λ _, False) cid st) as (S1 & _).
    rewrite Hrun in S1. cbn [fst] in S1. by rewrite S1. }
  assert (Hredis : ∀ k, redisClient st' !! k
                        = if decide (k ∈ counted) then Some (status_value DELIVERED)
                          else redisClient st !! k).
  { intros k. subst st'. case_decide; [by apply promote_all_redis_in|].
    by apply promote_all_redis_notin. }
  assert (Hmem : ∀ k, k ∈ pending u (redisClient st') ↔ k ∈ counted).
  { intros k. subst counted. rewrite !elem_of_pending, Hredis.
    case_decide as Hk.
    - apply elem_of_pending in Hk as [Hp Hpend]. rewrite is_pending_DELIVERED. tauto.
    - done. }
  assert (Hperm : pending u (redisClient st') ≡ₚ counted).
  { apply NoDup_Permutation; [apply NoDup_filter, NoDup_scan|apply NoDup_filter, NoDup_scan|].
    exact Hmem. }
  assert (Hrun' : handleUnreadMessages cid st'
                  = (foldl (λ st k, promote u k st) st' (pending u (redisClient st')),
                     inr (Unread (length (pending u (redisClient st')))
                            (foldl count_room ∅ (pending u (redisClient st')))))).
  { apply (handleUnreadMessages_run cid client u st' Hc' Hu).
    intros k Hk. eapply pending_castable; [apply (inv_keys _ Hi')|exact Hk]. }
  rewrite (Permutation_length Hperm), (foldl_count_room_perm _ _ _ Hperm) in Hrun'.
  eexists _, _, _, _. split; [exact Hrun|]. split; [exact Hrun'|].
  apply map_eq. intros k.
  destruct (decide (k ∈ pending u (redisClient st'))) as [Hin|Hout].
  - rewrite promote_all_redis_in by done. apply Hmem in Hin.
    by rewrite Hredis, decide_True.
  - by rewrite promote_all_redis_notin.
Qed.

Lemma unread_summary_is_repeatable_witness :
  ∃ st' st'' total counts,
    handleUnreadMessages "c_a" Scenario.alice_back = (st', inr (Unread total counts))
    ∧ handleUnreadMessages "c_a" st' = (st'', inr (Unread total counts))
    ∧ redisClient st'' = redisClient st'.
Proof.
  apply (unread_summary_is_repeatable Scenario.alice_back "c_a"
           (mkSocket (Some "alice") (Some "alice") (Some "alice") None) "alice").
  - exact alice_back_reachable.
  - vm_compute. reflexivity.
  - reflexivity.
Defined.

End loading_and_counting.

(** ** Keys, the guard and lookups by id *)

Section keys_guard_lookups.

Import ChatService ChatGateway System.

(** The index key is read back as it was built: for a user, a room and a
    message id without colons, splitting the key at the colons gives the
    four segments, the third is the room and the last the message id, and
    two such keys are equal only for the same three parts.  The scan of a
    user whose id has no colon returns such a key only when it is that
    user's. *)
Theorem status_key_round_trip u r m :
  no_colon u = true → no_colon r = true → no_colon m = true →
  Js.split ":" (statusKey u r m) = ["messageStatus"; u; r; m]
  ∧ key_room (statusKey u r m) = Some r
  ∧ Js.pop (Js.split ":" (statusKey u r m)) = Some m
  ∧ (∀ u' r' m', no_colon u' = true → no_colon r' = true → no_colon m' = true →
       statusKey u' r' m' = statusKey u r m → u' = u ∧ r' = r ∧ m' = m)
  ∧ (∀ x, no_colon x = true →
          (String.prefix (statusPrefix x) (statusKey u r m) = true ↔ x = u)).
Proof.
  intros Hu Hr Hm. split; [by apply statusKey_split|]. split; [by apply statusKey_room|].
  split; [by apply statusKey_pop|]. split.
  - intros u' r' m' Hu' Hr' Hm' E. apply (f_equal (Js.split ":")) in E.
    rewrite !statusKey_split in E by done. by injection E as -> -> ->.
  - intros x Hx. split; [by apply statusKey_scanned_inv|]. intros ->.
    apply statusKey_scanned.
Qed.

Lemma status_key_round_trip_witness :
  Js.split ":" (statusKey "alice" Scenario.team Scenario.hi)
  = ["messageStatus"; "alice"; Scenario.team; Scenario.hi].
Proof.
  apply (status_key_round_trip "alice" Scenario.team Scenario.hi); reflexivity.
Defined.

(** An event from a socket whose token does not verify is turned away by
    the guard before its handler runs: each of the five events throws the
    same exception and leaves the state as it was. *)
Theorem guard_turns_away_unverified_socket st cid client roomId message newId now :
  sockets st !! cid = Some client → handshake client = None →
  let refused {A} (res : State * (Exn + A)) :=
    res = (st, inl (WsException "Unauthorized: Invalid JWT token")) in
  refused (on_joinRoom roomId cid st) ∧ refused (on_leaveRoom cid st)
  ∧ refused (on_message message cid newId now st) ∧ refused (on_loadMessages cid st)
  ∧ refused (on_unreadMessages cid st).
Proof.
  intros Hc Hh refused. subst refused. cbn beta.
  assert (Hguard : ∀ A (handler : M A),
            guarded cid handler st = (st, inl (WsException "Unauthorized: Invalid JWT token"))).
  { intros A handler. unfold guarded, ChatAuthGuard.canActivate, ChatAuthGuard.verifyToken.
    rewrite bind_run, try_catch_bind, bind_run. unfold getClient. rewrite Hc.
    cbn beta iota. by rewrite Hh. }
  unfold on_joinRoom, on_leaveRoom, on_message, on_loadMessages, on_unreadMessages.
  by rewrite !Hguard.
Qed.

Lemma guard_turns_away_unverified_socket_witness :
  let st := with_sockets <["c_x" := mkSocket None None None None]> Scenario.together in
  on_loadMessages "c_x" st = (st, inl (WsException "Unauthorized: Invalid JWT token")).
Proof.
  intros st.
  refine (proj1 (proj2 (proj2 (proj2 (guard_turns_away_unverified_socket st "c_x"
            (mkSocket None None None None) Scenario.team "hi" Scenario.hi 1 _ _))))).
  - vm_compute. reflexivity.
  - reflexivity.
Defined.

Lemma find_unique_id {A} (id : A → string) (l : list A) (x : A) :
  NoDup (id <$> l) → x ∈ l → List.find (λ y, bool_decide (id y = id x)) l = Some x.
Proof.
  intros Hnd Hin. induction l as [|y l IH]; [by apply elem_of_nil in Hin|].
  cbn in Hnd. apply NoDup_cons in Hnd as [Hnotin Hnd]. cbn.
  apply elem_of_cons in Hin as [->|Hin].
  - by rewrite bool_decide_eq_true_2.
  - rewrite bool_decide_eq_false_2; [by apply IH|].
    intros E. apply Hnotin. rewrite E. by apply list_elem_of_fmap_2.
Qed.

(** In every reachable state a stored document is the one found under its
    id: [getRoom] returns the room and [getMessageById] the message.  For
    an id that no document has, [getRoom] throws NotFound where
    [getMessageById] returns nothing; for a string that is no ObjectId
    both fail in the cast. *)
Theorem stored_documents_are_found st :
  reachable st →
  (∀ room, room ∈ chatRoomModel st → getRoom (Some (room__id room)) st = (st, inr room))
  ∧ (∀ m, m ∈ messageModel st → getMessageById (msg__id m) st = (st, inr (Some m)))
  ∧ (∀ id, is_oid id = true →
       (id ∉ room__id <$> chatRoomModel st →
        ∃ msg, getRoom (Some id) st = (st, inl (NotFoundException msg)))
       ∧ (id ∉ msg__id <$> messageModel st → getMessageById id st = (st, inr None)))
  ∧ (∀ id, castObjectId id = None →
       getRoom (Some id) st = (st, inl CastError)
       ∧ getMessageById id st = (st, inl CastError)).
Proof.
  intros Hreach.
  destruct (reachable_rooms_ok _ Hreach) as [Hnd Hoid _ _].
  destruct (inv_messages _ (reachable_invariant _ Hreach)) as [Hmnd Hmoid].
  rewrite Forall_forall in Hoid, Hmoid.
  split; [|split; [|split]].
  - intros room Hin. rewrite getRoom_run. unfold room_of.
    rewrite is_oid_cast by (by apply Hoid, list_elem_of_fmap_2). cbn.
    by rewrite (find_unique_id room__id).
  - intros m Hin. unfold getMessageById, cast.
    rewrite is_oid_cast by (by apply Hmoid, list_elem_of_fmap_2).
    rewrite bind_run, ret_run, gets_run. by rewrite (find_unique_id msg__id).
  - intros id Hid. split; intros Hout.
    + rewrite getRoom_run. unfold room_of. rewrite (is_oid_cast _ Hid). cbn.
      rewrite find_none_all; [by eexists|]. intros room Hin.
      apply bool_decide_eq_false. intros E. apply Hout. rewrite <- E.
      by apply list_elem_of_fmap_2.
    + unfold getMessageById, cast. rewrite (is_oid_cast _ Hid), bind_run, ret_run, gets_run.
      rewrite find_none_all; [done|]. intros m Hin.
      apply bool_decide_eq_false. intros E. apply Hout. rewrite <- E.
      by apply list_elem_of_fmap_2.
  - intros id Hid. rewrite getRoom_run, Hid. split; [done|].
    unfold getMessageById, cast. by rewrite Hid.
Qed.

Lemma stored_documents_are_found_witness :
  getRoom (Some Scenario.team) Scenario.alone
  = (Scenario.alone, inr (created_room (Scenario.team_dto ["alice"]) "bob" Scenario.team)).
Proof.
  apply (proj1 (stored_documents_are_found Scenario.alone alone_reachable)
           (created_room (Scenario.team_dto ["alice"]) "bob" Scenario.team)).
  vm_compute. apply list_elem_of_here.
Defined.

End keys_guard_lookups.

